(** * MySQL top-throughput analyzer: snapshot differ, alerter, log ring and
      broadcaster

    A shallow embedding of the Go sources [db_mysql.go], [monitor.go],
    [stream.go] and the helper file holding [deltaSnap], followed by the
    properties the design document states about them.

    Conventions.
    - A Go [uint64] is a [Z] in the range [0, 2^64); every arithmetic
      operation that can leave the range is written with its wrap-around
      ([u64]).  A Go [int] is a [Z] in the range [-2^63, 2^63).
    - A Go [map[snapKey]digestStat] is a [gmap string digestStat].  Go
      iterates a map in an unspecified order; the embedding iterates in the
      order of [map_fold] / [map_to_list], and no property below depends on
      the order chosen.
    - A panic of the Go runtime (slice bounds, close of a closed channel,
      send on a closed channel) is the result [None]. *)

From Stdlib Require Import ZArith Lia String List.
From stdpp Require Import gmap strings list fin_maps.
From stdpp Require Import pretty.
From Stdlib Require Import Ascii.
From Equations Require Import Equations.

Local Open Scope Z_scope.

(** ** Machine integers *)

Definition u64_mod : Z := 2 ^ 64.

Definition u64 (z : Z) : Z := z mod u64_mod.

Definition is_u64 (z : Z) : Prop := 0 <= z < u64_mod.

#[global] Instance is_u64_dec z : Decision (is_u64 z).
Proof. unfold is_u64. apply _. Defined.

(** Conversion [int(x)] of a [uint64] on a 64-bit platform: the bit pattern
    is kept, values from [2^63] on become negative. *)
Definition int_of_u64 (z : Z) : Z :=
  if z <? 2 ^ 63 then z else z - u64_mod.

(** ** Data produced by the database layer ([db_mysql.go]) *)

(** [sql.NullString]; its field [String] is [String_] here, the name
    being taken by the constructor of Rocq's strings. *)
Record NullString := mkNullString {
  String_ : string;
  Valid : bool
}.

Definition null_string : NullString := mkNullString EmptyString false.

Record digestStat := mkDigestStat {
  Digest : string;
  DigestText : string;
  QuerySample : NullString;
  CountStar : Z;
  SumRowsExam : Z;
  SumRowsSent : Z;
  SumRowsAff : Z
}.

(** [type snapshot map[snapKey]digestStat], with [snapKey] a string. *)
Abbreviation snapshot := (gmap string digestStat).

Definition wf_stat (d : digestStat) : Prop :=
  is_u64 (CountStar d) ∧ is_u64 (SumRowsExam d) ∧
  is_u64 (SumRowsSent d) ∧ is_u64 (SumRowsAff d).

#[global] Instance wf_stat_dec d : Decision (wf_stat d).
Proof. unfold wf_stat. apply _. Defined.

Definition wf_snapshot (s : snapshot) : Prop :=
  map_Forall (λ _ d, wf_stat d) s.

#[global] Instance wf_snapshot_dec s : Decision (wf_snapshot s).
Proof. unfold wf_snapshot. apply _. Defined.

(** ** The snapshot differ ([deltaSnap]) *)

(** One clamped counter difference:
    [d := uint64(0); if new >= old { d = new - old }]. *)
Definition clampSub (newc oldc : Z) : Z :=
  if newc >=? oldc then u64 (newc - oldc) else 0.

(** The body of the [for k, newv := range newSnap] loop: what one key of
    the new snapshot does to the result under construction. *)
Definition deltaStep (oldSnap : snapshot) (k : string) (newv : digestStat)
    (out : snapshot) : snapshot :=
  match oldSnap !! k with
  | Some oldv =>
      let dCount := clampSub (CountStar newv) (CountStar oldv) in
      let dRowsExam := clampSub (SumRowsExam newv) (SumRowsExam oldv) in
      let dRowsSent := clampSub (SumRowsSent newv) (SumRowsSent oldv) in
      if (dCount =? 0) && (dRowsExam =? 0) && (dRowsSent =? 0)
      then out
      else <[k := mkDigestStat (Digest newv) (DigestText newv) null_string
                    dCount dRowsExam dRowsSent 0]> out
  | None =>
      <[k := mkDigestStat (Digest newv) (DigestText newv) null_string
               (CountStar newv) (SumRowsExam newv) (SumRowsSent newv) 0]> out
  end.

Definition deltaSnap (oldSnap newSnap : snapshot) : snapshot :=
  map_fold (deltaStep oldSnap) ∅ newSnap.

(** The entry the loop body leaves for key [k], as a function of the two
    snapshot rows; used to characterise [deltaSnap] by its lookups. *)
Definition deltaEntry (oldSnap : snapshot) (k : string) (newv : digestStat)
    : option digestStat :=
  deltaStep oldSnap k newv ∅ !! k.

(** ** The monitor ([monitor.go]) *)

(** [offender]; its field [Digest] is [oDigest] here, [Digest] being the
    projection of [digestStat]. *)
Record offender := mkOffender {
  oDigest : string;
  Text : string;
  BytesRead : Z;
  BytesWrite : Z;
  RowsExamined : Z;
  RowsSent : Z;
  Count : Z
}.

(** The part of the [Config] interface that [monitor.Run] reads. *)
Record Config := mkConfig {
  ReadThreshold : Z;
  WriteThreshold : Z;
  AvgRowRead : Z;
  AvgRowSent : Z
}.

Definition wf_config (c : Config) : Prop :=
  is_u64 (ReadThreshold c) ∧ is_u64 (WriteThreshold c) ∧
  is_u64 (AvgRowRead c) ∧ is_u64 (AvgRowSent c).

#[global] Instance wf_config_dec c : Decision (wf_config c).
Proof. unfold wf_config. apply _. Defined.

(** What [Run] does to the outside world: calls on the [Reporter], on the
    logger and on the database client, in the order they happen. *)
Inductive effect :=
  | Startup (c : Config)
  | LogError (msg : string)
  | LogInfo (msg : string)
  | Alert (o : offender) (readThreshold writeThreshold : Z)
  | DbClose
  | Shutdown.

(** [br] and [bw] of the loop body. *)
Definition bytesRead (c : Config) (d : digestStat) : Z :=
  u64 (SumRowsExam d * AvgRowRead c).

Definition bytesWrite (c : Config) (d : digestStat) : Z :=
  u64 (SumRowsSent d * AvgRowSent c).

(** [text := d.DigestText;
     if d.QuerySample.Valid && d.QuerySample.String != "" { ... }] *)
Definition displayText (d : digestStat) : string :=
  if Valid (QuerySample d) && negb (String.eqb (String_ (QuerySample d)) "")
  then String_ (QuerySample d)
  else DigestText d.

Definition offenderOf (c : Config) (d : digestStat) : offender :=
  mkOffender (Digest d) (displayText d) (bytesRead c d) (bytesWrite c d)
             (SumRowsExam d) (SumRowsSent d) (CountStar d).

(** The body of [for _, d := range delta]. *)
Definition alertStep (c : Config) (d : digestStat) : list effect :=
  let br := bytesRead c d in
  let bw := bytesWrite c d in
  if (br =? 0) && (bw =? 0) then []
  else
    let o := offenderOf c d in
    if (br >=? ReadThreshold c) || (bw >=? WriteThreshold c)
    then [Alert o (ReadThreshold c) (WriteThreshold c)]
    else [].

Definition alertLoop (c : Config) (delta : snapshot) : list effect :=
  flat_map (λ kd, alertStep c kd.2) (map_to_list delta).

(** What [db.Snapshot] hands back. *)
Inductive fetched :=
  | FetchOk (s : snapshot)
  | FetchErr (err : string).

(** One arm of the [select] in the loop, as chosen by the scheduler. *)
Inductive event :=
  | CtxDone
  | StopSignal
  | Tick (r : fetched).

(** The [case <-ticker.C] arm: the effects of the tick and the value of
    [prev] after it. *)
Definition onTick (c : Config) (prev : snapshot) (r : fetched)
    : list effect * snapshot :=
  match r with
  | FetchErr _ => ([LogError "fetch snapshot"], prev)
  | FetchOk curr => (alertLoop c (deltaSnap prev curr), curr)
  end.

(** The labelled [for] loop, run against a finite schedule of events.  It
    returns the effects, the final [prev], and whether the loop was left by
    [break loop]; [false] means that the schedule ended with the loop still
    waiting in its [select]. *)
Fixpoint runLoop (c : Config) (prev : snapshot) (evs : list event)
    : list effect * snapshot * bool :=
  match evs with
  | [] => ([], prev, false)
  | CtxDone :: _ => ([], prev, true)
  | StopSignal :: _ => ([LogInfo "shutting down"], prev, true)
  | Tick r :: rest =>
      let '(es, prev') := onTick c prev r in
      let '(es', final, stopped) := runLoop c prev' rest in
      (es ++ es', final, stopped)
  end.

(** [Run]: startup report, ping, initial snapshot, loop, and, once the loop
    has been left, close and shutdown report.  [pingOk] and [initial] are
    the answers of the database to the two start-up calls, [closeOk] its
    answer to [Close]. *)
Definition Run (c : Config) (pingOk : bool) (initial : fetched)
    (evs : list event) (closeOk : bool) : list effect :=
  Startup c ::
  if pingOk then
    match initial with
    | FetchErr _ => [LogError "initial snapshot failed"]
    | FetchOk prev =>
        let '(es, _, stopped) := runLoop c prev evs in
        if stopped
        then es ++ DbClose :: (if closeOk then [] else [LogError "db close"])
                ++ [Shutdown]
        else es
    end
  else [LogError "ping db"].

(** ** The log ring ([stream.go]) *)

(** Go's [l[i:]]: a run-time panic unless [0 <= i <= len(l)]. *)
Definition sliceFrom {A} (l : list A) (i : Z) : option (list A) :=
  if (0 <=? i) && (i <=? Z.of_nat (length l))
  then Some (drop (Z.to_nat i) l)
  else None.

Record logRing := mkLogRing {
  cap : Z;
  data : list string;
  base : Z;
  next : Z
}.

(** [make([]string, 0, capacity)] panics on a negative capacity. *)
Definition newLogRing (capacity : Z) : option logRing :=
  if capacity <? 0 then None else Some (mkLogRing capacity [] 0 0).

Definition Append (s : string) (r : logRing) : option logRing :=
  r1 ← (if Z.of_nat (length (data r)) =? cap r
        then rest ← sliceFrom (data r) 1;
             Some (mkLogRing (cap r) rest (u64 (base r + 1)) (next r))
        else Some r);
  Some (mkLogRing (cap r1) (data r1 ++ [s]) (base r1) (u64 (next r1 + 1))).

Definition GetFrom (seq : Z) (r : logRing) : option (list string * Z) :=
  let seq := if seq <? base r then base r else seq in
  if seq >? next r then Some ([], next r)
  else
    let len := Z.of_nat (length (data r)) in
    let startIdx := int_of_u64 (u64 (seq - base r)) in
    let startIdx :=
      if (startIdx <? 0) || (startIdx >? len) then len else startIdx in
    out ← sliceFrom (data r) startIdx;
    Some (out, next r).

Definition Head (r : logRing) : Z := next r.

(** The operations a caller can run on the ring, and their effect on its
    state.  [GetFrom] and [Head] only read. *)
Inductive ringOp :=
  | OpAppend (s : string)
  | OpGetFrom (seq : Z)
  | OpHead.

Definition ringStep (op : ringOp) (r : logRing) : option logRing :=
  match op with
  | OpAppend s => Append s r
  | OpGetFrom seq => _ ← GetFrom seq r; Some r
  | OpHead => Some r
  end.

Fixpoint ringRun (ops : list ringOp) (r : logRing) : option logRing :=
  match ops with
  | [] => Some r
  | op :: ops' => r' ← ringStep op r; ringRun ops' r'
  end.

(** The invariant of the ring: the sequence numbers are 64-bit, the number
    of retained lines is [next - base] (in 64-bit arithmetic) and does not
    exceed the capacity. *)
Definition ring_inv (r : logRing) : Prop :=
  is_u64 (base r) ∧ is_u64 (next r) ∧
  u64 (next r - base r) = Z.of_nat (length (data r)) ∧
  Z.of_nat (length (data r)) <= cap r ∧ cap r < 2 ^ 63.

(** The retained lines with their sequence numbers, for rings whose
    counters have not wrapped: line [i] of [data] has number [base + i]. *)
Definition retained (r : logRing) : list (Z * string) :=
  imap (λ i s, (base r + Z.of_nat i, s)) (data r).

(** What the design document asks of [GetFrom]: the retained lines whose
    sequence number is at least [seq], in order. *)
Definition linesFrom_spec (seq : Z) (r : logRing) : list string :=
  (filter (λ p, seq <= p.1) (retained r)).*2.

(** ** The broadcaster ([stream.go]) *)

(** A buffered Go channel of strings: the queued messages and whether it
    has been closed.  Channels are heap objects named by a [nat]. *)
Record chan := mkChan {
  buf : list string;
  closed : bool
}.

(** [make(chan string, 256)] *)
Definition chanCap : Z := 256.

Record sseBroadcaster := mkBroadcaster {
  chans : gmap nat chan;
  subs : gset nat
}.

Definition NewLogStreamBroadcaster : sseBroadcaster :=
  mkBroadcaster ∅ ∅.

(** [Subscribe]: the new channel and the state after registration.  The
    unsubscribe closure it returns is [unsubscribe ch]. *)
Definition Subscribe (b : sseBroadcaster) : nat * sseBroadcaster :=
  let ch := fresh (dom (chans b)) in
  (ch, mkBroadcaster (<[ch := mkChan [] false]> (chans b)) ({[ch]} ∪ subs b)).

(** [close(ch)] panics on a nil channel and on a closed one. *)
Definition closeChan (ch : nat) (h : gmap nat chan) : option (gmap nat chan) :=
  match h !! ch with
  | None => None
  | Some c => if closed c then None else Some (<[ch := mkChan (buf c) true]> h)
  end.

Definition unsubscribe (ch : nat) (b : sseBroadcaster) : option sseBroadcaster :=
  if decide (ch ∈ subs b)
  then h ← closeChan ch (chans b); Some (mkBroadcaster h (subs b ∖ {[ch]}))
  else Some b.

(** [select { case ch <- message: default: }]: a send on a closed channel
    panics; a nil channel is never ready; otherwise the message is queued
    when there is room and dropped when there is none. *)
Definition trySend (message : string) (ch : nat) (h : gmap nat chan)
    : option (gmap nat chan) :=
  match h !! ch with
  | None => Some h
  | Some c =>
      if closed c then None
      else if Z.of_nat (length (buf c)) <? chanCap
      then Some (<[ch := mkChan (buf c ++ [message]) false]> h)
      else Some h
  end.

Fixpoint sendAll (message : string) (l : list nat) (h : gmap nat chan)
    : option (gmap nat chan) :=
  match l with
  | [] => Some h
  | ch :: l' => h' ← trySend message ch h; sendAll message l' h'
  end.

Definition Broadcast (message : string) (b : sseBroadcaster)
    : option sseBroadcaster :=
  h ← sendAll message (elements (subs b)) (chans b);
  Some (mkBroadcaster h (subs b)).

Fixpoint unsubscribeTimes (n : nat) (ch : nat) (b : sseBroadcaster)
    : option sseBroadcaster :=
  match n with
  | O => Some b
  | S n' => b' ← unsubscribe ch b; unsubscribeTimes n' ch b'
  end.

(** The operations that reach the broadcaster, from any goroutine; the
    mutex [mu] makes each of them atomic with respect to the others. *)
Inductive bcOp :=
  | OpSubscribe
  | OpUnsubscribe (ch : nat)
  | OpBroadcast (message : string).

Definition bcStep (op : bcOp) (b : sseBroadcaster) : option sseBroadcaster :=
  match op with
  | OpSubscribe => Some (Subscribe b).2
  | OpUnsubscribe ch => unsubscribe ch b
  | OpBroadcast message => Broadcast message b
  end.

Fixpoint bcRun (ops : list bcOp) (b : sseBroadcaster) : option sseBroadcaster :=
  match ops with
  | [] => Some b
  | op :: ops' => b' ← bcStep op b; bcRun ops' b'
  end.

(** Every registered channel exists and is open. *)
Definition bc_inv (b : sseBroadcaster) : Prop :=
  set_Forall (λ ch, closed <$> chans b !! ch = Some false) (subs b).

#[global] Instance bc_inv_dec b : Decision (bc_inv b).
Proof. unfold bc_inv. apply _. Defined.

(** Channel [ch] has been unsubscribed: it is closed and not registered. *)
Definition released (ch : nat) (b : sseBroadcaster) : Prop :=
  (ch ∉ subs b) ∧ ∃ c, chans b !! ch = Some c ∧ closed c = true.

(** One delivery attempt on a channel: the message is queued when there is
    room and dropped when the queue is full. *)
Definition deliver (message : string) (c : chan) : chan :=
  if Z.of_nat (length (buf c)) <? chanCap
  then mkChan (buf c ++ [message]) (closed c)
  else c.

(** ** Vocabulary of the statements *)

(** A delta counter [d] is the clamped difference of the current value
    [cur] and the previous value [prev]. *)
Definition clamped (cur prev d : Z) : Prop :=
  (prev <= cur → d = cur - prev) ∧ (cur < prev → d = 0).

(** At least one of the three delta counters is not zero. *)
Definition active (d : digestStat) : Prop :=
  CountStar d ≠ 0 ∨ SumRowsExam d ≠ 0 ∨ SumRowsSent d ≠ 0.

(** The same row with its rows-affected counter erased. *)
Definition eraseAff (d : digestStat) : digestStat :=
  mkDigestStat (Digest d) (DigestText d) (QuerySample d)
               (CountStar d) (SumRowsExam d) (SumRowsSent d) 0.

(** A delta row qualifies for an alert: at least one byte estimate is not
    zero, and at least one of them reaches its threshold. *)
Definition qualifies (c : Config) (d : digestStat) : Prop :=
  (bytesRead c d ≠ 0 ∨ bytesWrite c d ≠ 0) ∧
  (ReadThreshold c <= bytesRead c d ∨ WriteThreshold c <= bytesWrite c d).

#[global] Instance qualifies_dec c d : Decision (qualifies c d).
Proof. unfold qualifies. apply _. Defined.

(** The one [Alert] call made for a qualifying delta row. *)
Definition alertOf (c : Config) (d : digestStat) : effect :=
  Alert (offenderOf c d) (ReadThreshold c) (WriteThreshold c).

(** * Further code of the repository *)

(** ** Vocabulary of the further statements on the differ and the monitor *)

(** The value of counter [f] that the delta mapping [m] holds for key [k],
    zero when the key has no entry. *)
Definition counterAt (f : digestStat → Z) (m : snapshot) (k : string) : Z :=
  from_option f 0 (m !! k).

(** The three counters of [later] are at least those of [earlier]. *)
Definition monotone (earlier later : digestStat) : Prop :=
  CountStar earlier <= CountStar later ∧
  SumRowsExam earlier <= SumRowsExam later ∧
  SumRowsSent earlier <= SumRowsSent later.

Definition isLogError (e : effect) : bool :=
  match e with LogError _ => true | _ => false end.

Definition isFailedTick (ev : event) : bool :=
  match ev with Tick (FetchErr _) => true | _ => false end.


(** [for _, d := range delta]: Go visits the entries of a map in an order
    that the language leaves open and that may differ from one loop to the
    next.  [rangeOver delta order] holds of every order in which one such
    loop may visit the entries of [delta]. *)
Definition rangeOver (delta : snapshot)
    (order : list (string * digestStat)) : Prop :=
  order ≡ₚ map_to_list delta.

(** The [case <-ticker.C] arm with the iteration order left open: the
    effects and the next [prev] that one tick may produce. *)
Inductive tickRuns (c : Config) (prev : snapshot)
    : fetched → list effect → snapshot → Prop :=
  | tick_failed err :
      tickRuns c prev (FetchErr err) [LogError "fetch snapshot"] prev
  | tick_fetched curr order :
      rangeOver (deltaSnap prev curr) order →
      tickRuns c prev (FetchOk curr)
        (flat_map (λ kd, alertStep c kd.2) order) curr.

(** The labelled [for] loop with the iteration order left open:
    [loopRuns c prev evs es final stopped] holds when the loop, started
    with [prev] on the schedule [evs], may issue the effects [es] and end
    with [final], left by [break loop] exactly when [stopped]. *)
Inductive loopRuns (c : Config)
    : snapshot → list event → list effect → snapshot → bool → Prop :=
  | loop_waiting prev :
      loopRuns c prev [] [] prev false
  | loop_ctx prev rest :
      loopRuns c prev (CtxDone :: rest) [] prev true
  | loop_signal prev rest :
      loopRuns c prev (StopSignal :: rest) [LogInfo "shutting down"] prev true
  | loop_tick prev r rest es prev' es' final stopped :
      tickRuns c prev r es prev' →
      loopRuns c prev' rest es' final stopped →
      loopRuns c prev (Tick r :: rest) (es ++ es') final stopped.

(** ** Loading a snapshot ([mysqlClient.Snapshot] in [db_mysql.go]) *)

(** What [rows.Scan] makes of one row of the result set: the seven columns
    as a [digestStat], or an error. *)
Inductive scanned :=
  | ScanOk (d : digestStat)
  | ScanErr (err : string).

(** The [for rows.Next()] loop: [snap[snapKey(d.Digest)] = d] for every row,
    leaving with the error at the first row that does not scan. *)
Fixpoint scanRows (rows : list scanned) (snap : snapshot) : fetched :=
  match rows with
  | [] => FetchOk snap
  | ScanErr err :: _ => FetchErr err
  | ScanOk d :: rest => scanRows rest (<[Digest d := d]> snap)
  end.

(** [Snapshot]: [queryErr] is the error of [QueryContext], [rows] the rows
    the driver delivers and [rowsErr] the error of [rows.Err()], if any. *)
Definition Snapshot (queryErr : option string) (rows : list scanned)
    (rowsErr : option string) : fetched :=
  match queryErr with
  | Some err => FetchErr err
  | None =>
      match scanRows rows ∅ with
      | FetchErr err => FetchErr err
      | FetchOk snap =>
          match rowsErr with
          | Some err => FetchErr err
          | None => FetchOk snap
          end
      end
  end.

(** Every row of the snapshot is stored under its own digest. *)
Definition keyed (s : snapshot) : Prop :=
  map_Forall (λ k d, Digest d = k) s.

(** The digests named by the [Alert] calls of a list of effects. *)
Definition alertDigests (es : list effect) : list string :=
  omap (λ e, match e with Alert o _ _ => Some (oDigest o) | _ => None end) es.

(** ** Using the log ring *)

(** A run of [Append] calls, one per line, as [logTeeWriter.Write] makes
    them. *)
Fixpoint appendAll (ls : list string) (r : logRing) : option logRing :=
  match ls with
  | [] => Some r
  | s :: ls' => r' ← Append s r; appendAll ls' r'
  end.

(** The last [n] elements of a list (the whole list when it is shorter). *)
Definition lastN {A} (n : nat) (l : list A) : list A :=
  drop (length l - n) l.

(** ** Using the broadcaster *)

(** No queue holds more lines than its capacity. *)
Definition bc_bounded (b : sseBroadcaster) : Prop :=
  map_Forall (λ _ c, Z.of_nat (length (buf c)) <= chanCap) (chans b).

(** ** The tee writer ([logTeeWriter.Write] in [stream.go]) *)

Definition newline : ascii := "010"%char.

Definition carriageReturn : ascii := "013"%char.

(** [bytes.IndexByte]; [None] stands for [-1]. *)
Fixpoint IndexByte (data : list ascii) (c : ascii) : option nat :=
  match data with
  | [] => None
  | x :: rest => if Ascii.eqb x c then Some O else S <$> IndexByte rest c
  end.

(** [if len(line) > 0 && line[len(line)-1] == '\r' { line = line[:len(line)-1] }] *)
Fixpoint trimCR (line : string) : string :=
  match line with
  | EmptyString => EmptyString
  | String c rest =>
      match rest with
      | EmptyString =>
          if Ascii.eqb c carriageReturn then EmptyString else line
      | String _ _ => String c (trimCR rest)
      end
  end.

(** The state a [Write] works on: the buffer [t.buf] of bytes not yet
    emitted, the process-wide ring [globalLogRing], and the broadcaster
    [t.bus] ([None] when it is nil). *)
Record tee := mkTee {
  tbuf : list ascii;
  ring : logRing;
  bus : option sseBroadcaster
}.

(** The [if line != "" { ... }] block; [noBus] is the global [sseNoBus]. *)
Definition emitLine (noBus : bool) (line : string) (t : tee) : option tee :=
  if String.eqb line "" then Some t
  else
    r ← Append line (ring t);
    match bus t with
    | Some b =>
        if noBus then Some (mkTee (tbuf t) r (Some b))
        else b' ← Broadcast line b; Some (mkTee (tbuf t) r (Some b'))
    | None => Some (mkTee (tbuf t) r None)
    end.

Definition inspect {A} (a : A) : {b : A | a = b} := exist _ a eq_refl.

Lemma IndexByte_lt data c i :
  IndexByte data c = Some i → (i < length data)%nat.
Proof.
  revert i. induction data as [|x rest IH]; intros i; simpl; [done|].
  destruct (Ascii.eqb x c).
  - intros [= <-]. lia.
  - destruct (IndexByte rest c) as [j|]; [|done]. simpl. intros [= <-].
    specialize (IH j eq_refl). lia.
Qed.

(** The scanning loop of [Write]: while the buffer holds a newline, take
    the bytes before it as a line, trim one carriage return, emit the line
    unless it is empty, and advance the buffer past the newline. *)
Equations? drainLines (noBus : bool) (t : tee) : option tee
    by wf (length (tbuf t)) lt :=
  drainLines noBus t with inspect (IndexByte (tbuf t) newline) := {
    | exist _ None _ => Some t
    | exist _ (Some i) Hi
        with emitLine noBus
               (trimCR (string_of_list_ascii (take i (tbuf t)))) t := {
        | None => None
        | Some t' =>
            drainLines noBus (mkTee (drop (S i) (tbuf t)) (ring t') (bus t'))
      }
  }.
Proof.
  apply IndexByte_lt in Hi. simpl. rewrite length_drop. lia.
Qed.

(** [Write]: the bytes are added to the buffer and the loop is run.  The
    bytes also go to the underlying writer, whose result [Write] returns;
    that part has no bearing on the state modelled here. *)
Definition Write (noBus : bool) (p : list ascii) (t : tee) : option tee :=
  drainLines noBus (mkTee (tbuf t ++ p) (ring t) (bus t)).

(** The lines emitted for a list of newline-terminated segments. *)
Definition linesOf (segs : list (list ascii)) : list string :=
  filter (λ line, line ≠ EmptyString)
         ((λ seg, trimCR (string_of_list_ascii seg)) <$> segs).

(** What a run of [Write] calls does to the broadcaster for the lines it
    emits: nothing when there is none or when the bus is switched off, one
    [Broadcast] per line otherwise. *)
Definition busRun (noBus : bool) (lines : list string)
    (bs : option sseBroadcaster) : option (option sseBroadcaster) :=
  match bs with
  | None => Some None
  | Some b =>
      if noBus then Some (Some b)
      else Some <$> bcRun (OpBroadcast <$> lines) b
  end.

(** The invariants under which a [Write] cannot panic. *)
Definition tee_inv (t : tee) : Prop :=
  ring_inv (ring t) ∧ 1 <= cap (ring t) ∧
  match bus t with Some b => bc_inv b | None => True end.

(** ** Helpers of the helper file ([bytesToHuman], [trimString],
       [parseBytesFlag]) *)

(** The loop of [bytesToHuman]:
    [for n := b / unit; n >= unit; n /= unit { div *= unit; exp++ }]. *)
Equations? unitLoop (n div exp : Z) : Z * Z by wf (Z.to_nat n) lt :=
  unitLoop n div exp with inspect (n >=? 1024) := {
    | exist _ true Hn => unitLoop (n / 1024) (u64 (div * 1024)) (exp + 1)
    | exist _ false _ => (div, exp)
  }.
Proof.
  rewrite Z.geb_leb in Hn. apply Z.leb_le in Hn.
  assert (n / 1024 < n) by (apply Z.div_lt; lia).
  assert (0 <= n / 1024) by (apply Z.div_pos; lia).
  lia.
Qed.

(** [bytesToHuman].  The text of [float64(b) / float64(div)] with two
    decimals, [fmt.Sprintf("%.2f", ...)], is floating point and is left
    as the parameter [fmtFloat2 b div]; indexing the table of units
    outside its bounds is a panic. *)
Definition bytesToHuman (fmtFloat2 : Z → Z → string) (b : Z)
    : option string :=
  if b =? 0 then Some "0B"
  else if b <? 1024 then Some (pretty b +:+ "B")
  else
    let '(div, exp) := unitLoop (b / 1024) 1024 0 in
    if exp <? 0 then None
    else
      prefix ← ["KiB"; "MiB"; "GiB"; "TiB"] !! Z.to_nat exp;
      Some (fmtFloat2 b div +:+ prefix).

(** [trimString]; [s[:n]] panics for a negative [n]. *)
Definition trimString (s : string) (n : Z) : option string :=
  if Z.of_nat (String.length s) <=? n then Some s
  else if n <? 0 then None
  else Some (substring 0 (Z.to_nat n) s +:+ "...").

(** [strings.HasSuffix] and [strings.TrimSuffix]. *)
Definition hasSuffix (s suf : string) : bool :=
  (String.length suf <=? String.length s)%nat &&
  String.eqb (substring (String.length s - String.length suf)
                        (String.length suf) s) suf.

Definition trimSuffix (s suf : string) : string :=
  if hasSuffix s suf
  then substring 0 (String.length s - String.length suf) s
  else s.

(** [parseBytesFlag].  Two parts are parameters: [trimSpaceUpper]
    ([strings.ToUpper] of [strings.TrimSpace], both Unicode aware), and
    [scan rest mult], the reading of the number in [rest] with [fmt.Sscanf]
    and its conversion [uint64(v * float64(mult))], which is floating
    point; [None] is the scan error. *)
Definition parseBytesFlag (trimSpaceUpper : string → string)
    (scan : string → Z → option Z) (s : string) : option Z :=
  let s := trimSpaceUpper s in
  if hasSuffix s "GB" then scan (trimSuffix s "GB") (1024 * 1024 * 1024)
  else if hasSuffix s "G" then scan (trimSuffix s "G") (1000 * 1000 * 1000)
  else if hasSuffix s "MB" then scan (trimSuffix s "MB") (1024 * 1024)
  else if hasSuffix s "M" then scan (trimSuffix s "M") (1000 * 1000)
  else if hasSuffix s "KB" then scan (trimSuffix s "KB") 1024
  else if hasSuffix s "K" then scan (trimSuffix s "K") 1000
  else scan s 1.

(** ** The heartbeat period of a streaming session ([LogsSSEHandler]) *)

Definition millisecond : Z := 1000000.

Definition second : Z := 1000 * millisecond.

Definition minute : Z := 60 * second.

(** The heartbeat period, in nanoseconds as a [time.Duration]: [qs] is the
    query parameter ["heartbeat"], [ParseDuration] is [time.ParseDuration]
    with [None] for its error. *)
Definition heartbeatInterval (ParseDuration : string → option Z)
    (qs : string) : Z :=
  let heartbeat := 15 * second in
  if String.eqb qs "" then heartbeat
  else
    match ParseDuration qs with
    | Some d =>
        if d <? 100 * millisecond then 100 * millisecond
        else if d >? 5 * minute then 5 * minute
        else d
    | None => heartbeat
    end.

(** ** Streaming sessions ([LogsSSEHandler] in [stream.go]) *)

(** What a session writes to its client. *)
Inductive frame :=
  | Hello
  | KeepAlive
  | Data (line : string).

Definition dquote : ascii := ascii_of_nat 34.

Definition blankLine : string := String newline (String newline EmptyString).

(** The bytes of a frame: the hello event, the comment line of a
    heartbeat, and [data: <line>] followed by a blank line. *)
Definition wire (f : frame) : string :=
  match f with
  | Hello =>
      "event: hello" +:+ String newline
        ("data: {" +:+ String dquote ("msg" +:+ String dquote
           (":" +:+ String dquote ("connected" +:+ String dquote "}"))))
        +:+ blankLine
  | KeepAlive => ": keepalive" +:+ blankLine
  | Data line => "data: " +:+ line +:+ blankLine
  end.

(** The client side of the connection: the frames it has received and,
    when the connection is going to break, the number of frames it still
    takes.  A frame is written and flushed whole or fails whole. *)
Record client := mkClient {
  received : list frame;
  credit : option nat
}.

(** One frame written and flushed; [None] is the error of the write. *)
Definition send (f : frame) (cl : client) : option client :=
  match credit cl with
  | None => Some (mkClient (received cl ++ [f]) None)
  | Some (S n) => Some (mkClient (received cl ++ [f]) (Some n))
  | Some O => None
  end.

(** The hello event is written with [fmt.Fprintf], whose error is not
    looked at. *)
Definition sendHello (cl : client) : client :=
  match send Hello cl with
  | Some cl' => cl'
  | None => cl
  end.

(** [for _, line := range lines { ... }], leaving at the first write that
    fails; the flag tells whether all lines were written. *)
Fixpoint sendLines (lines : list string) (cl : client) : client * bool :=
  match lines with
  | [] => (cl, true)
  | line :: rest =>
      match send (Data line) cl with
      | None => (cl, false)
      | Some cl' => sendLines rest cl'
      end
  end.

(** The lines of the data frames among a list of frames. *)
Definition dataOf (fs : list frame) : list string :=
  omap (λ f, match f with Data line => Some line | _ => None end) fs.

(** *** Poll mode *)

(** What happens while a poll-mode session runs: the arm of its [select]
    that is taken, or a line appended to the ring by the tee writer. *)
Inductive pollEvent :=
  | PDisconnect
  | PHeartbeat
  | PPoll
  | PAppend (line : string).

(** The loop of the session.  The result is the ring, the client, and
    whether the handler has returned. *)
Fixpoint pollLoop (evs : list pollEvent) (r : logRing) (seq : Z)
    (cl : client) : option (logRing * client * bool) :=
  match evs with
  | [] => Some (r, cl, false)
  | PDisconnect :: _ => Some (r, cl, true)
  | PHeartbeat :: rest =>
      match send KeepAlive cl with
      | None => Some (r, cl, true)
      | Some cl' => pollLoop rest r seq cl'
      end
  | PPoll :: rest =>
      '(lines, nxt) ← GetFrom seq r;
      let '(cl', ok) := sendLines lines cl in
      if ok then pollLoop rest r nxt cl' else Some (r, cl', true)
  | PAppend line :: rest =>
      r' ← Append line r; pollLoop rest r' seq cl
  end.

Definition pollSession (evs : list pollEvent) (r : logRing) (cl : client)
    : option (logRing * client * bool) :=
  pollLoop evs r (Head r) (sendHello cl).

(** The lines appended to the ring during a schedule. *)
Definition appended (evs : list pollEvent) : list string :=
  omap (λ ev, match ev with PAppend line => Some line | _ => None end) evs.

(** A schedule in which the client never disconnects, every poll finds at
    most [c] lines appended since the poll before it ([pending] counts
    them), and a poll follows the last appended line. *)
Fixpoint paced (c : nat) (pending : nat) (evs : list pollEvent) : bool :=
  match evs with
  | [] => bool_decide (pending = 0%nat)
  | PDisconnect :: _ => false
  | PHeartbeat :: rest => paced c pending rest
  | PPoll :: rest => bool_decide (pending ≤ c)%nat && paced c 0 rest
  | PAppend _ :: rest => paced c (S pending) rest
  end.

(** *** Push mode *)

(** [line, ok := <-ch] when the arm is ready: the oldest queued line, or
    [ok = false] on a closed and drained channel.  The outer [None] means
    that the arm is not ready. *)
Definition recv (ch : nat) (h : gmap nat chan)
    : option (option string * gmap nat chan) :=
  match h !! ch with
  | None => None
  | Some c =>
      match buf c with
      | line :: rest => Some (Some line, <[ch := mkChan rest (closed c)]> h)
      | [] => if closed c then Some (None, h) else None
      end
  end.

(** What happens while a push-mode session runs: the arm of its [select]
    that is taken, or an operation of another goroutine on the
    broadcaster. *)
Inductive pushEvent :=
  | QDisconnect
  | QHeartbeat
  | QRecv
  | QBus (op : bcOp).

(** The loop of the session.  The result is the broadcaster, the client,
    and whether the handler has returned.  A [QRecv] scheduled while the
    channel arm is not ready does nothing. *)
Fixpoint pushLoop (evs : list pushEvent) (b : sseBroadcaster) (ch : nat)
    (cl : client) : option (sseBroadcaster * client * bool) :=
  match evs with
  | [] => Some (b, cl, false)
  | QDisconnect :: _ => Some (b, cl, true)
  | QHeartbeat :: rest =>
      match send KeepAlive cl with
      | None => Some (b, cl, true)
      | Some cl' => pushLoop rest b ch cl'
      end
  | QRecv :: rest =>
      match recv ch (chans b) with
      | None => pushLoop rest b ch cl
      | Some (None, _) => Some (b, cl, true)
      | Some (Some line, h) =>
          match send (Data line) cl with
          | None => Some (mkBroadcaster h (subs b), cl, true)
          | Some cl' => pushLoop rest (mkBroadcaster h (subs b)) ch cl'
          end
      end
  | QBus op :: rest =>
      b' ← bcStep op b; pushLoop rest b' ch cl
  end.

(** The session: subscribe, hello, loop, and the deferred [unsubscribe()]
    once the handler returns. *)
Definition pushSession (evs : list pushEvent) (b : sseBroadcaster)
    (cl : client) : option (sseBroadcaster * client * bool) :=
  let ch := (Subscribe b).1 in
  '(b', cl', returned) ← pushLoop evs (Subscribe b).2 ch (sendHello cl);
  if returned : bool
  then b'' ← unsubscribe ch b'; Some (b'', cl', true)
  else Some (b', cl', false).

(** The lines broadcast during a schedule. *)
Definition broadcasted (evs : list pushEvent) : list string :=
  omap (λ ev, match ev with QBus (OpBroadcast m) => Some m | _ => None end)
       evs.

(** The queue of channel [ch], empty when there is no such channel. *)
Definition queueOf (ch : nat) (b : sseBroadcaster) : list string :=
  from_option buf [] (chans b !! ch).

(** The session's channel is registered, or it is closed and out of the
    registry; it cannot be unregistered and open. *)
Definition owned (ch : nat) (b : sseBroadcaster) : Prop :=
  ch ∈ subs b ∨ released ch b.

(** * Properties *)

(** ** Machine integers *)

Lemma u64_range z : is_u64 (u64 z).
Proof. unfold is_u64, u64, u64_mod. apply Z.mod_pos_bound. lia. Qed.

Lemma u64_small z : is_u64 z → u64 z = z.
Proof. unfold is_u64, u64. intros H. by apply Z.mod_small. Qed.

Lemma clampSub_range n o : is_u64 (clampSub n o).
Proof.
  unfold clampSub. destruct (n >=? o); [apply u64_range|].
  unfold is_u64, u64_mod. lia.
Qed.

Lemma clampSub_ge n o : is_u64 n → is_u64 o → o <= n → clampSub n o = n - o.
Proof.
  unfold clampSub, is_u64. intros Hn Ho Hle.
  destruct (Z.geb_spec n o) as [_|Hlt]; [|lia].
  apply u64_small. unfold is_u64. lia.
Qed.

Lemma clampSub_lt n o : n < o → clampSub n o = 0.
Proof.
  unfold clampSub. intros Hlt. destruct (Z.geb_spec n o); [lia|done].
Qed.

Lemma clampSub_same n : clampSub n n = 0.
Proof.
  unfold clampSub. destruct (Z.geb_spec n n); [|done].
  by rewrite Z.sub_diag.
Qed.

Lemma clampSub_clamped n o :
  is_u64 n → is_u64 o → clamped n o (clampSub n o).
Proof.
  intros Hn Ho. split; intros H.
  - by apply clampSub_ge.
  - by apply clampSub_lt.
Qed.

(** ** The differ, key by key *)

Lemma deltaStep_lookup_same oldSnap k newv out :
  deltaStep oldSnap k newv out !! k =
    match deltaEntry oldSnap k newv with
    | Some d => Some d
    | None => out !! k
    end.
Proof.
  unfold deltaEntry, deltaStep.
  destruct (oldSnap !! k) as [oldv|].
  - destruct (_ && _).
    + by rewrite lookup_empty.
    + by rewrite !lookup_insert_eq.
  - by rewrite !lookup_insert_eq.
Qed.

Lemma deltaStep_lookup_other oldSnap k k' newv out :
  k ≠ k' → deltaStep oldSnap k newv out !! k' = out !! k'.
Proof.
  intros Hne. unfold deltaStep.
  destruct (oldSnap !! k) as [oldv|].
  - destruct (_ && _); [done|]. by rewrite lookup_insert_ne.
  - by rewrite lookup_insert_ne.
Qed.

(** The loop computes, key by key, the entry of the new snapshot's row. *)
Lemma deltaSnap_lookup oldSnap newSnap k :
  deltaSnap oldSnap newSnap !! k = newSnap !! k ≫= deltaEntry oldSnap k.
Proof.
  unfold deltaSnap.
  apply (map_fold_weak_ind
           (λ (out : snapshot) (m : snapshot),
              out !! k = m !! k ≫= deltaEntry oldSnap k)).
  - by rewrite !lookup_empty.
  - intros i x m r Hnone IH.
    destruct (decide (i = k)) as [->|Hne].
    + rewrite deltaStep_lookup_same, lookup_insert_eq. simpl.
      rewrite IH, Hnone. simpl. by destruct (deltaEntry oldSnap k x).
    + by rewrite deltaStep_lookup_other, lookup_insert_ne.
Qed.


Lemma deltaEntry_old oldSnap k newv oldv :
  oldSnap !! k = Some oldv →
  deltaEntry oldSnap k newv =
    let dCount := clampSub (CountStar newv) (CountStar oldv) in
    let dRowsExam := clampSub (SumRowsExam newv) (SumRowsExam oldv) in
    let dRowsSent := clampSub (SumRowsSent newv) (SumRowsSent oldv) in
    if (dCount =? 0) && (dRowsExam =? 0) && (dRowsSent =? 0) then None
    else Some (mkDigestStat (Digest newv) (DigestText newv) null_string
                            dCount dRowsExam dRowsSent 0).
Proof.
  intros Hold. unfold deltaEntry, deltaStep. rewrite Hold. simpl.
  destruct (_ && _); [apply lookup_empty | apply lookup_insert_eq].
Qed.

Lemma deltaEntry_new oldSnap k newv :
  oldSnap !! k = None →
  deltaEntry oldSnap k newv =
    Some (mkDigestStat (Digest newv) (DigestText newv) null_string
            (CountStar newv) (SumRowsExam newv) (SumRowsSent newv) 0).
Proof.
  intros Hold. unfold deltaEntry, deltaStep. rewrite Hold.
  apply lookup_insert_eq.
Qed.

(** Every delta entry comes from a row of the new snapshot. *)
Lemma deltaSnap_Some oldSnap newSnap k d :
  deltaSnap oldSnap newSnap !! k = Some d →
  ∃ newv, newSnap !! k = Some newv ∧ deltaEntry oldSnap k newv = Some d.
Proof.
  rewrite deltaSnap_lookup. destruct (newSnap !! k) as [newv|]; [|done].
  simpl. eauto.
Qed.

Lemma three_zero_true a b c :
  (a =? 0) && (b =? 0) && (c =? 0) = true ↔ a = 0 ∧ b = 0 ∧ c = 0.
Proof. rewrite !andb_true_iff, !Z.eqb_eq. tauto. Qed.

Lemma three_zero_false a b c :
  (a =? 0) && (b =? 0) && (c =? 0) = false ↔ a ≠ 0 ∨ b ≠ 0 ∨ c ≠ 0.
Proof.
  rewrite !andb_false_iff, !Z.eqb_neq. tauto.
Qed.

(** The differ never copies the sample text: every delta row has a null
    [QuerySample], so the monitor's choice of display text always falls
    back to the normalized text. *)
Lemma deltaSnap_sample_null oldSnap newSnap k d :
  deltaSnap oldSnap newSnap !! k = Some d →
  QuerySample d = null_string ∧ displayText d = DigestText d ∧
  ∃ newv, newSnap !! k = Some newv ∧ DigestText d = DigestText newv.
Proof.
  intros Hd. apply deltaSnap_Some in Hd as (newv & Hnew & Hent).
  assert (QuerySample d = null_string ∧ DigestText d = DigestText newv)
    as [Hq Ht].
  { destruct (oldSnap !! k) as [oldv|] eqn:Hold.
    - rewrite (deltaEntry_old _ _ _ _ Hold) in Hent. simpl in Hent.
      destruct (_ && _); [done|]. by injection Hent as <-.
    - rewrite (deltaEntry_new _ _ _ Hold) in Hent. by injection Hent as <-. }
  split; [done|]. split; [|eauto].
  unfold displayText. by rewrite Hq.
Qed.

(** The differ reads the rows-affected counter of neither snapshot. *)
Lemma deltaEntry_eraseAff oldSnap k newv :
  deltaEntry (eraseAff <$> oldSnap) k (eraseAff newv) =
  deltaEntry oldSnap k newv.
Proof.
  unfold deltaEntry, deltaStep. rewrite lookup_fmap.
  by destruct (oldSnap !! k) as [oldv|].
Qed.

Lemma deltaSnap_eraseAff oldSnap newSnap :
  deltaSnap (eraseAff <$> oldSnap) (eraseAff <$> newSnap) =
  deltaSnap oldSnap newSnap.
Proof.
  apply map_eq. intros k. rewrite !deltaSnap_lookup, lookup_fmap.
  destruct (newSnap !! k) as [newv|]; [|done]. simpl.
  apply deltaEntry_eraseAff.
Qed.

(** ** The alert loop *)

Lemma bytesRead_exact c d :
  is_u64 (SumRowsExam d * AvgRowRead c) →
  bytesRead c d = SumRowsExam d * AvgRowRead c.
Proof. apply u64_small. Qed.

Lemma bytesWrite_exact c d :
  is_u64 (SumRowsSent d * AvgRowSent c) →
  bytesWrite c d = SumRowsSent d * AvgRowSent c.
Proof. apply u64_small. Qed.

Lemma alertStep_qualifies c d :
  qualifies c d → alertStep c d = [alertOf c d].
Proof.
  intros [Hnz Hthr]. unfold alertStep, alertOf.
  destruct ((bytesRead c d =? 0) && (bytesWrite c d =? 0)) eqn:Hz.
  - apply andb_true_iff in Hz as [H1 H2]. apply Z.eqb_eq in H1, H2. lia.
  - destruct ((bytesRead c d >=? ReadThreshold c)
              || (bytesWrite c d >=? WriteThreshold c)) eqn:Ht; [done|].
    apply orb_false_iff in Ht as [H1 H2].
    rewrite Z.geb_leb in H1, H2. apply Z.leb_gt in H1, H2. lia.
Qed.

Lemma alertStep_not_qualifies c d :
  ¬ qualifies c d → alertStep c d = [].
Proof.
  intros Hnq. unfold alertStep.
  destruct ((bytesRead c d =? 0) && (bytesWrite c d =? 0)) eqn:Hz; [done|].
  destruct ((bytesRead c d >=? ReadThreshold c)
            || (bytesWrite c d >=? WriteThreshold c)) eqn:Ht; [|done].
  exfalso. apply Hnq. split.
  - apply andb_false_iff in Hz as [H|H]; apply Z.eqb_neq in H; tauto.
  - apply orb_true_iff in Ht as [H|H]; rewrite Z.geb_leb in H;
      apply Z.leb_le in H; tauto.
Qed.

Lemma alertLoop_perm c (delta : snapshot) :
  alertLoop c delta ≡ₚ
    (λ kd, alertOf c kd.2) <$>
      map_to_list (filter (λ kd, qualifies c kd.2) delta).
Proof.
  unfold alertLoop.
  induction delta as [|k d m Hk IH] using map_ind.
  - by rewrite map_filter_empty, !map_to_list_empty.
  - rewrite (map_to_list_insert m k d Hk). simpl. rewrite IH.
    destruct (decide (qualifies c d)) as [Hq|Hq].
    + rewrite (alertStep_qualifies _ _ Hq).
      rewrite map_filter_insert_True by done.
      rewrite map_to_list_insert; [done|].
      apply map_lookup_filter_None. by left.
    + rewrite (alertStep_not_qualifies _ _ Hq).
      rewrite map_filter_insert_not'; [done|done|].
      intros y Hy. congruence.
Qed.

(** Every alert of a successful tick carries the normalized text of a row
    of the current snapshot, whatever sample text that row holds. *)
Lemma onTick_alert_text c prev curr o rt wt :
  Alert o rt wt ∈ (onTick c prev (FetchOk curr)).1 →
  ∃ k newv, curr !! k = Some newv ∧ Text o = DigestText newv.
Proof.
  simpl. rewrite alertLoop_perm. intros Hin.
  apply list_elem_of_fmap in Hin as ([k d] & Heq & Hin).
  apply elem_of_map_to_list in Hin.
  apply map_lookup_filter_Some in Hin as [Hd _].
  destruct (deltaSnap_sample_null _ _ _ _ Hd) as (_ & Htext & newv & Hnew & Hdt).
  exists k, newv. split; [done|].
  unfold alertOf in Heq. injection Heq as -> _ _. simpl.
  by rewrite Htext.
Qed.

(** ** Claims about the differ *)

(** C3, as stated, fails: a key that is new in the current snapshot and
    whose three cumulative counters are all zero is kept in the delta
    mapping, with three zero delta counters. *)
Lemma C3_counterexample :
  let newSnap : snapshot :=
    {[ "q1" := mkDigestStat "q1" "SELECT ?" null_string 0 0 0 0 ]} in
  wf_snapshot newSnap ∧
  ∃ d, deltaSnap ∅ newSnap !! "q1" = Some d ∧
       CountStar d = 0 ∧ SumRowsExam d = 0 ∧ SumRowsSent d = 0.
Proof.
  split.
  - apply (bool_decide_unpack _). vm_compute. exact I.
  - eexists. split; [vm_compute; reflexivity|]. done.
Qed.


(** C3 (amended).  Every key of the delta mapping either is absent from the
    old snapshot or has at least one non-zero delta counter among count,
    rows examined and rows sent; a key present in both snapshots whose
    three counters are unchanged is absent from the delta mapping; and a
    key of the new snapshot that is absent from the old one is always kept,
    with the whole current counters, also when the three of them are
    zero. *)
Theorem C3_delta_active_unless_new (oldSnap newSnap : snapshot) (k : string) :
  (∀ d, deltaSnap oldSnap newSnap !! k = Some d →
        oldSnap !! k = None ∨ active d) ∧
  (∀ oldv newv,
      oldSnap !! k = Some oldv → newSnap !! k = Some newv →
      CountStar newv = CountStar oldv →
      SumRowsExam newv = SumRowsExam oldv →
      SumRowsSent newv = SumRowsSent oldv →
      deltaSnap oldSnap newSnap !! k = None) ∧
  (∀ newv,
      oldSnap !! k = None → newSnap !! k = Some newv →
      ∃ d, deltaSnap oldSnap newSnap !! k = Some d ∧
           CountStar d = CountStar newv ∧
           SumRowsExam d = SumRowsExam newv ∧
           SumRowsSent d = SumRowsSent newv).
Proof.
  split; [|split].
  - intros d Hd. apply deltaSnap_Some in Hd as (newv & _ & Hent).
    destruct (oldSnap !! k) as [oldv|] eqn:Hold; [right|by left].
    rewrite (deltaEntry_old _ _ _ _ Hold) in Hent. simpl in Hent.
    destruct (_ && _) eqn:Hz; [done|].
    apply three_zero_false in Hz. injection Hent as <-. exact Hz.
  - intros oldv newv Hold Hnew Hc He Hs.
    rewrite deltaSnap_lookup, Hnew. simpl.
    rewrite (deltaEntry_old _ _ _ _ Hold). simpl.
    rewrite Hc, He, Hs, !clampSub_same. done.
  - intros newv Hold Hnew.
    rewrite deltaSnap_lookup, Hnew. simpl.
    rewrite (deltaEntry_new _ _ _ Hold).
    eexists. split; [reflexivity|]. done.
Qed.


(** The amended C3 at two concrete snapshots: ["q1"] moved and is active,
    ["q2"] did not move and is absent, and ["q3"], which is new and has
    three zero counters, is kept. *)
Lemma C3_delta_active_unless_new_witness :
  let oldSnap : snapshot :=
    <[ "q2" := mkDigestStat "q2" "UPDATE t SET a = ?" null_string 4 40 0 4 ]>
    {[ "q1" := mkDigestStat "q1" "SELECT ?" null_string 7 70 7 0 ]} in
  let newSnap : snapshot :=
    <[ "q3" := mkDigestStat "q3" "DO ?" null_string 0 0 0 0 ]>
    (<[ "q2" := mkDigestStat "q2" "UPDATE t SET a = ?" null_string 4 40 0 4 ]>
     {[ "q1" := mkDigestStat "q1" "SELECT ?" null_string 9 95 8 0 ]}) in
  active (mkDigestStat "q1" "SELECT ?" null_string 2 25 1 0) ∧
  deltaSnap oldSnap newSnap !! "q2" = None ∧
  ∃ d, deltaSnap oldSnap newSnap !! "q3" = Some d ∧
       CountStar d = 0 ∧ SumRowsExam d = 0 ∧ SumRowsSent d = 0.
Proof.
  intros oldSnap newSnap. split; [|split].
  - destruct (C3_delta_active_unless_new oldSnap newSnap "q1") as [H _].
    destruct (H (mkDigestStat "q1" "SELECT ?" null_string 2 25 1 0))
      as [Hnone|Hact].
    + vm_compute. reflexivity.
    + vm_compute in Hnone. discriminate Hnone.
    + exact Hact.
  - destruct (C3_delta_active_unless_new oldSnap newSnap "q2") as (_ & H & _).
    apply (H (mkDigestStat "q2" "UPDATE t SET a = ?" null_string 4 40 0 4)
             (mkDigestStat "q2" "UPDATE t SET a = ?" null_string 4 40 0 4));
      vm_compute; reflexivity.
  - destruct (C3_delta_active_unless_new oldSnap newSnap "q3") as (_ & _ & H).
    apply (H (mkDigestStat "q3" "DO ?" null_string 0 0 0 0));
      vm_compute; reflexivity.
Defined.


(** C4.  For well-formed snapshots (all counters 64-bit): for a key present
    in both, each delta counter is current minus previous when current is
    at least previous and zero when it is smaller, the row being left out
    exactly when the three clamped differences are zero; a key absent from
    the old snapshot carries the whole current counters; and every counter
    of every delta row is non-negative (and still 64-bit). *)
Theorem C4_delta_counters_clamped (oldSnap newSnap : snapshot) :
  wf_snapshot oldSnap → wf_snapshot newSnap →
  (∀ k oldv newv,
      oldSnap !! k = Some oldv → newSnap !! k = Some newv →
      ∃ dCount dRowsExam dRowsSent,
        clamped (CountStar newv) (CountStar oldv) dCount ∧
        clamped (SumRowsExam newv) (SumRowsExam oldv) dRowsExam ∧
        clamped (SumRowsSent newv) (SumRowsSent oldv) dRowsSent ∧
        ((dCount = 0 ∧ dRowsExam = 0 ∧ dRowsSent = 0 ∧
          deltaSnap oldSnap newSnap !! k = None) ∨
         (∃ d, deltaSnap oldSnap newSnap !! k = Some d ∧
               CountStar d = dCount ∧ SumRowsExam d = dRowsExam ∧
               SumRowsSent d = dRowsSent))) ∧
  (∀ k newv,
      oldSnap !! k = None → newSnap !! k = Some newv →
      ∃ d, deltaSnap oldSnap newSnap !! k = Some d ∧
           CountStar d = CountStar newv ∧
           SumRowsExam d = SumRowsExam newv ∧
           SumRowsSent d = SumRowsSent newv) ∧
  (∀ k d, deltaSnap oldSnap newSnap !! k = Some d →
          0 <= CountStar d ∧ 0 <= SumRowsExam d ∧ 0 <= SumRowsSent d ∧
          wf_stat d).
Proof.
  intros Hwfo Hwfn. split; [|split].
  - intros k oldv newv Hold Hnew.
    destruct (Hwfo _ _ Hold) as (Ho1 & Ho2 & Ho3 & _).
    destruct (Hwfn _ _ Hnew) as (Hn1 & Hn2 & Hn3 & _).
    exists (clampSub (CountStar newv) (CountStar oldv)),
           (clampSub (SumRowsExam newv) (SumRowsExam oldv)),
           (clampSub (SumRowsSent newv) (SumRowsSent oldv)).
    split; [by apply clampSub_clamped|].
    split; [by apply clampSub_clamped|].
    split; [by apply clampSub_clamped|].
    rewrite deltaSnap_lookup, Hnew. simpl.
    rewrite (deltaEntry_old _ _ _ _ Hold). simpl.
    destruct (_ && _) eqn:Hz.
    + left. apply three_zero_true in Hz. tauto.
    + right. eexists. split; [reflexivity|]. done.
  - intros k newv Hold Hnew.
    rewrite deltaSnap_lookup, Hnew. simpl.
    rewrite (deltaEntry_new _ _ _ Hold). eexists. split; [reflexivity|]. done.
  - intros k d Hd. apply deltaSnap_Some in Hd as (newv & Hnew & Hent).
    assert (wf_stat d) as Hwf.
    { destruct (Hwfn _ _ Hnew) as (Hn1 & Hn2 & Hn3 & _).
      destruct (oldSnap !! k) as [oldv|] eqn:Hold.
      - rewrite (deltaEntry_old _ _ _ _ Hold) in Hent. simpl in Hent.
        destruct (_ && _); [done|]. injection Hent as <-.
        repeat split; simpl; try apply clampSub_range;
          unfold u64_mod; lia.
      - rewrite (deltaEntry_new _ _ _ Hold) in Hent. injection Hent as <-.
        repeat split; simpl; try apply Hn1; try apply Hn2; try apply Hn3;
          unfold u64_mod; lia. }
    destruct Hwf as (H1 & H2 & H3 & H4).
    repeat split; try apply H1; try apply H2; try apply H3; try apply H4.
Qed.

(** C4 at concrete snapshots: ["q1"] is in both, its count went from 7 to 9,
    its rows examined fell from 70 to 20 (a counter reset) and its rows
    sent did not move; ["q3"] is new with counters (3, 500, 10). *)
Lemma C4_delta_counters_clamped_witness :
  let oldSnap : snapshot :=
    {[ "q1" := mkDigestStat "q1" "SELECT ?" null_string 7 70 7 0 ]} in
  let newSnap : snapshot :=
    <[ "q3" := mkDigestStat "q3" "DELETE FROM t" null_string 3 500 10 3 ]>
    {[ "q1" := mkDigestStat "q1" "SELECT ?" null_string 9 20 7 0 ]} in
  (∃ d, deltaSnap oldSnap newSnap !! "q3" = Some d ∧
        CountStar d = 3 ∧ SumRowsExam d = 500 ∧ SumRowsSent d = 10) ∧
  (∀ k d, deltaSnap oldSnap newSnap !! k = Some d →
          0 <= CountStar d ∧ 0 <= SumRowsExam d ∧ 0 <= SumRowsSent d ∧
          wf_stat d) ∧
  (∃ dCount dRowsExam dRowsSent,
      clamped 9 7 dCount ∧ clamped 20 70 dRowsExam ∧ clamped 7 7 dRowsSent ∧
      ((dCount = 0 ∧ dRowsExam = 0 ∧ dRowsSent = 0 ∧
        deltaSnap oldSnap newSnap !! "q1" = None) ∨
       (∃ d, deltaSnap oldSnap newSnap !! "q1" = Some d ∧
             CountStar d = dCount ∧ SumRowsExam d = dRowsExam ∧
             SumRowsSent d = dRowsSent))).
Proof.
  intros oldSnap newSnap.
  assert (wf_snapshot oldSnap) as Hwfo
    by (apply (bool_decide_unpack _); vm_compute; exact I).
  assert (wf_snapshot newSnap) as Hwfn
    by (apply (bool_decide_unpack _); vm_compute; exact I).
  destruct (C4_delta_counters_clamped oldSnap newSnap Hwfo Hwfn)
    as (Hboth & Hnew & Hpos).
  split; [|split].
  - apply (Hnew "q3" (mkDigestStat "q3" "DELETE FROM t" null_string 3 500 10 3));
      vm_compute; reflexivity.
  - exact Hpos.
  - apply (Hboth "q1" (mkDigestStat "q1" "SELECT ?" null_string 7 70 7 0)
                      (mkDigestStat "q1" "SELECT ?" null_string 9 20 7 0));
      vm_compute; reflexivity.
Defined.

(** C10.  The rows-affected counter of the snapshot rows never reaches an
    output: every delta row has a zero rows-affected field, and two pairs
    of snapshots that agree once their rows-affected counters are erased
    give the same delta mapping and the same sequence of alert calls. *)
Theorem C10_rows_affected_ignored (c : Config)
    (old1 new1 old2 new2 : snapshot) :
  eraseAff <$> old1 = eraseAff <$> old2 →
  eraseAff <$> new1 = eraseAff <$> new2 →
  deltaSnap old1 new1 = deltaSnap old2 new2 ∧
  alertLoop c (deltaSnap old1 new1) = alertLoop c (deltaSnap old2 new2) ∧
  (onTick c old1 (FetchOk new1)).1 = (onTick c old2 (FetchOk new2)).1 ∧
  (∀ k d, deltaSnap old1 new1 !! k = Some d → SumRowsAff d = 0).
Proof.
  intros Hold Hnew.
  assert (deltaSnap old1 new1 = deltaSnap old2 new2) as Heq.
  { rewrite <- (deltaSnap_eraseAff old1 new1), Hold, Hnew.
    apply deltaSnap_eraseAff. }
  split; [done|]. split; [by rewrite Heq|]. split; [simpl; by rewrite Heq|].
  intros k d Hd. apply deltaSnap_Some in Hd as (newv & _ & Hent).
  destruct (old1 !! k) as [oldv|] eqn:Ho.
  - rewrite (deltaEntry_old _ _ _ _ Ho) in Hent. simpl in Hent.
    destruct (_ && _); [done|]. by injection Hent as <-.
  - rewrite (deltaEntry_new _ _ _ Ho) in Hent. by injection Hent as <-.
Qed.

(** C10 at two snapshot pairs that differ in the rows-affected counters
    only (4 and 9 against 1000 and 0). *)
Lemma C10_rows_affected_ignored_witness :
  let c := mkConfig 1048576 1048576 200 200 in
  let old1 : snapshot :=
    {[ "q1" := mkDigestStat "q1" "UPDATE t SET a = ?" null_string 1 10 0 4 ]} in
  let new1 : snapshot :=
    {[ "q1" := mkDigestStat "q1" "UPDATE t SET a = ?" null_string 2 9000 0 9 ]} in
  let old2 : snapshot :=
    {[ "q1" := mkDigestStat "q1" "UPDATE t SET a = ?" null_string 1 10 0 1000 ]} in
  let new2 : snapshot :=
    {[ "q1" := mkDigestStat "q1" "UPDATE t SET a = ?" null_string 2 9000 0 0 ]} in
  old1 ≠ old2 ∧ new1 ≠ new2 ∧
  deltaSnap old1 new1 = deltaSnap old2 new2 ∧
  alertLoop c (deltaSnap old1 new1) = alertLoop c (deltaSnap old2 new2).
Proof.
  intros c old1 new1 old2 new2.
  split; [|split].
  - intros Heq. apply (f_equal (λ m : snapshot, SumRowsAff <$> m !! "q1")) in Heq.
    vm_compute in Heq. discriminate Heq.
  - intros Heq. apply (f_equal (λ m : snapshot, SumRowsAff <$> m !! "q1")) in Heq.
    vm_compute in Heq. discriminate Heq.
  - destruct (C10_rows_affected_ignored c old1 new1 old2 new2)
      as (H1 & H2 & _).
    + vm_compute. reflexivity.
    + vm_compute. reflexivity.
    + split; [exact H1 | exact H2].
Defined.

(** ** Claims about the monitor *)

(** C1 fails on the code.  The current snapshot holds a captured sample
    text for the offending digest, yet the [Alert] call of the tick carries
    the normalized text: [deltaSnap] builds its rows without [QuerySample],
    so the test [d.QuerySample.Valid] in the loop of [Run] is never true. *)
Theorem C1_sample_text_lost :
  let c := mkConfig 1048576 1048576 200 200 in
  let prev : snapshot := ∅ in
  let curr : snapshot :=
    {[ "q1" := mkDigestStat "q1" "SELECT * FROM t WHERE id = ?"
                 (mkNullString "SELECT * FROM t WHERE id = 42" true)
                 1 5900 0 0 ]} in
  (onTick c prev (FetchOk curr)).1 =
    [Alert (mkOffender "q1" "SELECT * FROM t WHERE id = ?" 1180000 0 5900 0 1)
           1048576 1048576] ∧
  displayText (mkDigestStat "q1" "SELECT * FROM t WHERE id = ?"
                 (mkNullString "SELECT * FROM t WHERE id = 42" true)
                 1 5900 0 0) = "SELECT * FROM t WHERE id = 42".
Proof. split; vm_compute; reflexivity. Qed.

(** C2, as stated, fails: with both thresholds zero, a delta row whose two
    byte estimates are zero reaches both thresholds, and no alert is issued
    for it, because the loop skips rows with [br == 0 && bw == 0] before
    it compares with the thresholds. *)
Lemma C2_counterexample :
  let c := mkConfig 0 0 200 200 in
  let prev : snapshot := ∅ in
  let curr : snapshot :=
    {[ "q1" := mkDigestStat "q1" "COMMIT" null_string 1 0 0 0 ]} in
  wf_config c ∧ wf_snapshot curr ∧
  ∃ d, deltaSnap prev curr !! "q1" = Some d ∧
       (ReadThreshold c <= bytesRead c d ∨ WriteThreshold c <= bytesWrite c d) ∧
       alertLoop c (deltaSnap prev curr) = [].
Proof.
  split; [apply (bool_decide_unpack _); vm_compute; exact I|].
  split; [apply (bool_decide_unpack _); vm_compute; exact I|].
  eexists. split; [vm_compute; reflexivity|].
  split; [left; vm_compute; discriminate|].
  vm_compute. reflexivity.
Qed.

(** C2 (amended).  With the byte estimates computed as 64-bit products, an
    alert is issued for a delta row if and only if at least one estimate is
    not zero and (estimated bytes read >= read threshold or estimated bytes
    written >= write threshold); a qualifying row gets exactly one [Alert]
    call, whose offender has all seven fields filled from the row and the
    estimates, and the calls of a tick are, up to order, one per qualifying
    row of the delta mapping.  With 5900 rows examined at 200 bytes a row
    (1,180,000 bytes) and a read threshold of 1,048,576 the alert is issued
    although the write estimate is zero and below the write threshold. *)
Theorem C2_alert_iff_nonzero_and_thresholds (c : Config) (delta : snapshot) :
  (∀ d,
      (qualifies c d →
       alertStep c d =
         [Alert (mkOffender (Digest d) (displayText d)
                            (bytesRead c d) (bytesWrite c d)
                            (SumRowsExam d) (SumRowsSent d) (CountStar d))
                (ReadThreshold c) (WriteThreshold c)]) ∧
      (¬ qualifies c d → alertStep c d = [])) ∧
  alertLoop c delta ≡ₚ
    (λ kd, alertOf c kd.2) <$>
      map_to_list (filter (λ kd, qualifies c kd.2) delta) ∧
  (∀ d writeThreshold avgSent,
      SumRowsExam d = 5900 → SumRowsSent d = 0 → 0 < writeThreshold →
      let c' := mkConfig 1048576 writeThreshold 200 avgSent in
      bytesRead c' d = 1180000 ∧ bytesWrite c' d = 0 ∧
      bytesWrite c' d < writeThreshold ∧
      alertStep c' d = [alertOf c' d]).
Proof.
  split; [|split].
  - intros d. split.
    + apply alertStep_qualifies.
    + apply alertStep_not_qualifies.
  - apply alertLoop_perm.
  - intros d wt avgSent Hexam Hsent Hwt c'.
    assert (bytesRead c' d = 1180000) as Hbr.
    { unfold bytesRead. rewrite Hexam. reflexivity. }
    assert (bytesWrite c' d = 0) as Hbw.
    { unfold bytesWrite. rewrite Hsent. reflexivity. }
    split; [done|]. split; [done|]. split; [lia|].
    apply alertStep_qualifies. split.
    + left. lia.
    + left. rewrite Hbr. simpl. lia.
Qed.

(** The amended C2 on one tick: of two delta rows only the one above the
    read threshold is reported, once. *)
Lemma C2_alert_iff_nonzero_and_thresholds_witness :
  let c := mkConfig 1048576 1048576 200 200 in
  let hot := mkDigestStat "q1" "SELECT * FROM big" null_string 1 5900 0 0 in
  let cold := mkDigestStat "q2" "SELECT ?" null_string 1 1 1 0 in
  alertStep c hot =
    [Alert (mkOffender "q1" "SELECT * FROM big" 1180000 0 5900 0 1)
           1048576 1048576] ∧
  alertStep c cold = [] ∧
  alertStep (mkConfig 1048576 1 200 200) hot =
    [alertOf (mkConfig 1048576 1 200 200) hot].
Proof.
  intros c hot cold.
  destruct (C2_alert_iff_nonzero_and_thresholds c ∅) as (Hstep & _ & Hex).
  split; [|split].
  - apply (Hstep hot). split; [left|left]; vm_compute; discriminate.
  - apply (Hstep cold). intros [_ [H|H]]; vm_compute in H; by apply H.
  - apply (Hex hot 1 200); [reflexivity|reflexivity|lia].
Defined.

(** C9.  A tick whose snapshot fetch fails only logs the failure: it
    leaves [prev] as it was, issues no [Alert], and the loop goes on with
    the remaining events from the same [prev]; a tick whose fetch succeeds
    issues the alerts of the delta against [prev] and replaces [prev] by
    the snapshot it fetched. *)
Theorem C9_failed_fetch_keeps_prev (c : Config) (prev : snapshot)
    (err : string) (rest : list event) :
  onTick c prev (FetchErr err) = ([LogError "fetch snapshot"], prev) ∧
  (∀ o rt wt, Alert o rt wt ∉ (onTick c prev (FetchErr err)).1) ∧
  runLoop c prev (Tick (FetchErr err) :: rest) =
    (LogError "fetch snapshot" :: (runLoop c prev rest).1.1,
     (runLoop c prev rest).1.2, (runLoop c prev rest).2) ∧
  (∀ curr,
      onTick c prev (FetchOk curr) = (alertLoop c (deltaSnap prev curr), curr) ∧
      runLoop c prev (Tick (FetchOk curr) :: rest) =
        (alertLoop c (deltaSnap prev curr) ++ (runLoop c curr rest).1.1,
         (runLoop c curr rest).1.2, (runLoop c curr rest).2) ∧
      runLoop c prev (Tick (FetchErr err) :: Tick (FetchOk curr) :: rest) =
        (LogError "fetch snapshot" ::
           alertLoop c (deltaSnap prev curr) ++ (runLoop c curr rest).1.1,
         (runLoop c curr rest).1.2, (runLoop c curr rest).2)).
Proof.
  split; [done|]. split.
  { intros o rt wt Hin. simpl in Hin.
    apply list_elem_of_singleton in Hin. discriminate Hin. }
  split.
  { simpl. by destruct (runLoop c prev rest) as [[es final] stopped]. }
  intros curr. split; [done|]. split.
  - simpl. by destruct (runLoop c curr rest) as [[es final] stopped].
  - simpl. by destruct (runLoop c curr rest) as [[es final] stopped].
Qed.

(** ** The log ring *)

Lemma u64_add_sub a b :
  u64 (u64 (a + 1) - b) = u64 (u64 (a - b) + 1).
Proof.
  unfold u64. rewrite Zminus_mod_idemp_l, Zplus_mod_idemp_l.
  f_equal. lia.
Qed.

Lemma u64_sub_add a b :
  u64 (a - u64 (b + 1)) = u64 (u64 (a - b) - 1).
Proof.
  unfold u64. rewrite Zminus_mod_idemp_r, Zminus_mod_idemp_l.
  f_equal. lia.
Qed.

Lemma sliceFrom_Some {A} (l : list A) i :
  0 <= i <= Z.of_nat (length l) → sliceFrom l i = Some (drop (Z.to_nat i) l).
Proof.
  intros [H0 Hlen]. unfold sliceFrom.
  destruct (Z.leb_spec 0 i); [|lia].
  destruct (Z.leb_spec i (Z.of_nat (length l))); [done|lia].
Qed.

(** [Append] on a ring of positive capacity: it returns, keeps the
    invariant, evicts exactly when the ring is full, and bumps [next]. *)
Lemma Append_spec s r :
  ring_inv r → 1 <= cap r →
  ∃ r', Append s r = Some r' ∧ ring_inv r' ∧ cap r' = cap r ∧
        next r' = u64 (next r + 1) ∧
        (Z.of_nat (length (data r)) = cap r →
           base r' = u64 (base r + 1) ∧ data r' = drop 1 (data r) ++ [s]) ∧
        (Z.of_nat (length (data r)) ≠ cap r →
           base r' = base r ∧ data r' = data r ++ [s]).
Proof.
  intros (Hb & Hn & Hlen & Hcap & Hint) Hpos. unfold Append.
  destruct (Z.eqb_spec (Z.of_nat (length (data r))) (cap r)) as [Hfull|Hroom].
  - rewrite sliceFrom_Some by lia. simpl.
    eexists. split; [reflexivity|]. simpl.
    split; [|split; [done|split; [done|split; [done|intros ?; lia]]]].
    unfold ring_inv; simpl.
    rewrite length_app, length_drop. simpl.
    split; [apply u64_range|]. split; [apply u64_range|].
    split; [|lia].
    rewrite u64_add_sub, u64_sub_add, Hlen.
    rewrite (u64_small (_ - 1)) by (unfold is_u64, u64_mod; lia).
    rewrite u64_small by (unfold is_u64, u64_mod; lia). lia.
  - simpl. eexists. split; [reflexivity|]. simpl.
    split; [|split; [done|split; [done|split; [intros ?; lia|done]]]].
    unfold ring_inv; simpl. rewrite length_app. simpl.
    split; [done|]. split; [apply u64_range|].
    split; [|lia].
    rewrite u64_add_sub, Hlen.
    rewrite u64_small by (unfold is_u64, u64_mod; lia). lia.
Qed.

(** [GetFrom] never panics: the start index it slices at is always within
    the bounds of [data]. *)
Lemma GetFrom_total seq r : is_Some (GetFrom seq r).
Proof.
  unfold GetFrom.
  destruct (_ >? _); [by eexists|].
  set (len := Z.of_nat (length (data r))).
  set (i := int_of_u64 _).
  destruct ((i <? 0) || (i >? len)) eqn:Hi.
  - rewrite sliceFrom_Some by lia. by eexists.
  - apply orb_false_iff in Hi as [H1 H2].
    apply Z.ltb_ge in H1. rewrite Z.gtb_ltb in H2. apply Z.ltb_ge in H2.
    rewrite sliceFrom_Some by (unfold len in *; lia). by eexists.
Qed.

Lemma ringStep_inv op r :
  ring_inv r → 1 <= cap r →
  ∃ r', ringStep op r = Some r' ∧ ring_inv r' ∧ cap r' = cap r.
Proof.
  intros Hinv Hpos. destruct op as [s|seq|]; simpl.
  - destruct (Append_spec s r Hinv Hpos) as (r' & -> & Hinv' & Hcap & _).
    eauto.
  - destruct (GetFrom_total seq r) as [res ->]. simpl. eauto.
  - eauto.
Qed.

Lemma ringRun_inv ops r :
  ring_inv r → 1 <= cap r →
  ∃ r', ringRun ops r = Some r' ∧ ring_inv r' ∧ cap r' = cap r.
Proof.
  revert r. induction ops as [|op ops IH]; intros r Hinv Hpos; simpl.
  - eauto.
  - destruct (ringStep_inv op r Hinv Hpos) as (r1 & -> & Hinv1 & Hcap1).
    simpl. destruct (IH r1 Hinv1) as (r' & Hrun & Hinv' & Hcap'); [lia|].
    exists r'. split; [done|]. split; [done|]. lia.
Qed.

Lemma newLogRing_inv capacity :
  0 <= capacity < 2 ^ 63 →
  ∃ r, newLogRing capacity = Some r ∧ ring_inv r ∧ cap r = capacity.
Proof.
  intros [H0 H1]. unfold newLogRing.
  destruct (Z.ltb_spec capacity 0); [lia|].
  eexists. split; [reflexivity|]. split; [|done].
  unfold ring_inv; simpl. change (0 - 0) with 0.
  rewrite (u64_small 0) by (unfold is_u64, u64_mod; lia).
  unfold is_u64, u64_mod. lia.
Qed.

(** The lines of [l], numbered from [b], whose number is at least [seq]
    are the lines of [l] from position [seq - b] on. *)
Lemma numbered_from_drop (b seq : Z) (l : list string) :
  (filter (λ p : Z * string, seq <= p.1)
          (imap (λ i s, (b + Z.of_nat i, s)) l)).*2 =
  drop (Z.to_nat (seq - b)) l.
Proof.
  revert b. induction l as [|x l IH]; intros b.
  - by rewrite drop_nil.
  - rewrite imap_cons.
    rewrite (imap_ext _ (λ i s, (b + 1 + Z.of_nat i, s)))
      by (intros i y _; simpl; f_equal; lia).
    rewrite filter_cons. simpl. case_decide as Hle.
    + replace (Z.to_nat (seq - b)) with 0%nat by lia.
      rewrite drop_0, fmap_cons, IH. simpl.
      replace (Z.to_nat (seq - (b + 1))) with 0%nat by lia.
      by rewrite drop_0.
    + rewrite IH.
      replace (Z.to_nat (seq - b)) with (S (Z.to_nat (seq - (b + 1))))
        by lia.
      done.
Qed.

Lemma ring_inv_length r :
  ring_inv r → base r <= next r →
  next r - base r = Z.of_nat (length (data r)).
Proof.
  intros (Hb & Hn & Hlen & _) Hle. rewrite <- Hlen.
  symmetry. apply u64_small. unfold is_u64 in *. lia.
Qed.

Lemma GetFrom_drop seq r :
  ring_inv r → base r <= next r →
  GetFrom seq r = Some (drop (Z.to_nat (seq - base r)) (data r), next r).
Proof.
  intros Hinv Hle. pose proof (ring_inv_length r Hinv Hle) as Hlen.
  destruct Hinv as (Hb & Hn & _ & Hcap & Hint).
  unfold GetFrom.
  set (seq' := if seq <? base r then base r else seq).
  assert (seq' = Z.max seq (base r)) as Hseq'.
  { unfold seq'. destruct (Z.ltb_spec seq (base r)); lia. }
  destruct (Z.gtb_spec seq' (next r)) as [Hgt|Hngt].
  - rewrite drop_ge by lia. done.
  - assert (u64 (seq' - base r) = seq' - base r) as ->.
    { apply u64_small. unfold is_u64, u64_mod in *. lia. }
    assert (int_of_u64 (seq' - base r) = seq' - base r) as ->.
    { unfold int_of_u64. destruct (Z.ltb_spec (seq' - base r) (2 ^ 63)); lia. }
    destruct (Z.ltb_spec (seq' - base r) 0); [lia|].
    destruct (Z.gtb_spec (seq' - base r) (Z.of_nat (length (data r)))); [lia|].
    simpl. rewrite sliceFrom_Some by lia. simpl.
    do 3 f_equal. lia.
Qed.

Lemma Append_no_wrap s r r' :
  ring_inv r → 1 <= cap r → base r <= next r → next r + 1 < u64_mod →
  Append s r = Some r' →
  base r' <= next r' ∧ next r' = next r + 1.
Proof.
  intros Hinv Hpos Hle Hsmall Happ.
  pose proof (ring_inv_length r Hinv Hle) as Hlen.
  destruct (Append_spec s r Hinv Hpos)
    as (r1 & Hr1 & _ & _ & Hnext & Hfull & Hroom).
  rewrite Happ in Hr1. injection Hr1 as <-.
  destruct Hinv as (Hb & Hn & _ & Hcap & Hint).
  assert (next r' = next r + 1) as Hn'.
  { rewrite Hnext. apply u64_small. unfold is_u64 in *. lia. }
  split; [|done]. rewrite Hn'.
  destruct (decide (Z.of_nat (length (data r)) = cap r)) as [Heq|Hne].
  - destruct (Hfull Heq) as [-> _].
    rewrite u64_small by (unfold is_u64 in *; lia). lia.
  - destruct (Hroom Hne) as [-> _]. lia.
Qed.

(** C5, as stated, fails at capacity zero: the empty ring of capacity 0
    satisfies [next - base <= C] and holds C lines, and [Append] panics on
    it, because it evicts with [r.data = r.data[1:]] when [data] is empty. *)
Lemma C5_counterexample :
  ∃ r, newLogRing 0 = Some r ∧ ring_inv r ∧
       next r - base r <= cap r ∧
       Z.of_nat (length (data r)) = next r - base r ∧
       Append "A" r = None.
Proof.
  eexists. split; [reflexivity|].
  split; [|split; [|split]]; [|done|done|done].
  unfold ring_inv, is_u64, u64_mod; simpl. repeat split; try lia; done.
Qed.

(** C5 (amended).  For a ring of capacity at least one whose state
    satisfies the invariant (the retained lines number [next - base] in
    64-bit arithmetic and at most C): [Append] never fails; on a ring
    holding C lines it evicts the oldest line, advancing [base] by one,
    and then appends the new line, otherwise it only appends; it always
    advances [next] by one (64-bit); and [Append], [GetFrom] and [Head],
    alone or in any sequence, preserve the invariant. *)
Theorem C5_ring_invariant_preserved (r : logRing) :
  ring_inv r → 1 <= cap r →
  u64 (next r - base r) <= cap r ∧
  (∀ s, ∃ r',
      Append s r = Some r' ∧ ring_inv r' ∧ cap r' = cap r ∧
      next r' = u64 (next r + 1) ∧
      (Z.of_nat (length (data r)) = cap r →
         base r' = u64 (base r + 1) ∧ data r' = drop 1 (data r) ++ [s]) ∧
      (Z.of_nat (length (data r)) ≠ cap r →
         base r' = base r ∧ data r' = data r ++ [s]) ∧
      (base r <= next r → next r + 1 < u64_mod →
         base r' <= next r' ∧ next r' = next r + 1 ∧
         next r' - base r' <= cap r')) ∧
  (∀ ops, ∃ r', ringRun ops r = Some r' ∧ ring_inv r' ∧ cap r' = cap r).
Proof.
  intros Hinv Hpos. split; [|split].
  - destruct Hinv as (_ & _ & -> & Hcap & _). done.
  - intros s.
    destruct (Append_spec s r Hinv Hpos)
      as (r' & Happ & Hinv' & Hcap' & Hnext & Hfull & Hroom).
    exists r'. repeat (split; [done|]).
    intros Hle Hsmall.
    destruct (Append_no_wrap s r r' Hinv Hpos Hle Hsmall Happ) as [Hle' Hn'].
    split; [done|]. split; [done|].
    rewrite (ring_inv_length r' Hinv' Hle').
    destruct Hinv' as (_ & _ & _ & Hc & _). done.
  - intros ops. by apply ringRun_inv.
Qed.

(** The amended C5 on the ring of capacity 3 holding A, B, C: appending D
    evicts A. *)
Lemma C5_ring_invariant_preserved_witness :
  let r := mkLogRing 3 ["A"; "B"; "C"] 0 3 in
  ∃ r', Append "D" r = Some r' ∧ ring_inv r' ∧
        base r' = 1 ∧ next r' = 4 ∧ data r' = ["B"; "C"; "D"].
Proof.
  intros r.
  assert (ring_inv r) as Hinv.
  { unfold ring_inv, is_u64, u64_mod; simpl. repeat split; try lia; done. }
  assert (1 <= cap r) as Hpos by (simpl; lia).
  destruct (C5_ring_invariant_preserved r Hinv Hpos) as (_ & Happ & _).
  destruct (Happ "D") as (r' & Hr' & Hinv' & _ & Hnext & Hfull & _).
  exists r'. split; [done|]. split; [done|].
  destruct (Hfull eq_refl) as [Hb Hd].
  split; [by rewrite Hb|]. split; [by rewrite Hnext|]. by rewrite Hd.
Defined.

(** C6.  On a ring satisfying the invariant whose counters have not
    wrapped, [GetFrom seq] returns, without failing, the retained lines
    whose sequence number is at least [seq], in order, together with
    [next]; a [seq] below [base] is clamped up to [base], so the call
    returns all retained lines like [GetFrom base].  With capacity 3 and
    appends A, B, C, D the ring has [base = 1], lines B, C, D and
    [next = 4]; [GetFrom 0] returns B, C, D and [GetFrom 2] returns C, D. *)
Theorem C6_GetFrom_retained_suffix (r : logRing) (seq : Z) :
  ring_inv r → base r <= next r →
  GetFrom seq r = Some (linesFrom_spec seq r, next r) ∧
  (seq < base r →
     GetFrom seq r = GetFrom (base r) r ∧ linesFrom_spec seq r = data r) ∧
  (∃ r4,
      (r0 ← newLogRing 3;
       ringRun [OpAppend "A"; OpAppend "B"; OpAppend "C"; OpAppend "D"] r0)
        = Some r4 ∧
      base r4 = 1 ∧ data r4 = ["B"; "C"; "D"] ∧ next r4 = 4 ∧
      GetFrom 0 r4 = Some (["B"; "C"; "D"], 4) ∧
      GetFrom 2 r4 = Some (["C"; "D"], 4)).
Proof.
  intros Hinv Hle.
  assert (linesFrom_spec seq r = drop (Z.to_nat (seq - base r)) (data r))
    as Hspec by apply numbered_from_drop.
  split; [|split].
  - rewrite Hspec. by apply GetFrom_drop.
  - intros Hlt. rewrite Hspec, !GetFrom_drop by done.
    replace (Z.to_nat (seq - base r)) with 0%nat by lia.
    replace (Z.to_nat (base r - base r)) with 0%nat by lia.
    by rewrite drop_0.
  - eexists. split; [vm_compute; reflexivity|].
    repeat split; vm_compute; reflexivity.
Qed.

(** C6 on the ring of the example, read from cursor 3 and from the stale
    cursor 0. *)
Lemma C6_GetFrom_retained_suffix_witness :
  let r := mkLogRing 3 ["B"; "C"; "D"] 1 4 in
  GetFrom 3 r = Some (["D"], 4) ∧
  GetFrom 0 r = GetFrom 1 r ∧
  GetFrom 0 r = Some (["B"; "C"; "D"], 4).
Proof.
  intros r.
  assert (ring_inv r) as Hinv.
  { unfold ring_inv, is_u64, u64_mod; simpl. repeat split; try lia; done. }
  assert (base r <= next r) as Hle by (simpl; lia).
  split; [|split].
  - destruct (C6_GetFrom_retained_suffix r 3 Hinv Hle) as (H & _).
    rewrite H. reflexivity.
  - destruct (C6_GetFrom_retained_suffix r 0 Hinv Hle) as (_ & H & _).
    apply H. simpl. lia.
  - destruct (C6_GetFrom_retained_suffix r 0 Hinv Hle) as (H & _).
    rewrite H. reflexivity.
Defined.

(** ** The broadcaster *)

(** Membership goals over the registry after a subscribe or unsubscribe. *)
Ltac registry_mem :=
  rewrite ?elem_of_union, ?elem_of_difference, ?elem_of_singleton in *;
  tauto.

Lemma bc_inv_lookup b ch :
  bc_inv b → ch ∈ subs b → ∃ c, chans b !! ch = Some c ∧ closed c = false.
Proof.
  intros Hinv Hin. specialize (Hinv ch Hin). simpl in Hinv.
  destruct (chans b !! ch) as [c|]; [|done].
  exists c. split; [done|]. by injection Hinv.
Qed.

Lemma bc_inv_intro b :
  (∀ ch, ch ∈ subs b → ∃ c, chans b !! ch = Some c ∧ closed c = false) →
  bc_inv b.
Proof.
  intros H ch Hin. destruct (H ch Hin) as (c & -> & Hopen).
  simpl. by rewrite Hopen.
Qed.

Lemma trySend_open message ch h c :
  h !! ch = Some c → closed c = false →
  ∃ h', trySend message ch h = Some h' ∧
        h' !! ch = Some (deliver message c) ∧
        ∀ ch', ch' ≠ ch → h' !! ch' = h !! ch'.
Proof.
  intros Hch Hopen. unfold trySend, deliver. rewrite Hch, Hopen.
  destruct (_ <? _).
  - eexists. split; [reflexivity|]. split.
    + apply lookup_insert_eq.
    + intros ch' Hne. by apply lookup_insert_ne.
  - eexists. split; [reflexivity|]. split; [done|done].
Qed.

Lemma deliver_open message c : closed c = false → closed (deliver message c) = false.
Proof. intros H. unfold deliver. by destruct (_ <? _). Qed.

(** The loop of [Broadcast] over a duplicate-free list of open channels:
    each of them gets one delivery attempt, every other channel is left
    alone. *)
Lemma sendAll_spec message l h :
  NoDup l →
  (∀ ch, ch ∈ l → ∃ c, h !! ch = Some c ∧ closed c = false) →
  ∃ h', sendAll message l h = Some h' ∧
        ∀ ch, h' !! ch =
              if decide (ch ∈ l) then deliver message <$> h !! ch
              else h !! ch.
Proof.
  revert h. induction l as [|ch0 l IH]; intros h Hnd Hopen; cbn [sendAll].
  - exists h. split; [done|]. intros ch.
    by rewrite decide_False by apply not_elem_of_nil.
  - apply NoDup_cons in Hnd as [Hnotin Hnd].
    destruct (Hopen ch0) as (c0 & Hc0 & Hopen0); [apply elem_of_cons; by left|].
    destruct (trySend_open message ch0 h c0 Hc0 Hopen0)
      as (h1 & -> & Hsame & Hother).
    cbn [mbind option_bind]. destruct (IH h1 Hnd) as (h' & -> & Hh').
    { intros ch Hin. rewrite Hother by (intros ->; done).
      apply Hopen. apply elem_of_cons. by right. }
    exists h'. split; [done|]. intros ch. rewrite Hh'.
    destruct (decide (ch = ch0)) as [->|Hne].
    + rewrite decide_False by done.
      rewrite decide_True by (apply elem_of_cons; by left).
      by rewrite Hsame, Hc0.
    + rewrite Hother by done.
      destruct (decide (ch ∈ l)).
      * rewrite decide_True; [done|]. apply elem_of_cons. by right.
      * rewrite decide_False; [done|]. rewrite elem_of_cons. tauto.
Qed.

Lemma Broadcast_spec message b :
  bc_inv b →
  ∃ b', Broadcast message b = Some b' ∧ subs b' = subs b ∧ bc_inv b' ∧
        ∀ ch, chans b' !! ch =
              if decide (ch ∈ subs b) then deliver message <$> chans b !! ch
              else chans b !! ch.
Proof.
  intros Hinv. unfold Broadcast.
  destruct (sendAll_spec message (elements (subs b)) (chans b))
    as (h' & -> & Hh').
  - apply NoDup_elements.
  - intros ch Hin. apply bc_inv_lookup; [done|]. by apply elem_of_elements.
  - simpl. eexists. split; [reflexivity|]. simpl. split; [done|].
    assert (∀ ch, chans {| chans := h'; subs := subs b |} !! ch =
              if decide (ch ∈ subs b) then deliver message <$> chans b !! ch
              else chans b !! ch) as Hlook.
    { intros ch. simpl. rewrite Hh'.
      destruct (decide (ch ∈ subs b)).
      - by rewrite decide_True by (by apply elem_of_elements).
      - rewrite decide_False; [done|]. by rewrite elem_of_elements. }
    split; [|exact Hlook].
    apply bc_inv_intro. intros ch Hin. simpl in Hin.
    rewrite Hlook, decide_True by done.
    destruct (bc_inv_lookup b ch Hinv Hin) as (c & -> & Hopen). simpl.
    eexists. split; [reflexivity|]. by apply deliver_open.
Qed.

Lemma Subscribe_spec b :
  bc_inv b →
  bc_inv (Subscribe b).2 ∧
  (Subscribe b).1 ∈ subs (Subscribe b).2 ∧
  ((Subscribe b).1 ∉ dom (chans b)) ∧
  chans (Subscribe b).2 !! (Subscribe b).1 = Some (mkChan [] false) ∧
  (∀ ch, ch ≠ (Subscribe b).1 →
         chans (Subscribe b).2 !! ch = chans b !! ch) ∧
  subs (Subscribe b).2 = {[(Subscribe b).1]} ∪ subs b.
Proof.
  intros Hinv. unfold Subscribe. simpl.
  set (ch0 := fresh (dom (chans b))).
  assert (ch0 ∉ dom (chans b)) as Hfresh by apply is_fresh.
  split; [|split; [registry_mem|split; [done|split; [|split; [|done]]]]].
  - apply bc_inv_intro. simpl. intros ch Hin.
    destruct (decide (ch = ch0)) as [->|Hne].
    + rewrite lookup_insert_eq. by eexists.
    + rewrite lookup_insert_ne by done.
      apply bc_inv_lookup; [done|]. registry_mem.
  - apply lookup_insert_eq.
  - intros ch Hne. by apply lookup_insert_ne.
Qed.

Lemma unsubscribe_notin ch b : ch ∉ subs b → unsubscribe ch b = Some b.
Proof. intros Hnotin. unfold unsubscribe. by rewrite decide_False. Qed.

Lemma unsubscribe_in ch b :
  bc_inv b → ch ∈ subs b →
  ∃ b1 c, unsubscribe ch b = Some b1 ∧
          chans b !! ch = Some c ∧
          subs b1 = subs b ∖ {[ch]} ∧
          chans b1 = <[ch := mkChan (buf c) true]> (chans b) ∧
          bc_inv b1 ∧ released ch b1.
Proof.
  intros Hinv Hin.
  destruct (bc_inv_lookup b ch Hinv Hin) as (c & Hc & Hopen).
  unfold unsubscribe, closeChan. rewrite decide_True by done.
  rewrite Hc, Hopen. simpl.
  eexists _, c. split; [reflexivity|]. simpl.
  split; [done|]. split; [done|]. split; [done|]. split.
  - apply bc_inv_intro. simpl. intros ch' Hin'.
    assert (ch' ≠ ch) as Hne by registry_mem.
    rewrite lookup_insert_ne by done.
    apply bc_inv_lookup; [done|]. registry_mem.
  - split; simpl; [registry_mem|].
    rewrite lookup_insert_eq. by eexists.
Qed.

(** Whatever the operation, the broadcaster does not panic, keeps its
    registered channels open, and leaves a released channel released. *)
Lemma bcStep_inv op b :
  bc_inv b →
  ∃ b', bcStep op b = Some b' ∧ bc_inv b' ∧
        ∀ ch, released ch b → released ch b'.
Proof.
  intros Hinv. destruct op as [|ch1|message]; cbn [bcStep].
  - destruct (Subscribe_spec b Hinv) as (Hinv' & _ & Hfresh & _ & Hother & Hsubs).
    eexists. split; [reflexivity|]. split; [done|].
    intros ch (Hnotin & c & Hc & Hclosed).
    assert (ch ≠ (Subscribe b).1) as Hne.
    { intros ->. apply Hfresh. apply elem_of_dom. by eexists. }
    split.
    + rewrite Hsubs. registry_mem.
    + exists c. by rewrite Hother.
  - destruct (decide (ch1 ∈ subs b)) as [Hin|Hnotin].
    + destruct (unsubscribe_in ch1 b Hinv Hin)
        as (b1 & c1 & -> & _ & Hsubs & Hchans & Hinv1 & _).
      exists b1. split; [done|]. split; [done|].
      intros ch (Hnotin & c & Hc & Hclosed).
      assert (ch ≠ ch1) as Hne by (intros ->; done).
      split.
      * rewrite Hsubs. registry_mem.
      * exists c. rewrite Hchans. by rewrite lookup_insert_ne.
    + rewrite unsubscribe_notin by done. eauto.
  - destruct (Broadcast_spec message b Hinv)
      as (b' & -> & Hsubs & Hinv' & Hlook).
    exists b'. split; [done|]. split; [done|].
    intros ch (Hnotin & c & Hc & Hclosed). split.
    + by rewrite Hsubs.
    + exists c. by rewrite Hlook, decide_False.
Qed.

Lemma bcRun_inv ops b :
  bc_inv b →
  ∃ b', bcRun ops b = Some b' ∧ bc_inv b' ∧
        ∀ ch, released ch b → released ch b'.
Proof.
  revert b. induction ops as [|op ops IH]; intros b Hinv; cbn [bcRun].
  - eauto.
  - destruct (bcStep_inv op b Hinv) as (b1 & -> & Hinv1 & Hrel1).
    cbn [mbind option_bind].
    destruct (IH b1 Hinv1) as (b' & -> & Hinv' & Hrel').
    exists b'. split; [done|]. split; [done|]. auto.
Qed.

Lemma unsubscribeTimes_released n ch b :
  released ch b → unsubscribeTimes n ch b = Some b.
Proof.
  intros [Hnotin _]. induction n as [|n IH]; cbn [unsubscribeTimes]; [done|].
  rewrite unsubscribe_notin by done. exact IH.
Qed.

(** C7.  [Broadcast] makes one non-blocking delivery attempt on every
    registered queue and returns normally: a registered queue with room
    gets the line appended, a registered queue that is full is left as it
    was (the line is dropped for that subscriber only), queues that are not
    registered are not touched, and the registry is unchanged. *)
Theorem C7_Broadcast_drops_only_for_full (message : string)
    (b : sseBroadcaster) :
  bc_inv b →
  ∃ b', Broadcast message b = Some b' ∧ subs b' = subs b ∧ bc_inv b' ∧
        (∀ ch c, ch ∈ subs b → chans b !! ch = Some c →
           (Z.of_nat (length (buf c)) < chanCap →
              chans b' !! ch = Some (mkChan (buf c ++ [message]) false)) ∧
           (chanCap <= Z.of_nat (length (buf c)) →
              chans b' !! ch = Some c)) ∧
        (∀ ch, ch ∉ subs b → chans b' !! ch = chans b !! ch).
Proof.
  intros Hinv.
  destruct (Broadcast_spec message b Hinv) as (b' & Hb' & Hsubs & Hinv' & Hlook).
  exists b'. split; [done|]. split; [done|]. split; [done|]. split.
  - intros ch c Hin Hc.
    destruct (bc_inv_lookup b ch Hinv Hin) as (c' & Hc' & Hopen).
    assert (c' = c) as -> by congruence.
    rewrite Hlook, decide_True, Hc by done. simpl. unfold deliver.
    split; intros Hlen.
    + destruct (Z.ltb_spec (Z.of_nat (length (buf c))) chanCap); [|lia].
      by rewrite Hopen.
    + destruct (Z.ltb_spec (Z.of_nat (length (buf c))) chanCap); [lia|done].
  - intros ch Hnotin. by rewrite Hlook, decide_False.
Qed.

(** C7 with two subscribers: X (channel 0) has 256 lines queued, Y
    (channel 1) has one; [Broadcast "L"] leaves X as it was and queues L
    for Y. *)
Lemma C7_Broadcast_drops_only_for_full_witness :
  let X := mkChan (replicate 256 "old") false in
  let Y := mkChan ["old"] false in
  let b := mkBroadcaster (<[1%nat := Y]> {[0%nat := X]}) {[0%nat; 1%nat]} in
  ∃ b', Broadcast "L" b = Some b' ∧
        chans b' !! 0%nat = Some X ∧
        chans b' !! 1%nat = Some (mkChan ["old"; "L"] false).
Proof.
  intros X Y b.
  assert (bc_inv b) as Hinv
    by (apply (bool_decide_unpack _); vm_compute; exact I).
  destruct (C7_Broadcast_drops_only_for_full "L" b Hinv)
    as (b' & Hb' & _ & _ & Hreg & _).
  exists b'. split; [done|]. split.
  - apply (Hreg 0%nat X).
    + apply (bool_decide_unpack _); vm_compute; exact I.
    + vm_compute; reflexivity.
    + vm_compute; discriminate.
  - apply (Hreg 1%nat Y).
    + apply (bool_decide_unpack _); vm_compute; exact I.
    + vm_compute; reflexivity.
    + vm_compute; reflexivity.
Defined.

(** C8.  For a registered subscription [ch] of a broadcaster whose
    registered channels are open: the first call of its unsubscribe
    function closes the channel and removes it from the registry, so that
    the subscriber count goes down by one; a second call, and any number
    [n >= 1] of calls in a row, ends in that same state without a panic;
    and whatever operations follow (further calls of this unsubscribe
    function, subscriptions, broadcasts, other unsubscribes), none of them
    panics and the channel stays closed and unregistered. *)
Theorem C8_unsubscribe_idempotent (b : sseBroadcaster) (ch n : nat) :
  bc_inv b → ch ∈ subs b → (1 <= n)%nat →
  ∃ b1, unsubscribe ch b = Some b1 ∧
        unsubscribe ch b1 = Some b1 ∧
        unsubscribeTimes n ch b = Some b1 ∧
        released ch b1 ∧ bc_inv b1 ∧
        subs b1 = subs b ∖ {[ch]} ∧
        (size (subs b1) + 1 = size (subs b))%nat ∧
        (∀ ops, ∃ b2, bcRun ops b1 = Some b2 ∧ bc_inv b2 ∧ released ch b2).
Proof.
  intros Hinv Hin Hn.
  destruct (unsubscribe_in ch b Hinv Hin)
    as (b1 & c & Hb1 & Hc & Hsubs & Hchans & Hinv1 & Hrel).
  exists b1. split; [done|].
  split; [apply unsubscribe_notin, Hrel|].
  split.
  { destruct n as [|n]; [lia|]. cbn [unsubscribeTimes]. rewrite Hb1.
    cbn [mbind option_bind]. by apply unsubscribeTimes_released. }
  split; [done|]. split; [done|]. split; [done|]. split.
  - rewrite Hsubs, size_difference by (by apply singleton_subseteq_l).
    rewrite size_singleton.
    assert (size (subs b) ≠ 0%nat) as Hpos.
    { intros H0. apply size_empty_inv in H0.
      apply (not_elem_of_empty (C := gset nat) ch).
      by rewrite <- (leibniz_equiv _ _ H0). }
    lia.
  - intros ops. destruct (bcRun_inv ops b1 Hinv1) as (b2 & Hb2 & Hinv2 & Hrel2).
    exists b2. split; [done|]. split; [done|]. by apply Hrel2.
Qed.

(** C8 on a broadcaster with one earlier subscriber: a session subscribes,
    a line is broadcast, and the session's unsubscribe function is called
    three times. *)
Lemma C8_unsubscribe_idempotent_witness :
  let b0 := (Subscribe NewLogStreamBroadcaster).2 in
  let ch := (Subscribe b0).1 in
  let b := (Subscribe b0).2 in
  ∃ b1, unsubscribeTimes 3 ch b = Some b1 ∧
        size (subs b) = 2%nat ∧ size (subs b1) = 1%nat ∧
        released ch b1 ∧
        ∃ b2, bcRun [OpBroadcast "L"; OpUnsubscribe ch; OpSubscribe;
                     OpUnsubscribe ch] b1 = Some b2 ∧ released ch b2.
Proof.
  intros b0 ch b.
  assert (bc_inv b) as Hinv
    by (apply (bool_decide_unpack _); vm_compute; exact I).
  assert (ch ∈ subs b) as Hin
    by (apply (bool_decide_unpack _); vm_compute; exact I).
  destruct (C8_unsubscribe_idempotent b ch 3 Hinv Hin)
    as (b1 & _ & _ & Htimes & Hrel & _ & _ & Hsize & Hops); [lia|].
  exists b1. split; [done|].
  assert (size (subs b) = 2%nat) as Hsz by (vm_compute; reflexivity).
  split; [done|]. split; [lia|]. split; [done|].
  destruct (Hops [OpBroadcast "L"; OpUnsubscribe ch; OpSubscribe;
                  OpUnsubscribe ch]) as (b2 & Hb2 & _ & Hrel2).
  by exists b2.
Defined.

(** * Further properties *)

(** ** More on the differ *)

Lemma counterAt_both oldSnap newSnap k oldv newv :
  oldSnap !! k = Some oldv → newSnap !! k = Some newv →
  counterAt CountStar (deltaSnap oldSnap newSnap) k =
    clampSub (CountStar newv) (CountStar oldv) ∧
  counterAt SumRowsExam (deltaSnap oldSnap newSnap) k =
    clampSub (SumRowsExam newv) (SumRowsExam oldv) ∧
  counterAt SumRowsSent (deltaSnap oldSnap newSnap) k =
    clampSub (SumRowsSent newv) (SumRowsSent oldv).
Proof.
  intros Hold Hnew. unfold counterAt.
  rewrite deltaSnap_lookup, Hnew. simpl.
  rewrite (deltaEntry_old _ _ _ _ Hold). simpl.
  destruct (_ && _) eqn:Hz; [|done].
  apply three_zero_true in Hz as (-> & -> & ->). done.
Qed.

(** The keys of the delta mapping lie between the keys that are new in the
    current snapshot and all keys of the current snapshot: a row that the
    source dropped since the previous snapshot contributes nothing, and a
    row seen for the first time is always reported. *)
Theorem deltaSnap_dom_between (oldSnap newSnap : snapshot) :
  dom newSnap ∖ dom oldSnap ⊆ dom (deltaSnap oldSnap newSnap) ∧
  dom (deltaSnap oldSnap newSnap) ⊆ dom newSnap ∧
  (∀ k, newSnap !! k = None → deltaSnap oldSnap newSnap !! k = None).
Proof.
  assert (∀ k, newSnap !! k = None → deltaSnap oldSnap newSnap !! k = None)
    as Hgone.
  { intros k Hk. by rewrite deltaSnap_lookup, Hk. }
  split; [|split; [|done]].
  - intros k Hk. apply elem_of_difference in Hk as [Hnew Hold].
    apply elem_of_dom in Hnew as [newv Hnew].
    apply not_elem_of_dom in Hold.
    apply elem_of_dom. rewrite deltaSnap_lookup, Hnew. simpl.
    rewrite (deltaEntry_new _ _ _ Hold). by eexists.
  - intros k Hk. apply elem_of_dom in Hk as [d Hd].
    apply elem_of_dom. destruct (newSnap !! k) eqn:Hnew; [by eexists|].
    rewrite (Hgone k Hnew) in Hd. discriminate Hd.
Qed.

(** ["q1"] was dropped by the source, ["q2"] did not move, ["q3"] is new:
    only ["q3"] has a delta row. *)
Lemma deltaSnap_dom_between_witness :
  let oldSnap : snapshot :=
    <[ "q2" := mkDigestStat "q2" "COMMIT" null_string 4 0 0 0 ]>
    {[ "q1" := mkDigestStat "q1" "SELECT ?" null_string 7 70 7 0 ]} in
  let newSnap : snapshot :=
    <[ "q3" := mkDigestStat "q3" "DELETE FROM t" null_string 3 500 10 3 ]>
    {[ "q2" := mkDigestStat "q2" "COMMIT" null_string 4 0 0 0 ]} in
  "q3" ∈ dom (deltaSnap oldSnap newSnap) ∧
  deltaSnap oldSnap newSnap !! "q1" = None.
Proof.
  intros oldSnap newSnap.
  destruct (deltaSnap_dom_between oldSnap newSnap) as (Hnew & _ & Hgone).
  split.
  - apply Hnew. apply (bool_decide_unpack _). vm_compute. exact I.
  - apply Hgone. vm_compute. reflexivity.
Defined.

(** Two equal snapshots have an empty delta. *)
Theorem deltaSnap_same_empty (s : snapshot) : deltaSnap s s = ∅.
Proof.
  apply map_eq. intros k. rewrite lookup_empty, deltaSnap_lookup.
  destruct (s !! k) as [v|] eqn:Hk; [|done]. simpl.
  rewrite (deltaEntry_old _ _ _ _ Hk). simpl.
  by rewrite !clampSub_same.
Qed.

(** For a key present in three successive snapshots with counters that
    only grow, the delta over the two intervals together is the sum of the
    deltas of the two intervals, counter by counter: a skipped snapshot
    loses no activity and counts none twice. *)
Theorem deltaSnap_additive (s0 s1 s2 : snapshot) (k : string)
    (v0 v1 v2 : digestStat) :
  s0 !! k = Some v0 → s1 !! k = Some v1 → s2 !! k = Some v2 →
  wf_stat v0 → wf_stat v1 → wf_stat v2 →
  monotone v0 v1 → monotone v1 v2 →
  counterAt CountStar (deltaSnap s0 s2) k =
    counterAt CountStar (deltaSnap s0 s1) k +
    counterAt CountStar (deltaSnap s1 s2) k ∧
  counterAt SumRowsExam (deltaSnap s0 s2) k =
    counterAt SumRowsExam (deltaSnap s0 s1) k +
    counterAt SumRowsExam (deltaSnap s1 s2) k ∧
  counterAt SumRowsSent (deltaSnap s0 s2) k =
    counterAt SumRowsSent (deltaSnap s0 s1) k +
    counterAt SumRowsSent (deltaSnap s1 s2) k.
Proof.
  intros H0 H1 H2 (Hc0 & He0 & Hs0 & _) (Hc1 & He1 & Hs1 & _)
         (Hc2 & He2 & Hs2 & _) (Mc01 & Me01 & Ms01) (Mc12 & Me12 & Ms12).
  destruct (counterAt_both s0 s2 k v0 v2 H0 H2) as (-> & -> & ->).
  destruct (counterAt_both s0 s1 k v0 v1 H0 H1) as (-> & -> & ->).
  destruct (counterAt_both s1 s2 k v1 v2 H1 H2) as (-> & -> & ->).
  rewrite !clampSub_ge by (done || lia). lia.
Qed.

(** Additivity on three snapshots of one digest: counts 10, 12, 14, rows
    examined 100, 130, 160, rows sent 10, 10, 11. *)
Lemma deltaSnap_additive_witness :
  let v0 := mkDigestStat "q1" "SELECT ?" null_string 10 100 10 0 in
  let v1 := mkDigestStat "q1" "SELECT ?" null_string 12 130 10 0 in
  let v2 := mkDigestStat "q1" "SELECT ?" null_string 14 160 11 0 in
  let s0 : snapshot := {[ "q1" := v0 ]} in
  let s1 : snapshot := {[ "q1" := v1 ]} in
  let s2 : snapshot := {[ "q1" := v2 ]} in
  counterAt CountStar (deltaSnap s0 s2) "q1" = 2 + 2 ∧
  counterAt SumRowsExam (deltaSnap s0 s2) "q1" = 30 + 30 ∧
  counterAt SumRowsSent (deltaSnap s0 s2) "q1" = 0 + 1.
Proof.
  intros v0 v1 v2 s0 s1 s2.
  apply (deltaSnap_additive s0 s1 s2 "q1" v0 v1 v2);
    try (vm_compute; reflexivity);
    try (apply (bool_decide_unpack _); vm_compute; exact I);
    unfold monotone; simpl; lia.
Defined.

(** ** More on the monitor *)

Lemma alertStep_sound c d e :
  e ∈ alertStep c d → e = alertOf c d ∧ qualifies c d.
Proof.
  destruct (decide (qualifies c d)) as [Hq|Hq].
  - rewrite (alertStep_qualifies _ _ Hq). intros Hin.
    apply list_elem_of_singleton in Hin. done.
  - rewrite (alertStep_not_qualifies _ _ Hq). intros Hin.
    by apply not_elem_of_nil in Hin.
Qed.

Lemma alertLoop_sound c delta e :
  e ∈ alertLoop c delta → ∃ d, e = alertOf c d ∧ qualifies c d.
Proof.
  unfold alertLoop. intros Hin. apply list_elem_of_In, in_flat_map in Hin.
  destruct Hin as ([k d] & _ & Hin). apply list_elem_of_In in Hin.
  exists d. by apply alertStep_sound.
Qed.

Lemma runLoop_sound c prev evs e :
  e ∈ (runLoop c prev evs).1.1 →
  (∃ d, e = alertOf c d ∧ qualifies c d) ∨
  e = LogError "fetch snapshot" ∨ e = LogInfo "shutting down".
Proof.
  revert prev. induction evs as [|ev rest IH]; intros prev; simpl.
  - intros Hin. by apply not_elem_of_nil in Hin.
  - destruct ev as [| |[curr|err]]; simpl.
    + intros Hin. by apply not_elem_of_nil in Hin.
    + intros Hin. apply list_elem_of_singleton in Hin. auto.
    + specialize (IH curr).
      destruct (runLoop c curr rest) as [[es final] stopped]. simpl in *.
      intros Hin. apply elem_of_app in Hin as [Hin|Hin]; [|auto].
      left. by apply (alertLoop_sound c (deltaSnap prev curr)).
    + specialize (IH prev).
      destruct (runLoop c prev rest) as [[es final] stopped]. simpl in *.
      intros Hin. apply elem_of_cons in Hin as [->|Hin]; auto.
Qed.

(** Every [Alert] that [Run] ever issues is justified: it passes the
    configured thresholds, its byte figures are the 64-bit products of the
    row counts it reports and the configured averages, at least one of them
    is not zero, and at least one of them reaches its threshold. *)
Theorem Run_alerts_sound (c : Config) (pingOk : bool) (initial : fetched)
    (evs : list event) (closeOk : bool) (o : offender) (rt wt : Z) :
  Alert o rt wt ∈ Run c pingOk initial evs closeOk →
  rt = ReadThreshold c ∧ wt = WriteThreshold c ∧
  BytesRead o = u64 (RowsExamined o * AvgRowRead c) ∧
  BytesWrite o = u64 (RowsSent o * AvgRowSent c) ∧
  (BytesRead o ≠ 0 ∨ BytesWrite o ≠ 0) ∧
  (rt <= BytesRead o ∨ wt <= BytesWrite o).
Proof.
  intros Hin.
  assert (Alert o rt wt ∈ (match initial with
                           | FetchOk prev => (runLoop c prev evs).1.1
                           | FetchErr _ => []
                           end)) as Hloop.
  { unfold Run in Hin. apply elem_of_cons in Hin as [Heq|Hin]; [done|].
    destruct pingOk.
    - destruct initial as [prev|err].
      + destruct (runLoop c prev evs) as [[es final] stopped]. simpl.
        destruct stopped; [|done].
        apply elem_of_app in Hin as [Hin|Hin]; [done|].
        apply elem_of_cons in Hin as [Heq|Hin]; [done|].
        apply elem_of_app in Hin as [Hin|Hin].
        * destruct closeOk.
          -- by apply not_elem_of_nil in Hin.
          -- apply list_elem_of_singleton in Hin. done.
        * apply list_elem_of_singleton in Hin. done.
      + apply list_elem_of_singleton in Hin. done.
    - apply list_elem_of_singleton in Hin. done. }
  destruct initial as [prev|err]; [|by apply not_elem_of_nil in Hloop].
  apply runLoop_sound in Hloop as [(d & Heq & Hnz & Hthr)|[Heq|Heq]];
    [|done|done].
  unfold alertOf in Heq. injection Heq as -> -> ->. simpl.
  done.
Qed.

(** [Run_alerts_sound] on a run of two ticks, the second of which reports
    a digest that examined 5900 more rows. *)
Lemma Run_alerts_sound_witness :
  let c := mkConfig 1048576 1048576 200 200 in
  let s0 : snapshot :=
    {[ "q1" := mkDigestStat "q1" "SELECT ?" null_string 1 100 1 0 ]} in
  let s1 : snapshot :=
    {[ "q1" := mkDigestStat "q1" "SELECT ?" null_string 2 6000 1 0 ]} in
  let o := mkOffender "q1" "SELECT ?" 1180000 0 5900 0 1 in
  BytesRead o = u64 (RowsExamined o * AvgRowRead c) ∧
  (ReadThreshold c <= BytesRead o ∨ WriteThreshold c <= BytesWrite o).
Proof.
  intros c s0 s1 o.
  destruct (Run_alerts_sound c true (FetchOk s0)
              [Tick (FetchOk s0); Tick (FetchOk s1); StopSignal] true
              o 1048576 1048576) as (_ & _ & Hbr & _ & _ & Hthr).
  - apply list_elem_of_In. vm_compute. right. left. reflexivity.
  - done.
Defined.

Lemma filter_keep_all {A} (P : A → Prop) `{∀ x, Decision (P x)} (l : list A) :
  (∀ x, x ∈ l → P x) → filter P l = l.
Proof.
  induction l as [|x l IH]; intros Hall; [done|].
  rewrite filter_cons_True by (apply Hall, elem_of_cons; by left).
  f_equal. apply IH. intros y Hy. apply Hall, elem_of_cons. by right.
Qed.

(** The loop body logs no error, in whatever order the rows are visited. *)
Lemma range_no_LogError c (order : list (string * digestStat)) :
  filter (λ e, negb (isLogError e)) (flat_map (λ kd, alertStep c kd.2) order)
  = flat_map (λ kd, alertStep c kd.2) order.
Proof.
  apply filter_keep_all. intros e Hin.
  apply list_elem_of_In, in_flat_map in Hin as ([k d] & _ & Hin).
  simpl in Hin. unfold alertStep in Hin.
  destruct (_ && _); [by destruct Hin|].
  destruct (_ || _); [|by destruct Hin].
  destruct Hin as [<-|[]]. done.
Qed.

(** The loop of the claims, which visits the rows in the order of
    [map_to_list], is one of the runs that [loopRuns] allows. *)
Lemma runLoop_loopRuns c prev evs :
  loopRuns c prev evs (runLoop c prev evs).1.1 (runLoop c prev evs).1.2
    (runLoop c prev evs).2.
Proof.
  revert prev. induction evs as [|ev rest IH]; intros prev.
  - constructor.
  - destruct ev as [| |r]; [constructor|constructor|].
    cbn [runLoop].
    assert (tickRuns c prev r (onTick c prev r).1 (onTick c prev r).2) as Ht.
    { destruct r as [curr|err]; [|constructor].
      apply (tick_fetched c prev curr (map_to_list (deltaSnap prev curr))).
      unfold rangeOver. done. }
    destruct (onTick c prev r) as [es prev']. specialize (IH prev').
    destruct (runLoop c prev' rest) as [[es' final] stopped].
    by apply (loop_tick c prev r rest es prev').
Qed.

(** A failed fetch leaves no trace in a run apart from its log line, in
    whatever order each tick visits the rows of its delta mapping: what
    the loop may do on the schedule without the failed ticks is exactly
    what it may do on the whole schedule once the error log lines are
    taken out of the effects, with the same previous snapshot at the end
    and the same way of leaving the loop. *)
Theorem loopRuns_failed_ticks_invisible (c : Config) (prev : snapshot)
    (evs : list event) (es : list effect) (final : snapshot)
    (stopped : bool) :
  loopRuns c prev (filter (λ ev, negb (isFailedTick ev)) evs) es final stopped
  ↔ ∃ es0, loopRuns c prev evs es0 final stopped ∧
           filter (λ e, negb (isLogError e)) es0 = es.
Proof.
  revert prev es. induction evs as [|ev rest IH]; intros prev es.
  - split.
    + intros H. exists es. split; [done|]. by inversion H.
    + intros (es0 & H & <-). inversion H; subst. constructor.
  - destruct ev as [| |[curr|err]].
    + rewrite filter_cons_True by done. split.
      * intros H. inversion H; subst. eexists. split; [constructor|done].
      * intros (es0 & H & <-). inversion H; subst. constructor.
    + rewrite filter_cons_True by done. split.
      * intros H. inversion H; subst. eexists. split; [constructor|done].
      * intros (es0 & H & <-). inversion H; subst. constructor.
    + rewrite filter_cons_True by done. split.
      * intros H. inversion H as [| | |? ? ? et prev' er ? ? Ht Hr]; subst.
        apply IH in Hr as (er0 & Hr0 & <-).
        exists (et ++ er0). split.
        -- by eapply loop_tick.
        -- rewrite filter_app. f_equal.
           inversion Ht; subst. apply range_no_LogError.
      * intros (es0 & H & <-).
        inversion H as [| | |? ? ? et prev' er ? ? Ht Hr]; subst.
        rewrite filter_app.
        replace (filter (λ e, negb (isLogError e)) et) with et
          by (inversion Ht; subst; symmetry; apply range_no_LogError).
        eapply loop_tick; [done|]. apply IH. by exists er.
    + rewrite filter_cons_False by (simpl; tauto). split.
      * intros H. apply IH in H as (er0 & Hr0 & <-).
        exists ([LogError "fetch snapshot"] ++ er0). split.
        -- apply (loop_tick c prev (FetchErr err) rest _ prev);
             [constructor|done].
        -- simpl. by rewrite filter_cons_False by (simpl; tauto).
      * intros (es0 & H & <-).
        inversion H as [| | |? ? ? et prev' er ? ? Ht Hr]; subst.
        inversion Ht; subst. simpl.
        rewrite filter_cons_False by (simpl; tauto).
        apply IH. by exists er.
Qed.

(** [loopRuns_failed_ticks_invisible] on a schedule whose first fetch
    fails: the effects of the run, less the error line, are effects of the
    run that never saw the failed tick. *)
Lemma loopRuns_failed_ticks_invisible_witness :
  let c := mkConfig 1048576 1048576 200 200 in
  let s0 : snapshot :=
    {[ "q1" := mkDigestStat "q1" "SELECT ?" null_string 1 100 1 0 ]} in
  let s1 : snapshot :=
    {[ "q1" := mkDigestStat "q1" "SELECT ?" null_string 2 6000 1 0 ]} in
  loopRuns c s0 [Tick (FetchOk s1); StopSignal]
    [Alert (mkOffender "q1" "SELECT ?" 1180000 0 5900 0 1) 1048576 1048576;
     LogInfo "shutting down"] s1 true.
Proof.
  intros c s0 s1.
  apply (loopRuns_failed_ticks_invisible c s0
           [Tick (FetchErr "timeout"); Tick (FetchOk s1); StopSignal]).
  eexists. split.
  - exact (runLoop_loopRuns c s0
             [Tick (FetchErr "timeout"); Tick (FetchOk s1); StopSignal]).
  - vm_compute. reflexivity.
Defined.



(** ** Loading a snapshot *)

Lemma scanRows_spec rows snap s :
  scanRows rows snap = FetchOk s →
  (∀ r, r ∈ rows → ∃ d, r = ScanOk d) ∧
  (∀ k d, s !! k = Some d →
          snap !! k = Some d ∨ (ScanOk d ∈ rows ∧ Digest d = k)) ∧
  (∀ k, (∃ d, ScanOk d ∈ rows ∧ Digest d = k) ∨ is_Some (snap !! k) →
        is_Some (s !! k)).
Proof.
  revert snap. induction rows as [|r rest IH]; intros snap; simpl.
  - intros [= ->]. split; [intros r Hin; by apply not_elem_of_nil in Hin|].
    split; [auto|]. intros k [(d & Hin & _)|H]; [|done].
    by apply not_elem_of_nil in Hin.
  - destruct r as [d0|err]; [|done]. intros Hrun.
    destruct (IH _ Hrun) as (Hall & Hfrom & Hdom).
    split; [|split].
    + intros r Hin. apply elem_of_cons in Hin as [->|Hin]; eauto.
    + intros k d Hk. destruct (Hfrom k d Hk) as [Hins|[Hin Hd]].
      * apply lookup_insert_Some in Hins as [[<- <-]|[_ Hsnap]].
        -- right. split; [apply elem_of_cons; by left|done].
        -- by left.
      * right. split; [apply elem_of_cons; by right|done].
    + intros k Hk. apply Hdom.
      destruct Hk as [(d & Hin & Hd)|Hsnap].
      * apply elem_of_cons in Hin as [[= <-]|Hin]; [|left; eauto].
        right. rewrite <- Hd. rewrite lookup_insert_eq. by eexists.
      * right. destruct (decide (Digest d0 = k)) as [<-|Hne].
        -- rewrite lookup_insert_eq. by eexists.
        -- by rewrite lookup_insert_ne.
Qed.

(** [Snapshot] hands back a snapshot only when the query, every row and
    the final row check succeed: one failing row discards the rows read
    before it.  The snapshot it hands back stores every row under its own
    digest, holds only rows of the result set, and has an entry for the
    digest of every row. *)
Theorem Snapshot_keyed (queryErr : option string) (rows : list scanned)
    (rowsErr : option string) (s : snapshot) :
  Snapshot queryErr rows rowsErr = FetchOk s →
  queryErr = None ∧ rowsErr = None ∧
  (∀ r, r ∈ rows → ∃ d, r = ScanOk d) ∧
  keyed s ∧
  (∀ k d, s !! k = Some d → ScanOk d ∈ rows) ∧
  (∀ d, ScanOk d ∈ rows → is_Some (s !! Digest d)).
Proof.
  unfold Snapshot. destruct queryErr as [e|]; [done|].
  destruct (scanRows rows ∅) as [s'|e] eqn:Hscan; [|done].
  destruct rowsErr as [e|]; [done|]. intros [= <-].
  destruct (scanRows_spec _ _ _ Hscan) as (Hall & Hfrom & Hdom).
  split; [done|]. split; [done|]. split; [done|]. split; [|split].
  - intros k d Hk. destruct (Hfrom k d Hk) as [Hempty|[_ Hd]]; [|done].
    by rewrite lookup_empty in Hempty.
  - intros k d Hk. destruct (Hfrom k d Hk) as [Hempty|[Hin _]]; [|done].
    by rewrite lookup_empty in Hempty.
  - intros d Hin. apply Hdom. left. eauto.
Qed.

(** A result set of two rows, and the same rows followed by one that does
    not scan. *)
Lemma Snapshot_keyed_witness :
  let d1 := mkDigestStat "q1" "SELECT ?" null_string 1 10 1 0 in
  let d2 := mkDigestStat "q2" "COMMIT" null_string 4 0 0 0 in
  (∃ s, Snapshot None [ScanOk d1; ScanOk d2] None = FetchOk s ∧
        keyed s ∧ is_Some (s !! "q2")) ∧
  Snapshot None [ScanOk d1; ScanOk d2; ScanErr "bad row"] None =
    FetchErr "bad row".
Proof.
  intros d1 d2. split; [|reflexivity].
  eexists. split; [reflexivity|].
  destruct (Snapshot_keyed None [ScanOk d1; ScanOk d2] None _ eq_refl)
    as (_ & _ & _ & Hkeyed & _ & Hdom).
  split; [exact Hkeyed|].
  apply (Hdom d2). apply elem_of_cons. right. apply elem_of_cons. by left.
Defined.

Lemma deltaSnap_keyed oldSnap newSnap :
  keyed newSnap → keyed (deltaSnap oldSnap newSnap).
Proof.
  intros Hkeyed k d Hd. apply deltaSnap_Some in Hd as (newv & Hnew & Hent).
  specialize (Hkeyed k newv Hnew). simpl in Hkeyed.
  destruct (oldSnap !! k) as [oldv|] eqn:Hold.
  - rewrite (deltaEntry_old _ _ _ _ Hold) in Hent. simpl in Hent.
    destruct (_ && _); [done|]. by injection Hent as <-.
  - rewrite (deltaEntry_new _ _ _ Hold) in Hent. by injection Hent as <-.
Qed.

Lemma alertDigests_alertOf c (l : list (string * digestStat)) :
  alertDigests ((λ kd, alertOf c kd.2) <$> l) = (λ kd, Digest kd.2) <$> l.
Proof.
  induction l as [|[k d] l IH]; [done|].
  rewrite !fmap_cons. unfold alertDigests in *. simpl. f_equal. exact IH.
Qed.

(** When the current snapshot stores every row under its own digest, as
    the snapshots of [Snapshot] do, a tick issues at most one [Alert] for a
    digest. *)
Theorem onTick_one_alert_per_digest (c : Config) (prev curr : snapshot) :
  keyed curr →
  NoDup (alertDigests (onTick c prev (FetchOk curr)).1).
Proof.
  intros Hkeyed. simpl.
  assert (alertDigests (alertLoop c (deltaSnap prev curr)) ≡ₚ
          (λ kd, Digest kd.2) <$>
            map_to_list (filter (λ kd, qualifies c kd.2)
                                (deltaSnap prev curr))) as Hperm.
  { rewrite <- (alertDigests_alertOf c). unfold alertDigests.
    apply omap_Permutation, alertLoop_perm. }
  rewrite Hperm.
  set (m := filter _ _).
  assert (m ⊆ deltaSnap prev curr) as Hsub by apply map_filter_subseteq.
  assert ((λ kd : string * digestStat, Digest kd.2) <$> map_to_list m =
          (map_to_list m).*1) as ->.
  { apply list_fmap_ext. intros i [k d] Hin. simpl.
    apply list_elem_of_lookup_2, elem_of_map_to_list in Hin.
    apply (deltaSnap_keyed prev curr Hkeyed k d).
    by eapply lookup_weaken. }
  apply NoDup_fst_map_to_list.
Qed.

(** One tick over a snapshot of two digests that both pass the read
    threshold: two alerts, for distinct digests. *)
Lemma onTick_one_alert_per_digest_witness :
  let c := mkConfig 1048576 1048576 200 200 in
  let curr : snapshot :=
    <[ "q2" := mkDigestStat "q2" "SELECT * FROM a" null_string 1 9000 0 0 ]>
    {[ "q1" := mkDigestStat "q1" "SELECT * FROM b" null_string 1 8000 0 0 ]} in
  length (alertDigests (onTick c ∅ (FetchOk curr)).1) = 2%nat ∧
  NoDup (alertDigests (onTick c ∅ (FetchOk curr)).1).
Proof.
  intros c curr. split; [vm_compute; reflexivity|].
  apply (onTick_one_alert_per_digest c ∅ curr).
  apply (bool_decide_unpack _). vm_compute. exact I.
Defined.

(** ** Using the log ring *)

Lemma appendAll_app l1 l2 r :
  appendAll (l1 ++ l2) r = appendAll l1 r ≫= appendAll l2.
Proof.
  revert r. induction l1 as [|s l1 IH]; intros r; [done|].
  cbn [app appendAll]. destruct (Append s r) as [r1|]; [|done].
  cbn [mbind option_bind]. apply IH.
Qed.

Lemma lastN_snoc {A} (n : nat) (l : list A) (x : A) :
  (1 ≤ n)%nat → (length l ≤ n)%nat →
  lastN n (l ++ [x]) =
    if decide (length l = n) then drop 1 l ++ [x] else l ++ [x].
Proof.
  intros Hn Hlen. unfold lastN. rewrite length_app. simpl.
  case_decide as Heq.
  - replace (length l + 1 - n)%nat with 1%nat by lia.
    rewrite drop_app_le by lia. done.
  - replace (length l + 1 - n)%nat with 0%nat by lia. done.
Qed.

Lemma lastN_lastN_app {A} (n : nat) (l1 l2 : list A) :
  lastN n (lastN n l1 ++ l2) = lastN n (l1 ++ l2).
Proof.
  unfold lastN. rewrite !length_app, length_drop.
  destruct (decide (length l1 ≤ n)%nat) as [Hle|Hgt].
  - replace (length l1 - n)%nat with 0%nat by lia. rewrite drop_0.
    f_equal. lia.
  - replace (length l1 - (length l1 - n) + length l2 - n)%nat
      with (length l2) by lia.
    replace (length l1 + length l2 - n)%nat
      with ((length l1 - n) + length l2)%nat by lia.
    rewrite <- (drop_drop (l1 ++ l2)).
    by rewrite (drop_app_le l1 l2 (length l1 - n)) by lia.
Qed.

(** One [Append], on a ring whose counters do not wrap, in terms of
    [lastN]. *)
Lemma Append_lastN s r :
  ring_inv r → 1 <= cap r → base r <= next r → next r + 1 < u64_mod →
  ∃ r', Append s r = Some r' ∧ ring_inv r' ∧ cap r' = cap r ∧
        base r' <= next r' ∧ next r' = next r + 1 ∧
        data r' = lastN (Z.to_nat (cap r)) (data r ++ [s]).
Proof.
  intros Hinv Hpos Hle Hsmall.
  destruct (Append_spec s r Hinv Hpos)
    as (r' & Happ & Hinv' & Hcap' & _ & Hfull & Hroom).
  destruct (Append_no_wrap s r r' Hinv Hpos Hle Hsmall Happ) as [Hle' Hn'].
  exists r'. repeat (split; [done|]).
  destruct Hinv as (_ & _ & _ & Hlen & _).
  rewrite lastN_snoc by lia. case_decide as Heq.
  - apply Hfull. lia.
  - apply Hroom. lia.
Qed.

Lemma appendAll_lastN ls r :
  ring_inv r → 1 <= cap r → base r <= next r →
  next r + Z.of_nat (length ls) < u64_mod →
  ∃ r', appendAll ls r = Some r' ∧ ring_inv r' ∧ cap r' = cap r ∧
        base r' <= next r' ∧ next r' = next r + Z.of_nat (length ls) ∧
        data r' = lastN (Z.to_nat (cap r)) (data r ++ ls).
Proof.
  revert r. induction ls as [|s ls IH]; intros r Hinv Hpos Hle Hsmall.
  - exists r. simpl. split; [done|]. split; [done|]. split; [done|].
    split; [done|]. split; [lia|].
    rewrite app_nil_r. unfold lastN.
    destruct Hinv as (_ & _ & _ & Hlen & _).
    replace (length (data r) - Z.to_nat (cap r))%nat with 0%nat by lia.
    done.
  - simpl in Hsmall.
    destruct (Append_lastN s r Hinv Hpos Hle)
      as (r1 & Happ & Hinv1 & Hcap1 & Hle1 & Hn1 & Hd1); [lia|].
    destruct (IH r1 Hinv1) as (r' & Hall & Hinv' & Hcap' & Hle' & Hn' & Hd');
      [lia|done|lia|].
    exists r'. cbn [appendAll]. rewrite Happ. cbn [mbind option_bind].
    split; [done|]. split; [done|]. split; [lia|]. split; [done|].
    split; [simpl; lia|].
    rewrite Hd', Hd1, Hcap1, lastN_lastN_app, <- app_assoc. done.
Qed.

(** The ring keeps the most recent lines: after a run of appends on a ring
    of capacity [C >= 1] whose counters do not wrap, it holds the last [C]
    of the lines it held followed by the appended ones, in order, and
    [next] has advanced by the number of appended lines. *)
Theorem appendAll_keeps_latest (ls : list string) (r : logRing) :
  ring_inv r → 1 <= cap r → base r <= next r →
  next r + Z.of_nat (length ls) < u64_mod →
  ∃ r', appendAll ls r = Some r' ∧
        data r' = lastN (Z.to_nat (cap r)) (data r ++ ls) ∧
        next r' = next r + Z.of_nat (length ls) ∧
        base r' = next r' - Z.of_nat (length (data r')) ∧
        ring_inv r'.
Proof.
  intros Hinv Hpos Hle Hsmall.
  destruct (appendAll_lastN ls r Hinv Hpos Hle Hsmall)
    as (r' & Hall & Hinv' & _ & Hle' & Hn' & Hd').
  exists r'. repeat (split; [done|]). split; [|done].
  pose proof (ring_inv_length r' Hinv' Hle'). lia.
Qed.

(** Five lines appended to an empty ring of capacity 3. *)
Lemma appendAll_keeps_latest_witness :
  ∃ r', appendAll ["A"; "B"; "C"; "D"; "E"] (mkLogRing 3 [] 0 0) = Some r' ∧
        data r' = ["C"; "D"; "E"] ∧ next r' = 5 ∧ base r' = 2.
Proof.
  assert (ring_inv (mkLogRing 3 [] 0 0)) as Hinv.
  { unfold ring_inv, is_u64, u64_mod; simpl. repeat split; try lia; done. }
  destruct (appendAll_keeps_latest ["A"; "B"; "C"; "D"; "E"]
              (mkLogRing 3 [] 0 0) Hinv)
    as (r' & Hall & Hd & Hn & Hb & _);
    [simpl; lia|simpl; lia|unfold u64_mod; simpl; lia|].
  exists r'. split; [done|]. split; [by rewrite Hd|].
  split; [by rewrite Hn|]. rewrite Hb, Hn, Hd. reflexivity.
Defined.

(** A reader that took its cursor with [Head] and polls after [n] lines
    have been appended gets exactly those lines, in order, when [n] is at
    most the capacity, and the last [C] of them when it has fallen behind;
    the cursor it gets back is the new [Head]. *)
Theorem GetFrom_Head_after_appends (ls : list string) (r : logRing) :
  ring_inv r → 1 <= cap r → base r <= next r →
  next r + Z.of_nat (length ls) < u64_mod →
  ∃ r', appendAll ls r = Some r' ∧
        GetFrom (Head r) r' = Some (lastN (Z.to_nat (cap r)) ls, Head r') ∧
        (Z.of_nat (length ls) <= cap r →
           GetFrom (Head r) r' = Some (ls, Head r')) ∧
        GetFrom (Head r') r' = Some ([], Head r').
Proof.
  intros Hinv Hpos Hle Hsmall.
  destruct (appendAll_lastN ls r Hinv Hpos Hle Hsmall)
    as (r' & Hall & Hinv' & Hcap' & Hle' & Hn' & Hd').
  pose proof (ring_inv_length r Hinv Hle) as Hlen.
  pose proof (ring_inv_length r' Hinv' Hle') as Hlen'.
  destruct Hinv as (Hb & _ & _ & Hfit & _).
  assert (GetFrom (Head r) r' =
          Some (lastN (Z.to_nat (cap r)) ls, Head r')) as Hget.
  { unfold Head. rewrite GetFrom_drop by done. do 2 f_equal.
    rewrite Hd'. unfold lastN. rewrite drop_drop, length_app.
    assert (length (data r') =
            length (data r) + length ls
              - (length (data r) + length ls - Z.to_nat (cap r)))%nat
      as Hlen2.
    { rewrite Hd'. unfold lastN. by rewrite length_drop, length_app. }
    replace (length (data r) + length ls - Z.to_nat (cap r)
               + Z.to_nat (next r - base r'))%nat
      with (length (data r) + (length ls - Z.to_nat (cap r)))%nat by lia.
    rewrite <- drop_drop, drop_app_length. done. }
  exists r'. split; [done|]. split; [done|]. split.
  - intros Hfew. rewrite Hget. do 2 f_equal. unfold lastN.
    replace (length ls - Z.to_nat (cap r))%nat with 0%nat by lia. done.
  - unfold Head. rewrite GetFrom_drop by done. do 2 f_equal.
    apply drop_ge. lia.
Qed.

(** A reader connects to the ring of capacity 3 holding A, B, C, two lines
    are appended, and the reader polls. *)
Lemma GetFrom_Head_after_appends_witness :
  let r := mkLogRing 3 ["A"; "B"; "C"] 0 3 in
  ∃ r', appendAll ["D"; "E"] r = Some r' ∧
        GetFrom (Head r) r' = Some (["D"; "E"], 5).
Proof.
  intros r.
  assert (ring_inv r) as Hinv.
  { unfold ring_inv, is_u64, u64_mod; simpl. repeat split; try lia; done. }
  destruct (GetFrom_Head_after_appends ["D"; "E"] r Hinv)
    as (r' & Hall & _ & Hget & _);
    [simpl; lia|simpl; lia|unfold u64_mod; simpl; lia|].
  exists r'. split; [done|].
  rewrite Hget by (simpl; lia). f_equal. f_equal.
  unfold Head. vm_compute in Hall. by injection Hall as <-.
Defined.

(** Whatever the cursor and whatever the state of the ring, [GetFrom] does
    not panic: it returns a suffix of the retained lines and [next] as the
    new cursor; for a cursor beyond [next] it returns no line. *)
Theorem GetFrom_returns_suffix (seq : Z) (r : logRing) :
  ∃ ls, GetFrom seq r = Some (ls, next r) ∧ ls `suffix_of` data r ∧
        (next r < seq → base r <= next r → ls = []).
Proof.
  unfold GetFrom.
  set (seq' := if seq <? base r then base r else seq).
  destruct (Z.gtb_spec seq' (next r)) as [Hgt|Hngt].
  - exists []. split; [done|]. split; [apply suffix_nil|done].
  - set (len := Z.of_nat (length (data r))).
    set (i := int_of_u64 _).
    set (j := if (i <? 0) || (i >? len) then len else i).
    assert (0 <= j <= len) as Hj.
    { unfold j. destruct ((i <? 0) || (i >? len)) eqn:Hi; [lia|].
      apply orb_false_iff in Hi as [H1 H2].
      apply Z.ltb_ge in H1. rewrite Z.gtb_ltb in H2. apply Z.ltb_ge in H2.
      lia. }
    rewrite sliceFrom_Some by (unfold len in Hj; lia). simpl.
    eexists. split; [reflexivity|]. split; [apply suffix_drop|].
    intros Hlt Hle. exfalso. unfold seq' in Hngt.
    destruct (Z.ltb_spec seq (base r)); lia.
Qed.

(** A cursor from the future, as a client may hold after a restart of the
    monitor, gets no line and is reset to [next]. *)
Lemma GetFrom_returns_suffix_witness :
  GetFrom 9 (mkLogRing 3 ["B"; "C"; "D"] 1 4) = Some ([], 4).
Proof.
  destruct (GetFrom_returns_suffix 9 (mkLogRing 3 ["B"; "C"; "D"] 1 4))
    as (ls & Hget & _ & Hnil).
  rewrite Hget. rewrite Hnil; [reflexivity|simpl; lia|simpl; lia].
Defined.

(** What a reader holding the cursor [next r + k] gets once the lines
    [ls] have been appended to [r]: the appended lines from position [k]
    on, or from the oldest one still retained if that is later. *)
Lemma GetFrom_cursor_after_appends (ls : list string) (k : nat) r r' :
  ring_inv r → 1 <= cap r → base r <= next r →
  next r + Z.of_nat (length ls) < u64_mod →
  appendAll ls r = Some r' → (k ≤ length ls)%nat →
  GetFrom (next r + Z.of_nat k) r' =
    Some (drop (k `max` (length ls - Z.to_nat (cap r))) ls,
          next r + Z.of_nat (length ls)).
Proof.
  intros Hinv Hpos Hle Hsmall Hall Hk.
  destruct (appendAll_lastN ls r Hinv Hpos Hle Hsmall)
    as (r1 & Hall1 & Hinv' & Hcap' & Hle' & Hn' & Hd').
  rewrite Hall in Hall1. injection Hall1 as <-.
  pose proof (ring_inv_length r Hinv Hle) as Hlen.
  pose proof (ring_inv_length r' Hinv' Hle') as Hlen'.
  destruct Hinv as (Hb & _ & _ & Hfit & _).
  rewrite GetFrom_drop by done. rewrite Hn'. do 2 f_equal.
  assert (length (data r') =
          length (data r) + length ls
            - (length (data r) + length ls - Z.to_nat (cap r)))%nat
    as Hlen2.
  { rewrite Hd'. unfold lastN. by rewrite length_drop, length_app. }
  rewrite Hd'. unfold lastN. rewrite drop_drop, length_app.
  replace (length (data r) + length ls - Z.to_nat (cap r)
             + Z.to_nat (next r + Z.of_nat k - base r'))%nat
    with (length (data r)
            + (k `max` (length ls - Z.to_nat (cap r))))%nat by lia.
  rewrite <- drop_drop, drop_app_length. done.
Qed.

(** ** Using the broadcaster *)

Lemma bcRun_app o1 o2 b :
  bcRun (o1 ++ o2) b = bcRun o1 b ≫= bcRun o2.
Proof.
  revert b. induction o1 as [|op o1 IH]; intros b; [done|].
  cbn [app bcRun]. destruct (bcStep op b) as [b1|]; [|done].
  cbn [mbind option_bind]. apply IH.
Qed.

Lemma deliver_bounded message c :
  Z.of_nat (length (buf c)) <= chanCap →
  Z.of_nat (length (buf (deliver message c))) <= chanCap.
Proof.
  intros Hle. unfold deliver.
  destruct (Z.ltb_spec (Z.of_nat (length (buf c))) chanCap); [|done].
  simpl. rewrite length_app. simpl. lia.
Qed.

Lemma bcStep_bounded op b :
  bc_inv b → bc_bounded b →
  ∃ b', bcStep op b = Some b' ∧ bc_inv b' ∧ bc_bounded b'.
Proof.
  intros Hinv Hbnd. destruct op as [|ch1|message]; cbn [bcStep].
  - destruct (Subscribe_spec b Hinv) as (Hinv' & _ & _ & Hnew & Hother & _).
    eexists. split; [reflexivity|]. split; [done|].
    intros ch c Hc.
    destruct (decide (ch = (Subscribe b).1)) as [->|Hne].
    + rewrite Hnew in Hc. injection Hc as <-. simpl. unfold chanCap. lia.
    + rewrite Hother in Hc by done. by apply (Hbnd ch).
  - destruct (decide (ch1 ∈ subs b)) as [Hin|Hnotin].
    + destruct (unsubscribe_in ch1 b Hinv Hin)
        as (b1 & c1 & -> & Hc1 & _ & Hchans & Hinv1 & _).
      exists b1. split; [done|]. split; [done|].
      intros ch c Hc. rewrite Hchans in Hc.
      apply lookup_insert_Some in Hc as [[<- <-]|[_ Hc]].
      * simpl. by apply (Hbnd ch1).
      * by apply (Hbnd ch).
    + rewrite unsubscribe_notin by done. eauto.
  - destruct (Broadcast_spec message b Hinv)
      as (b' & -> & _ & Hinv' & Hlook).
    exists b'. split; [done|]. split; [done|].
    intros ch c Hc. rewrite Hlook in Hc. case_decide.
    + destruct (chans b !! ch) as [c0|] eqn:Hc0; [|done].
      simpl in Hc. injection Hc as <-.
      apply deliver_bounded. by apply (Hbnd ch).
    + by apply (Hbnd ch).
Qed.

(** Starting from a new broadcaster, no sequence of subscribe,
    unsubscribe and broadcast calls panics, every registered queue stays
    open, and no queue ever holds more than 256 lines. *)
Theorem bcRun_never_panics_bounded (ops : list bcOp) :
  ∃ b, bcRun ops NewLogStreamBroadcaster = Some b ∧ bc_inv b ∧
       ∀ ch c, chans b !! ch = Some c → Z.of_nat (length (buf c)) <= 256.
Proof.
  assert (∀ b0, bc_inv b0 → bc_bounded b0 →
                ∃ b, bcRun ops b0 = Some b ∧ bc_inv b ∧ bc_bounded b)
    as Hrun.
  { induction ops as [|op ops IH]; intros b0 Hinv Hbnd; cbn [bcRun].
    - eauto.
    - destruct (bcStep_bounded op b0 Hinv Hbnd) as (b1 & -> & Hinv1 & Hbnd1).
      cbn [mbind option_bind]. by apply IH. }
  destruct (Hrun NewLogStreamBroadcaster) as (b & Hb & Hinv & Hbnd).
  - intros ch Hin. by apply not_elem_of_empty in Hin.
  - intros ch c Hc. simpl in Hc. by rewrite lookup_empty in Hc.
  - exists b. split; [done|]. split; [done|].
    intros ch c Hc. by apply (Hbnd ch).
Qed.

(** One subscriber that never reads, and 300 broadcasts: its queue holds
    256 lines. *)
Lemma bcRun_never_panics_bounded_witness :
  ∃ b c, bcRun (OpSubscribe :: replicate 300 (OpBroadcast "L"))
               NewLogStreamBroadcaster = Some b ∧
         chans b !! 0%nat = Some c ∧ length (buf c) = 256%nat.
Proof.
  destruct (bcRun_never_panics_bounded
              (OpSubscribe :: replicate 300 (OpBroadcast "L")))
    as (b & Hrun & _ & Hbnd).
  assert (buf <$> chans b !! 0%nat = Some (replicate 256 "L")) as Hc.
  { vm_compute in Hrun. injection Hrun as <-. vm_compute. reflexivity. }
  destruct (chans b !! 0%nat) as [c|] eqn:Hlook; [|discriminate Hc].
  exists b, c. split; [exact Hrun|]. split; [exact Hlook|].
  injection Hc as ->. reflexivity.
Defined.

Lemma bcStep_frozen op b ch c :
  bc_inv b → (ch ∉ subs b) → chans b !! ch = Some c →
  ∃ b', bcStep op b = Some b' ∧ bc_inv b' ∧
        (ch ∉ subs b') ∧ chans b' !! ch = Some c.
Proof.
  intros Hinv Hnotin Hc. destruct op as [|ch1|message]; cbn [bcStep].
  - destruct (Subscribe_spec b Hinv) as (Hinv' & _ & Hfresh & _ & Hother & Hsubs).
    assert (ch ≠ (Subscribe b).1) as Hne.
    { intros ->. apply Hfresh. apply elem_of_dom. by eexists. }
    eexists. split; [reflexivity|]. split; [done|]. split.
    + rewrite Hsubs. registry_mem.
    + by rewrite Hother.
  - destruct (decide (ch1 ∈ subs b)) as [Hin|Hnotin1].
    + destruct (unsubscribe_in ch1 b Hinv Hin)
        as (b1 & c1 & -> & _ & Hsubs & Hchans & Hinv1 & _).
      assert (ch ≠ ch1) as Hne by (intros ->; done).
      exists b1. split; [done|]. split; [done|]. split.
      * rewrite Hsubs. registry_mem.
      * rewrite Hchans. by rewrite lookup_insert_ne.
    + rewrite unsubscribe_notin by done. eauto.
  - destruct (Broadcast_spec message b Hinv)
      as (b' & -> & Hsubs & Hinv' & Hlook).
    exists b'. split; [done|]. split; [done|]. split.
    + by rewrite Hsubs.
    + by rewrite Hlook, decide_False.
Qed.

(** A channel that is not registered, in particular one that has been
    unsubscribed, is never written to again: whatever operations follow,
    its queue and its closed flag stay as they are, so a session can still
    drain the lines queued before it unsubscribed. *)
Theorem unregistered_channel_frozen (ops : list bcOp) (b : sseBroadcaster)
    (ch : nat) (c : chan) :
  bc_inv b → ch ∉ subs b → chans b !! ch = Some c →
  ∃ b', bcRun ops b = Some b' ∧ (ch ∉ subs b') ∧ chans b' !! ch = Some c.
Proof.
  revert b. induction ops as [|op ops IH]; intros b Hinv Hnotin Hc;
    cbn [bcRun].
  - eauto.
  - destruct (bcStep_frozen op b ch c Hinv Hnotin Hc)
      as (b1 & -> & Hinv1 & Hnotin1 & Hc1).
    cbn [mbind option_bind]. by apply IH.
Qed.

(** A subscriber with one queued line unsubscribes; two broadcasts and a
    new subscription later its queue is as it was when it was closed. *)
Lemma unregistered_channel_frozen_witness :
  let b := mkBroadcaster (<[1%nat := mkChan [] false]>
                            {[0%nat := mkChan ["L0"] true]}) {[1%nat]} in
  ∃ b', bcRun [OpBroadcast "L1"; OpSubscribe; OpUnsubscribe 0%nat;
               OpBroadcast "L2"] b = Some b' ∧
        chans b' !! 0%nat = Some (mkChan ["L0"] true).
Proof.
  intros b.
  destruct (unregistered_channel_frozen
              [OpBroadcast "L1"; OpSubscribe; OpUnsubscribe 0%nat;
               OpBroadcast "L2"] b 0%nat (mkChan ["L0"] true))
    as (b' & Hrun & _ & Hc).
  - apply (bool_decide_unpack _). vm_compute. exact I.
  - apply (bool_decide_unpack _). vm_compute. exact I.
  - vm_compute. reflexivity.
  - by exists b'.
Defined.

Lemma broadcasts_take ms b ch c :
  bc_inv b → ch ∈ subs b → chans b !! ch = Some c →
  Z.of_nat (length (buf c)) <= chanCap →
  ∃ b', bcRun (OpBroadcast <$> ms) b = Some b' ∧ subs b' = subs b ∧
        chans b' !! ch =
          Some (mkChan (take (Z.to_nat chanCap) (buf c ++ ms)) false).
Proof.
  revert b c. induction ms as [|m ms IH]; intros b c Hinv Hin Hc Hlen.
  - exists b. split; [done|]. split; [done|].
    rewrite app_nil_r, take_ge by lia.
    destruct (bc_inv_lookup b ch Hinv Hin) as (c' & Hc' & Hopen).
    assert (c' = c) as -> by congruence.
    rewrite Hc. destruct c as [bf cl]. simpl in *. by rewrite Hopen.
  - rewrite fmap_cons. cbn [bcRun bcStep].
    destruct (Broadcast_spec m b Hinv) as (b1 & -> & Hsubs & Hinv1 & Hlook).
    cbn [mbind option_bind].
    assert (chans b1 !! ch = Some (deliver m c)) as Hc1.
    { by rewrite Hlook, decide_True, Hc. }
    destruct (IH b1 (deliver m c) Hinv1) as (b' & -> & Hsubs' & Hc');
      [by rewrite Hsubs|done|by apply deliver_bounded|].
    exists b'. split; [done|]. split; [congruence|].
    rewrite Hc'. do 2 f_equal. unfold deliver.
    destruct (Z.ltb_spec (Z.of_nat (length (buf c))) chanCap) as [Hroom|Hfull].
    + simpl. by rewrite <- app_assoc.
    + rewrite !take_app_le by lia. done.
Qed.

(** A registered subscriber that does not read gets the broadcast lines in
    the order they were sent, up to the capacity of its queue: its queue
    ends up with the first 256 lines of what it held followed by the
    broadcast lines.  So all of them are queued when they fit, and a queue
    that was full keeps exactly what it held: the lines that arrive at a
    full queue are the ones dropped. *)
Theorem broadcasts_queue_in_order (ms : list string) (b : sseBroadcaster)
    (ch : nat) (c : chan) :
  bc_inv b → ch ∈ subs b → chans b !! ch = Some c →
  Z.of_nat (length (buf c)) <= chanCap →
  ∃ b', bcRun (OpBroadcast <$> ms) b = Some b' ∧ subs b' = subs b ∧
        chans b' !! ch =
          Some (mkChan (take (Z.to_nat chanCap) (buf c ++ ms)) false) ∧
        (Z.of_nat (length (buf c) + length ms) <= chanCap →
           chans b' !! ch = Some (mkChan (buf c ++ ms) false)) ∧
        (Z.of_nat (length (buf c)) = chanCap → chans b' !! ch = Some c).
Proof.
  intros Hinv Hin Hc Hlen.
  destruct (broadcasts_take ms b ch c Hinv Hin Hc Hlen)
    as (b' & Hrun & Hsubs & Hc').
  exists b'. split; [done|]. split; [done|]. split; [done|]. split.
  - intros Hfit. rewrite Hc'. do 2 f_equal.
    apply take_ge. rewrite length_app. lia.
  - intros Hfull. rewrite Hc', take_app_le by lia.
    rewrite take_ge by lia.
    destruct (bc_inv_lookup b ch Hinv Hin) as (c0 & Hc0 & Hopen).
    assert (c0 = c) as -> by congruence.
    destruct c as [bf cl]. simpl in *. by rewrite Hopen.
Qed.

(** A queue holding 255 lines is sent two more: the first is queued, the
    second is dropped. *)
Lemma broadcasts_queue_in_order_witness :
  let c := mkChan (replicate 255 "old") false in
  let b := mkBroadcaster {[0%nat := c]} {[0%nat]} in
  ∃ b', bcRun [OpBroadcast "L1"; OpBroadcast "L2"] b = Some b' ∧
        chans b' !! 0%nat = Some (mkChan (replicate 255 "old" ++ ["L1"]) false).
Proof.
  intros c b.
  destruct (broadcasts_queue_in_order ["L1"; "L2"] b 0%nat c)
    as (b' & Hrun & _ & Hc & _).
  - apply (bool_decide_unpack _). vm_compute. exact I.
  - apply (bool_decide_unpack _). vm_compute. exact I.
  - vm_compute. reflexivity.
  - vm_compute. discriminate.
  - exists b'. split; [exact Hrun|]. rewrite Hc. vm_compute. reflexivity.
Defined.

(** [Subscribe] registers one more subscriber under a channel that was
    never used before and whose queue is empty, without touching the other
    channels; the new subscriber then gets the lines broadcast from then
    on, and none of the earlier ones. *)
Theorem Subscribe_then_broadcasts (ms : list string) (b : sseBroadcaster) :
  bc_inv b →
  ((Subscribe b).1 ∉ dom (chans b)) ∧
  size (subs (Subscribe b).2) = S (size (subs b)) ∧
  (∀ ch, ch ≠ (Subscribe b).1 →
         chans (Subscribe b).2 !! ch = chans b !! ch) ∧
  ∃ b', bcRun (OpBroadcast <$> ms) (Subscribe b).2 = Some b' ∧
        chans b' !! (Subscribe b).1 =
          Some (mkChan (take (Z.to_nat chanCap) ms) false).
Proof.
  intros Hinv.
  destruct (Subscribe_spec b Hinv)
    as (Hinv' & Hin & Hfresh & Hnew & Hother & Hsubs).
  split; [done|]. split; [|split; [done|]].
  - rewrite Hsubs, size_union, size_singleton; [done|].
    apply disjoint_singleton_l. intros Hsub.
    destruct (bc_inv_lookup b _ Hinv Hsub) as (c & Hc & _).
    apply Hfresh, elem_of_dom. by eexists.
  - destruct (broadcasts_take ms (Subscribe b).2 (Subscribe b).1
                (mkChan [] false) Hinv' Hin Hnew)
      as (b' & Hrun & _ & Hc); [simpl; unfold chanCap; lia|].
    exists b'. split; [done|]. by rewrite Hc.
Qed.

(** A second session subscribes after one line has been broadcast and gets
    only the two lines broadcast afterwards. *)
Lemma Subscribe_then_broadcasts_witness :
  let b := mkBroadcaster {[0%nat := mkChan ["L0"] false]} {[0%nat]} in
  (Subscribe b).1 = 1%nat ∧
  ∃ b', bcRun [OpBroadcast "L1"; OpBroadcast "L2"] (Subscribe b).2 = Some b' ∧
        chans b' !! 1%nat = Some (mkChan ["L1"; "L2"] false).
Proof.
  intros b. split; [vm_compute; reflexivity|].
  destruct (Subscribe_then_broadcasts ["L1"; "L2"] b)
    as (_ & _ & _ & b' & Hrun & Hc).
  - apply (bool_decide_unpack _). vm_compute. exact I.
  - exists b'. split; [exact Hrun|]. exact Hc.
Defined.

(** ** The tee writer *)

(** The loop, unfolded once. *)
Lemma drainLines_unfold_once noBus t :
  drainLines noBus t =
    match IndexByte (tbuf t) newline with
    | None => Some t
    | Some i =>
        t' ← emitLine noBus (trimCR (string_of_list_ascii (take i (tbuf t)))) t;
        drainLines noBus (mkTee (drop (S i) (tbuf t)) (ring t') (bus t'))
    end.
Proof.
  funelim (drainLines noBus t).
  - by rewrite e.
  - by rewrite Hi, Heq.
  - by rewrite Hi, Heq.
Qed.

Lemma IndexByte_None data c : IndexByte data c = None ↔ c ∉ data.
Proof.
  induction data as [|x rest IH]; simpl.
  - split; [intros _; apply not_elem_of_nil|done].
  - destruct (Ascii.eqb_spec x c) as [->|Hne].
    + split; [done|]. intros Hnotin. exfalso. apply Hnotin, elem_of_cons.
      by left.
    + rewrite not_elem_of_cons, <- IH.
      destruct (IndexByte rest c); simpl; [|by split; [split; congruence|]].
      split; [done|]. by intros [_ ?].
Qed.

Lemma IndexByte_Some data c i :
  IndexByte data c = Some i →
  data = take i data ++ c :: drop (S i) data ∧ c ∉ take i data.
Proof.
  revert i. induction data as [|x rest IH]; intros i; simpl; [done|].
  destruct (Ascii.eqb_spec x c) as [->|Hne].
  - intros [= <-]. simpl. split; [by rewrite drop_0|apply not_elem_of_nil].
  - destruct (IndexByte rest c) as [j|]; [|done]. simpl. intros [= <-].
    destruct (IH j eq_refl) as [Heq Hnotin]. simpl. split.
    + by rewrite <- Heq.
    + rewrite not_elem_of_cons. split; [congruence|done].
Qed.

Lemma IndexByte_app data more c i :
  IndexByte data c = Some i → IndexByte (data ++ more) c = Some i.
Proof.
  revert i. induction data as [|x rest IH]; intros i; simpl; [done|].
  destruct (Ascii.eqb x c); [done|].
  destruct (IndexByte rest c) as [j|]; [|done]. simpl. intros [= <-].
  by rewrite (IH j eq_refl).
Qed.

(** [emitLine] passes the buffer along and reads it for nothing else. *)
Lemma emitLine_buf noBus line data r bs :
  emitLine noBus line (mkTee data r bs) =
    (λ t', mkTee data (ring t') (bus t')) <$>
      emitLine noBus line (mkTee [] r bs).
Proof.
  unfold emitLine. simpl. destruct (String.eqb line ""); [done|].
  destruct (Append line r) as [r'|]; [|done]. simpl.
  destruct bs as [b|]; [|done]. destruct noBus; [done|].
  by destruct (Broadcast line b).
Qed.

Lemma drainLines_app noBus a b r bs :
  drainLines noBus (mkTee (a ++ b) r bs) =
    t' ← drainLines noBus (mkTee a r bs);
    drainLines noBus (mkTee (tbuf t' ++ b) (ring t') (bus t')).
Proof.
  remember (length a) as n eqn:Hn. revert a r bs Hn.
  induction n as [n IH] using lt_wf_ind. intros a r bs ->.
  rewrite (drainLines_unfold_once noBus (mkTee a r bs)). simpl.
  destruct (IndexByte a newline) as [i|] eqn:Hi; [|done].
  rewrite (drainLines_unfold_once noBus (mkTee (a ++ b) r bs)). simpl.
  rewrite (IndexByte_app _ _ _ _ Hi).
  pose proof (IndexByte_lt _ _ _ Hi) as Hlt.
  rewrite take_app_le, drop_app_le by lia.
  rewrite (emitLine_buf noBus _ (a ++ b)), (emitLine_buf noBus _ a).
  destruct (emitLine noBus _ (mkTee [] r bs)) as [t1|]; [|done]. simpl.
  apply (IH (length (drop (S i) a))); [|done].
  rewrite length_drop. lia.
Qed.

(** Writing in pieces is the same as writing at once: however the bytes
    of the log output are cut into [Write] calls, the same lines reach the
    ring and the subscribers, in the same order, and the same bytes are
    left in the buffer. *)
Theorem Write_chunking (noBus : bool) (p1 p2 : list ascii) (t : tee) :
  Write noBus (p1 ++ p2) t = Write noBus p1 t ≫= Write noBus p2.
Proof.
  unfold Write. rewrite app_assoc. apply drainLines_app.
Qed.

Lemma busRun_app noBus l1 l2 bs bs1 :
  busRun noBus l1 bs = Some bs1 →
  busRun noBus (l1 ++ l2) bs = busRun noBus l2 bs1.
Proof.
  unfold busRun. destruct bs as [b|]; [|by intros [= <-]].
  destruct noBus; [by intros [= <-]|].
  rewrite fmap_app, bcRun_app.
  destruct (bcRun (OpBroadcast <$> l1) b) as [b1|]; [|done].
  by intros [= <-].
Qed.

(** One emitted line, under the invariants: it is appended to the ring
    and, with the bus in use, broadcast once; an empty line does nothing. *)
Lemma emitLine_spec noBus line t :
  tee_inv t →
  ∃ t1, emitLine noBus line t = Some t1 ∧ tbuf t1 = tbuf t ∧ tee_inv t1 ∧
        cap (ring t1) = cap (ring t) ∧
        appendAll (filter (λ l, l ≠ EmptyString) [line]) (ring t) =
          Some (ring t1) ∧
        busRun noBus (filter (λ l, l ≠ EmptyString) [line]) (bus t) =
          Some (bus t1).
Proof.
  intros (Hring & Hcap & Hbus). unfold emitLine.
  destruct (String.eqb_spec line "") as [->|Hne].
  - exists t. rewrite filter_cons_False by (intros H; by apply H).
    split; [done|]. split; [done|]. split; [done|]. split; [done|].
    split; [done|]. unfold busRun. destruct (bus t) as [b|]; [|done].
    by destruct noBus.
  - rewrite filter_cons_True by done. rewrite filter_nil.
    destruct (Append_spec line (ring t) Hring Hcap)
      as (r1 & Happ & Hring1 & Hcap1 & _).
    rewrite Happ. cbn [mbind option_bind appendAll].
    destruct (bus t) as [b|] eqn:Hb.
    + destruct noBus.
      * eexists. split; [reflexivity|]. simpl. rewrite Happ.
        split; [done|]. split; [|done].
        split; [done|]. split; [simpl; lia|done].
      * destruct (Broadcast_spec line b Hbus) as (b1 & Hbc & _ & Hinv1 & _).
        rewrite Hbc. cbn [mbind option_bind].
        eexists. split; [reflexivity|]. simpl. rewrite Happ, Hbc.
        split; [done|]. split; [|done].
        split; [done|]. split; [simpl; lia|done].
    + eexists. split; [reflexivity|]. simpl. rewrite Happ.
      split; [done|]. split; [|done].
      split; [done|]. split; [simpl; lia|done].
Qed.

Lemma drainLines_spec noBus t :
  tee_inv t →
  ∃ t' segs,
    drainLines noBus t = Some t' ∧ tee_inv t' ∧
    tbuf t = concat ((λ seg, seg ++ [newline]) <$> segs) ++ tbuf t' ∧
    (newline ∉ tbuf t') ∧ Forall (λ seg, newline ∉ seg) segs ∧
    appendAll (linesOf segs) (ring t) = Some (ring t') ∧
    busRun noBus (linesOf segs) (bus t) = Some (bus t').
Proof.
  remember (length (tbuf t)) as n eqn:Hn. revert t Hn.
  induction n as [n IH] using lt_wf_ind. intros t -> Hinv.
  rewrite drainLines_unfold_once.
  destruct (IndexByte (tbuf t) newline) as [i|] eqn:Hi.
  - destruct (IndexByte_Some _ _ _ Hi) as [Hsplit Hseg].
    pose proof (IndexByte_lt _ _ _ Hi) as Hlt.
    set (seg := take i (tbuf t)) in *.
    destruct (emitLine_spec noBus (trimCR (string_of_list_ascii seg)) t Hinv)
      as (t1 & -> & Hbuf1 & Hinv1 & Hcap1 & Hring1 & Hbus1).
    cbn [mbind option_bind].
    set (t2 := mkTee (drop (S i) (tbuf t)) (ring t1) (bus t1)).
    destruct (IH (length (tbuf t2))) with (t := t2)
      as (t' & segs & Hrun & Hinv' & Hcat & Hnl & Hsegs & Hring' & Hbus');
      [simpl; rewrite length_drop; lia|done|exact Hinv1|].
    exists t', (seg :: segs). split; [done|]. split; [done|].
    split; [|split; [done|split; [by constructor|]]].
    + rewrite fmap_cons, concat_cons. simpl in Hcat.
      rewrite <- !app_assoc, <- Hcat. exact Hsplit.
    + assert (linesOf (seg :: segs) =
              filter (λ l, l ≠ EmptyString) [trimCR (string_of_list_ascii seg)]
                ++ linesOf segs) as ->.
      { unfold linesOf. rewrite fmap_cons.
        change (?x :: ?l) with ([x] ++ l) at 1. by rewrite filter_app. }
      split.
      * rewrite appendAll_app, Hring1. exact Hring'.
      * rewrite (busRun_app _ _ _ _ _ Hbus1). exact Hbus'.
  - exists t, []. split; [done|]. split; [done|].
    split; [done|]. split; [by apply IndexByte_None|].
    split; [constructor|]. split; [done|].
    unfold busRun, linesOf. simpl. destruct (bus t); [|done].
    by destruct noBus.
Qed.

(** What one [Write] does, under the invariants of the ring and of the
    broadcaster.  It does not panic and keeps the invariants.  The buffer
    followed by the written bytes is cut at its newlines into segments and
    a rest without newline, which stays in the buffer; each segment has
    one trailing carriage return removed and, unless it is then empty, is
    appended to the ring as a line, in order; with a broadcaster present
    and the bus in use the same lines are broadcast, in order, and with the
    bus switched off the broadcaster is not touched. *)
Theorem Write_spec (noBus : bool) (p : list ascii) (t : tee) :
  tee_inv t →
  ∃ t' segs,
    Write noBus p t = Some t' ∧ tee_inv t' ∧
    tbuf t ++ p = concat ((λ seg, seg ++ [newline]) <$> segs) ++ tbuf t' ∧
    (newline ∉ tbuf t') ∧ Forall (λ seg, newline ∉ seg) segs ∧
    appendAll (linesOf segs) (ring t) = Some (ring t') ∧
    busRun noBus (linesOf segs) (bus t) = Some (bus t') ∧
    (noBus = true → bus t' = bus t).
Proof.
  intros Hinv. unfold Write.
  destruct (drainLines_spec noBus (mkTee (tbuf t ++ p) (ring t) (bus t)) Hinv)
    as (t' & segs & Hrun & Hinv' & Hcat & Hnl & Hsegs & Hring & Hbus).
  exists t', segs. repeat (split; [done|]).
  intros ->. simpl in Hbus. unfold busRun in Hbus.
  destruct (bus t); by injection Hbus.
Qed.

(** One [Write] of ["two\r\n\nthr"] on a buffer holding ["one\nhalf "]:
    the lines ["one"] and ["half two"] go to the ring and to the one
    subscriber, the empty line is skipped, and ["thr"] stays buffered. *)
Lemma Write_spec_witness :
  let b := (Subscribe NewLogStreamBroadcaster).2 in
  let t := mkTee (list_ascii_of_string "one" ++ newline ::
                    list_ascii_of_string "half ")
                 (mkLogRing 2048 [] 0 0) (Some b) in
  let p := list_ascii_of_string "two" ++ carriageReturn :: newline ::
             newline :: list_ascii_of_string "thr" in
  ∃ t' b', Write false p t = Some t' ∧
           tbuf t' = list_ascii_of_string "thr" ∧
           data (ring t') = ["one"; "half two"] ∧
           bus t' = Some b' ∧
           buf <$> chans b' !! 0%nat = Some ["one"; "half two"].
Proof.
  intros b t p.
  assert (tee_inv t) as Hinv.
  { split; [|split].
    - unfold ring_inv, is_u64, u64_mod; simpl. repeat split; try lia; done.
    - simpl. lia.
    - simpl. apply (bool_decide_unpack _). vm_compute. exact I. }
  destruct (Write_spec false p t Hinv) as (t' & segs & Hw & _).
  assert (Write false p t =
          Some (mkTee (list_ascii_of_string "thr")
                  (mkLogRing 2048 ["one"; "half two"] 0 2)
                  (Some (mkBroadcaster
                           {[0%nat := mkChan ["one"; "half two"] false]}
                           {[0%nat]})))) as Hval
    by (vm_compute; reflexivity).
  rewrite Hval in Hw. injection Hw as <-.
  eexists _, _. split; [exact Hval|]. split; [reflexivity|].
  split; [reflexivity|]. split; [reflexivity|]. vm_compute. reflexivity.
Defined.

(** ** [bytesToHuman] *)

Lemma unitLoop_step n div exp :
  1024 <= n →
  unitLoop n div exp = unitLoop (n / 1024) (u64 (div * 1024)) (exp + 1).
Proof.
  intros Hn. funelim (unitLoop n div exp); [done|].
  pose proof e as Hlt. rewrite Z.geb_leb in Hlt. apply Z.leb_gt in Hlt. lia.
Qed.

Lemma unitLoop_stop n div exp :
  n < 1024 → unitLoop n div exp = (div, exp).
Proof.
  intros Hlt. funelim (unitLoop n div exp); [|done].
  pose proof Hn as Hge. rewrite Z.geb_leb in Hge. apply Z.leb_le in Hge. lia.
Qed.

Lemma pow1024_succ k : 0 <= k → 1024 ^ (k + 1) = 1024 ^ k * 1024.
Proof. intros Hk. by rewrite Z.pow_add_r by lia. Qed.

(** The loop run on a value between [1024^e] and [1024^(e+1)] multiplies
    [div] by [1024^e] and adds [e] to [exp]. *)
Lemma unitLoop_spec (e : nat) n div exp :
  0 <= div → div * 1024 ^ Z.of_nat e < u64_mod →
  1024 ^ Z.of_nat e <= n < 1024 ^ (Z.of_nat e + 1) →
  unitLoop n div exp = (div * 1024 ^ Z.of_nat e, exp + Z.of_nat e).
Proof.
  revert n div exp. induction e as [|e IH]; intros n div exp Hdiv Hfit Hn.
  - simpl in *. rewrite unitLoop_stop by lia. f_equal; lia.
  - replace (Z.of_nat (S e)) with (Z.of_nat e + 1) in * by lia.
    assert (0 < 1024 ^ Z.of_nat e) by (apply Z.pow_pos_nonneg; lia).
    rewrite (pow1024_succ (Z.of_nat e + 1)) in Hn by lia.
    rewrite (pow1024_succ (Z.of_nat e)) in Hn, Hfit by lia.
    rewrite (pow1024_succ (Z.of_nat e)) by lia.
    rewrite unitLoop_step by nia.
    assert (u64 (div * 1024) = div * 1024) as ->.
    { apply u64_small. unfold is_u64. nia. }
    rewrite IH.
    + f_equal; lia.
    + lia.
    + nia.
    + rewrite (pow1024_succ (Z.of_nat e)) by lia.
      split.
      * apply Z.div_le_lower_bound; lia.
      * apply Z.div_lt_upper_bound; lia.
Qed.

Lemma bytesToHuman_small fmtFloat2 b :
  0 < b < 1024 → bytesToHuman fmtFloat2 b = Some (pretty b +:+ "B").
Proof.
  intros Hsmall. unfold bytesToHuman.
  destruct (Z.eqb_spec b 0); [lia|].
  destruct (Z.ltb_spec b 1024); [done|lia].
Qed.

Lemma bytesToHuman_large fmtFloat2 b (e : nat) :
  is_u64 b → 1024 ^ (Z.of_nat e + 1) <= b < 1024 ^ (Z.of_nat e + 2) →
  bytesToHuman fmtFloat2 b =
    (prefix ← ["KiB"; "MiB"; "GiB"; "TiB"] !! e;
     Some (fmtFloat2 b (1024 ^ (Z.of_nat e + 1)) +:+ prefix)).
Proof.
  intros [Hb0 Hb64] Hb.
  assert (0 < 1024 ^ Z.of_nat e) as Hpow by (apply Z.pow_pos_nonneg; lia).
  replace (Z.of_nat e + 2) with (Z.of_nat e + 1 + 1) in Hb by lia.
  rewrite (pow1024_succ (Z.of_nat e + 1)) in Hb by lia.
  rewrite (pow1024_succ (Z.of_nat e)) in Hb by lia.
  unfold bytesToHuman.
  destruct (Z.eqb_spec b 0); [lia|].
  destruct (Z.ltb_spec b 1024); [nia|].
  rewrite (unitLoop_spec e).
  - destruct (Z.ltb_spec (0 + Z.of_nat e) 0); [lia|].
    replace (Z.to_nat (0 + Z.of_nat e)) with e by lia.
    rewrite (pow1024_succ (Z.of_nat e)) by lia.
    by rewrite (Z.mul_comm 1024).
  - lia.
  - unfold u64_mod in *. nia.
  - rewrite (pow1024_succ (Z.of_nat e)) by lia.
    split.
    + apply Z.div_le_lower_bound; lia.
    + apply Z.div_lt_upper_bound; lia.
Qed.

(** The unit [bytesToHuman] picks.  Zero is ["0B"], a value below 1024 is
    printed in decimal with ["B"], and a 64-bit value from [1024^(e+1)] up
    to [1024^(e+2)] is divided by [1024^(e+1)] and given the unit number
    [e] of KiB, MiB, GiB, TiB. *)
Theorem bytesToHuman_unit (fmtFloat2 : Z → Z → string) (b : Z) (e : nat) :
  is_u64 b → 1024 ^ (Z.of_nat e + 1) <= b < 1024 ^ (Z.of_nat e + 2) →
  bytesToHuman fmtFloat2 0 = Some "0B" ∧
  (∀ small, 0 < small < 1024 →
     bytesToHuman fmtFloat2 small = Some (pretty small +:+ "B")) ∧
  bytesToHuman fmtFloat2 b =
    (prefix ← ["KiB"; "MiB"; "GiB"; "TiB"] !! e;
     Some (fmtFloat2 b (1024 ^ (Z.of_nat e + 1)) +:+ prefix)).
Proof.
  intros Hb64 Hb. split; [done|]. split.
  - intros small. apply bytesToHuman_small.
  - by apply bytesToHuman_large.
Qed.

(** 1,180,000 bytes, the figure of the alert example, is reported in MiB. *)
Lemma bytesToHuman_unit_witness :
  bytesToHuman (λ _ _, "1.13") 1180000 = Some "1.13MiB".
Proof.
  destruct (bytesToHuman_unit (λ _ _, "1.13") 1180000 1) as (_ & _ & H).
  - unfold is_u64, u64_mod. lia.
  - simpl. lia.
  - exact H.
Defined.

(** [bytesToHuman] returns a text exactly for the values below [2^50]
    (1 PiB): from there on the unit index leaves the table of four units
    and the function panics. *)
Theorem bytesToHuman_panics_from_PiB (fmtFloat2 : Z → Z → string) (b : Z) :
  is_u64 b →
  (b < 2 ^ 50 → is_Some (bytesToHuman fmtFloat2 b)) ∧
  (2 ^ 50 <= b → bytesToHuman fmtFloat2 b = None).
Proof.
  intros Hb64. pose proof Hb64 as [Hb0 Hb1]. unfold u64_mod in Hb1.
  assert (∀ e : nat, 1024 ^ (Z.of_nat e + 1) <= b < 1024 ^ (Z.of_nat e + 2) →
            bytesToHuman fmtFloat2 b =
              (prefix ← ["KiB"; "MiB"; "GiB"; "TiB"] !! e;
               Some (fmtFloat2 b (1024 ^ (Z.of_nat e + 1)) +:+ prefix)))
    as Hunit.
  { intros e He. by apply bytesToHuman_large. }
  split.
  - intros Hlt.
    destruct (Z.eqb_spec b 0) as [->|Hnz]; [by eexists|].
    destruct (Z.ltb_spec b 1024) as [Hs|Hge];
      [rewrite bytesToHuman_small by lia; by eexists|].
    destruct (Z.ltb_spec b (1024 ^ 2)) as [H1|H1];
      [rewrite (Hunit 0%nat) by (simpl; lia); by eexists|].
    destruct (Z.ltb_spec b (1024 ^ 3)) as [H2|H2];
      [rewrite (Hunit 1%nat) by (simpl; lia); by eexists|].
    destruct (Z.ltb_spec b (1024 ^ 4)) as [H3|H3];
      [rewrite (Hunit 2%nat) by (simpl; lia); by eexists|].
    rewrite (Hunit 3%nat) by (simpl; lia). by eexists.
  - intros Hge.
    destruct (Z.ltb_spec b (1024 ^ 6)) as [H5|H5].
    + by rewrite (Hunit 4%nat) by (simpl; lia).
    + by rewrite (Hunit 5%nat) by (simpl; lia).
Qed.

(** One byte below 1 PiB is still printed; 1 PiB is not. *)
Lemma bytesToHuman_panics_from_PiB_witness :
  is_Some (bytesToHuman (λ _ _, "1024.00") (2 ^ 50 - 1)) ∧
  bytesToHuman (λ _ _, "1024.00") (2 ^ 50) = None.
Proof.
  split.
  - apply (bytesToHuman_panics_from_PiB (λ _ _, "1024.00") (2 ^ 50 - 1)).
    + unfold is_u64, u64_mod. lia.
    + lia.
  - apply (bytesToHuman_panics_from_PiB (λ _ _, "1024.00") (2 ^ 50)).
    + unfold is_u64, u64_mod. lia.
    + lia.
Defined.

(** ** [trimString] *)

Lemma append_nil_l s : "" +:+ s = s.
Proof. reflexivity. Qed.

Lemma append_cons c s1 s2 : String c s1 +:+ s2 = String c (s1 +:+ s2).
Proof. reflexivity. Qed.

Lemma length_append s1 s2 :
  String.length (s1 +:+ s2) = (String.length s1 + String.length s2)%nat.
Proof.
  induction s1 as [|c s1 IH]; [done|].
  rewrite append_cons. simpl. by rewrite IH.
Qed.

Lemma length_substring_0 n s :
  String.length (substring 0 n s) = Nat.min n (String.length s).
Proof.
  revert n. induction s as [|c s IH]; intros [|n]; simpl; try done.
  by rewrite IH.
Qed.

Lemma substring_0_length s : substring 0 (String.length s) s = s.
Proof. induction s as [|c s IH]; simpl; [done|]. by f_equal. Qed.

Lemma substring_0_append n s :
  (n ≤ String.length s)%nat →
  s = substring 0 n s +:+ substring n (String.length s - n) s.
Proof.
  revert n. induction s as [|c s IH]; intros [|n] Hn; simpl in *.
  - done.
  - lia.
  - rewrite append_nil_l. f_equal. symmetry. apply substring_0_length.
  - rewrite append_cons. f_equal. apply IH. lia.
Qed.

(** [trimString s n] for [n >= 0] returns a text of at most [n + 3] bytes:
    [s] itself when it has at most [n] bytes, otherwise its first [n]
    bytes followed by three dots; for a negative [n] it panics, whatever
    the text. *)
Theorem trimString_bound (s : string) (n : Z) :
  (0 <= n →
   ∃ r, trimString s n = Some r ∧
        Z.of_nat (String.length r) <= n + 3 ∧
        (Z.of_nat (String.length s) <= n → r = s) ∧
        (n < Z.of_nat (String.length s) →
           ∃ rest, s = substring 0 (Z.to_nat n) s +:+ rest ∧
                   r = substring 0 (Z.to_nat n) s +:+ "...")) ∧
  (n < 0 → trimString s n = None).
Proof.
  unfold trimString. split.
  - intros Hn. destruct (Z.leb_spec (Z.of_nat (String.length s)) n) as [Hle|Hgt].
    + exists s. split; [done|]. split; [lia|]. split; [done|]. intros; lia.
    + destruct (Z.ltb_spec n 0); [lia|].
      eexists. split; [reflexivity|]. split; [|split; [lia|]].
      * rewrite length_append, length_substring_0. simpl. lia.
      * intros _. eexists. split; [|reflexivity].
        apply substring_0_append. lia.
  - intros Hn. destruct (Z.leb_spec (Z.of_nat (String.length s)) n); [lia|].
    destruct (Z.ltb_spec n 0); [done|lia].
Qed.

(** A text of 8 bytes cut at 6, and a negative bound. *)
Lemma trimString_bound_witness :
  trimString "SELECT 1" 6 = Some "SELECT..." ∧
  trimString "SELECT 1" (-1) = None.
Proof.
  destruct (trimString_bound "SELECT 1" 6) as [Hok _].
  destruct (trimString_bound "SELECT 1" (-1)) as [_ Hneg].
  split.
  - destruct Hok as (r & Hr & _ & _ & Hcut); [lia|].
    destruct Hcut as (rest & _ & ->); [simpl; lia|]. exact Hr.
  - apply Hneg. lia.
Defined.

(** ** [parseBytesFlag] *)

Lemma substring_append_r p suf :
  substring (String.length p) (String.length suf) (p +:+ suf) = suf.
Proof.
  induction p as [|c p IH].
  - rewrite append_nil_l. apply substring_0_length.
  - rewrite append_cons. simpl. exact IH.
Qed.

Lemma substring_append_l p suf :
  substring 0 (String.length p) (p +:+ suf) = p.
Proof.
  induction p as [|c p IH].
  - rewrite append_nil_l. by destruct suf.
  - rewrite append_cons. simpl. by f_equal.
Qed.

Lemma hasSuffix_append p suf : hasSuffix (p +:+ suf) suf = true.
Proof.
  unfold hasSuffix. rewrite length_append.
  replace (String.length p + String.length suf - String.length suf)%nat
    with (String.length p) by lia.
  rewrite substring_append_r, String.eqb_refl, andb_true_r.
  apply Nat.leb_le. lia.
Qed.

Lemma trimSuffix_append p suf : trimSuffix (p +:+ suf) suf = p.
Proof.
  unfold trimSuffix. rewrite hasSuffix_append, length_append.
  replace (String.length p + String.length suf - String.length suf)%nat
    with (String.length p) by lia.
  apply substring_append_l.
Qed.

Lemma hasSuffix_inv s suf :
  hasSuffix s suf = true → ∃ p, s = p +:+ suf.
Proof.
  unfold hasSuffix. intros H. apply andb_true_iff in H as [Hlen Heq].
  apply Nat.leb_le in Hlen. apply String.eqb_eq in Heq.
  exists (substring 0 (String.length s - String.length suf) s).
  pose proof (substring_0_append (String.length s - String.length suf) s)
    as Hsplit.
  replace (String.length s - (String.length s - String.length suf))%nat
    with (String.length suf) in Hsplit by lia.
  rewrite Heq in Hsplit. apply Hsplit. lia.
Qed.

Lemma append_snoc_inj p q (a b : ascii) :
  p +:+ String a EmptyString = q +:+ String b EmptyString → p = q ∧ a = b.
Proof.
  revert q. induction p as [|c p IH]; intros [|d q];
    rewrite ?append_cons, ?append_nil_l; intros Heq.
  - by injection Heq.
  - injection Heq as -> Heq. destruct q; discriminate Heq.
  - injection Heq as -> Heq. destruct p; discriminate Heq.
  - injection Heq as -> Heq. destruct (IH q Heq) as [-> ->]. done.
Qed.

Lemma append_assoc_snoc p (a b : ascii) :
  p +:+ String a (String b EmptyString) =
  (p +:+ String a EmptyString) +:+ String b EmptyString.
Proof.
  induction p as [|c p IH]; [done|].
  rewrite !append_cons. by rewrite IH.
Qed.

(** A text that ends in byte [a] does not end in a one-byte suffix [b]
    different from [a], nor in a two-byte suffix whose last byte differs
    from [a] or whose first byte differs from the byte before [a]. *)
Lemma hasSuffix_clash1 p (a b : ascii) :
  a ≠ b → hasSuffix (p +:+ String a EmptyString) (String b EmptyString) = false.
Proof.
  intros Hne. apply not_true_is_false. intros H.
  apply hasSuffix_inv in H as [q Hq].
  apply append_snoc_inj in Hq as [_ Heq]. done.
Qed.

Lemma hasSuffix_clash2 p (a b1 b2 : ascii) :
  a ≠ b2 →
  hasSuffix (p +:+ String a EmptyString) (String b1 (String b2 EmptyString))
    = false.
Proof.
  intros Hne. apply not_true_is_false. intros H.
  apply hasSuffix_inv in H as [q Hq]. rewrite append_assoc_snoc in Hq.
  apply append_snoc_inj in Hq as [_ Heq]. done.
Qed.

Lemma hasSuffix_clash22 p (a1 a2 b1 b2 : ascii) :
  a1 ≠ b1 →
  hasSuffix (p +:+ String a1 (String a2 EmptyString))
            (String b1 (String b2 EmptyString)) = false.
Proof.
  intros Hne. apply not_true_is_false. intros H.
  apply hasSuffix_inv in H as [q Hq]. rewrite !append_assoc_snoc in Hq.
  apply append_snoc_inj in Hq as [Hq _].
  apply append_snoc_inj in Hq as [_ Heq]. done.
Qed.

Lemma hasSuffix_clash21 p (a1 a2 b : ascii) :
  a2 ≠ b →
  hasSuffix (p +:+ String a1 (String a2 EmptyString)) (String b EmptyString)
    = false.
Proof.
  intros Hne. rewrite append_assoc_snoc. by apply hasSuffix_clash1.
Qed.

(** The multiplier [parseBytesFlag] applies.  On the normalized text, the
    suffixes with a B are binary (KB 1024, MB 1024^2, GB 1024^3) and the
    bare letters are decimal (K 1000, M 1000^2, G 1000^3); the number is
    read from the text before the suffix.  A text with none of the six
    suffixes is read whole with multiplier 1. *)
Theorem parseBytesFlag_multiplier (trimSpaceUpper : string → string)
    (scan : string → Z → option Z) (s p : string) :
  (trimSpaceUpper s = p +:+ "GB" →
     parseBytesFlag trimSpaceUpper scan s = scan p 1073741824) ∧
  (trimSpaceUpper s = p +:+ "G" →
     parseBytesFlag trimSpaceUpper scan s = scan p 1000000000) ∧
  (trimSpaceUpper s = p +:+ "MB" →
     parseBytesFlag trimSpaceUpper scan s = scan p 1048576) ∧
  (trimSpaceUpper s = p +:+ "M" →
     parseBytesFlag trimSpaceUpper scan s = scan p 1000000) ∧
  (trimSpaceUpper s = p +:+ "KB" →
     parseBytesFlag trimSpaceUpper scan s = scan p 1024) ∧
  (trimSpaceUpper s = p +:+ "K" →
     parseBytesFlag trimSpaceUpper scan s = scan p 1000) ∧
  ((∀ suf, suf ∈ ["GB"; "G"; "MB"; "M"; "KB"; "K"] →
           hasSuffix (trimSpaceUpper s) suf = false) →
     parseBytesFlag trimSpaceUpper scan s = scan (trimSpaceUpper s) 1).
Proof.
  unfold parseBytesFlag. repeat split; intros H.
  - by rewrite H, hasSuffix_append, trimSuffix_append.
  - rewrite H, hasSuffix_clash2 by done.
    by rewrite hasSuffix_append, trimSuffix_append.
  - rewrite H, hasSuffix_clash22, hasSuffix_clash21 by done.
    by rewrite hasSuffix_append, trimSuffix_append.
  - rewrite H, hasSuffix_clash2, hasSuffix_clash1, hasSuffix_clash2 by done.
    by rewrite hasSuffix_append, trimSuffix_append.
  - rewrite H, hasSuffix_clash22, hasSuffix_clash21, hasSuffix_clash22,
      hasSuffix_clash21 by done.
    by rewrite hasSuffix_append, trimSuffix_append.
  - rewrite H, hasSuffix_clash2, hasSuffix_clash1, hasSuffix_clash2,
      hasSuffix_clash1, hasSuffix_clash2 by done.
    by rewrite hasSuffix_append, trimSuffix_append.
  - rewrite !H; [done|..]; repeat (apply elem_of_cons; (by left) || right);
      by apply elem_of_cons; left.
Qed.

(** ["5GB"] is [5 * 1024^3], ["5G"] is [5 * 1000^3], and ["1MIB"], the
    normalized form of ["1MiB"], has none of the suffixes. *)
Lemma parseBytesFlag_multiplier_witness :
  let scan := λ (rest : string) (mult : Z),
                if String.eqb rest "5" then Some (5 * mult) else None in
  parseBytesFlag id scan "5GB" = Some 5368709120 ∧
  parseBytesFlag id scan "5G" = Some 5000000000 ∧
  parseBytesFlag id (λ rest mult, Some mult) "1MIB" = Some 1.
Proof.
  intros scan. split; [|split].
  - destruct (parseBytesFlag_multiplier id scan "5GB" "5") as (H & _).
    rewrite H by reflexivity. reflexivity.
  - destruct (parseBytesFlag_multiplier id scan "5G" "5") as (_ & H & _).
    rewrite H by reflexivity. reflexivity.
  - destruct (parseBytesFlag_multiplier id (λ rest mult, Some mult) "1MIB" "")
      as (_ & _ & _ & _ & _ & _ & H).
    rewrite H; [reflexivity|].
    intros suf Hin. repeat (apply elem_of_cons in Hin as [->|Hin]);
      try reflexivity. by apply not_elem_of_nil in Hin.
Defined.

(** ** The heartbeat period *)

(** Whatever the query parameter and whatever [time.ParseDuration] makes of
    it, the heartbeat period lies between 100 milliseconds and 5 minutes: a
    shorter request is raised to the minimum, a longer one is lowered to
    the maximum, a request in between is taken as it is, and an absent or
    unreadable one gives 15 seconds. *)
Theorem heartbeatInterval_bounds (ParseDuration : string → option Z)
    (qs : string) :
  100 * millisecond <= heartbeatInterval ParseDuration qs <= 5 * minute ∧
  (∀ d, qs ≠ EmptyString → ParseDuration qs = Some d →
     (d < 100 * millisecond →
        heartbeatInterval ParseDuration qs = 100 * millisecond) ∧
     (5 * minute < d →
        heartbeatInterval ParseDuration qs = 5 * minute) ∧
     (100 * millisecond <= d <= 5 * minute →
        heartbeatInterval ParseDuration qs = d)) ∧
  (qs = EmptyString ∨ ParseDuration qs = None →
     heartbeatInterval ParseDuration qs = 15 * second).
Proof.
  unfold heartbeatInterval, minute, second, millisecond.
  destruct (String.eqb_spec qs "") as [->|Hne].
  - split; [lia|]. split; [done|done].
  - destruct (ParseDuration qs) as [d|] eqn:Hd.
    + destruct (Z.ltb_spec d (100 * 1000000)) as [Hlo|Hlo].
      * split; [lia|]. split; [|by intros [?|?]].
        intros d' _ [= <-]. repeat split; intros; lia.
      * destruct (Z.gtb_spec d (5 * (60 * (1000 * 1000000)))) as [Hhi|Hhi].
        -- split; [lia|]. split; [|by intros [?|?]].
           intros d' _ [= <-]. repeat split; intros; lia.
        -- split; [lia|]. split; [|by intros [?|?]].
           intros d' _ [= <-]. repeat split; intros; lia.
    + split; [lia|]. split; [done|done].
Qed.

(** A request of 5 milliseconds is raised to 100 milliseconds. *)
Lemma heartbeatInterval_bounds_witness :
  heartbeatInterval (λ _, Some (5 * millisecond)) "5ms" = 100 * millisecond.
Proof.
  destruct (heartbeatInterval_bounds (λ _, Some (5 * millisecond)) "5ms")
    as (_ & Hparsed & _).
  destruct (Hparsed (5 * millisecond)) as (Hlow & _); [done|done|].
  apply Hlow. unfold millisecond. lia.
Defined.

(** ** Streaming sessions *)

Lemma dataOf_app fs1 fs2 : dataOf (fs1 ++ fs2) = dataOf fs1 ++ dataOf fs2.
Proof. apply omap_app. Qed.

Lemma dataOf_Data lines : dataOf (Data <$> lines) = lines.
Proof.
  induction lines as [|l lines IH]; [done|].
  rewrite fmap_cons. unfold dataOf in *. simpl. f_equal. exact IH.
Qed.

Lemma send_spec f cl cl' :
  send f cl = Some cl' → received cl' = received cl ++ [f].
Proof.
  unfold send. destruct (credit cl) as [[|n]|]; [done|..]; by intros [= <-].
Qed.

Lemma send_unlimited f cl :
  credit cl = None → send f cl = Some (mkClient (received cl ++ [f]) None).
Proof. intros H. unfold send. by rewrite H. Qed.

Lemma sendHello_data cl : dataOf (received (sendHello cl)) = dataOf (received cl).
Proof.
  unfold sendHello. destruct (send Hello cl) as [cl'|] eqn:Hs; [|done].
  rewrite (send_spec _ _ _ Hs), dataOf_app. simpl. by rewrite app_nil_r.
Qed.

Lemma sendHello_credit cl : credit cl = None → credit (sendHello cl) = None.
Proof. intros H. unfold sendHello. by rewrite send_unlimited. Qed.

(** The lines written by [sendLines] are a prefix of the lines it was
    given, all of them when no write failed. *)
Lemma sendLines_spec lines cl :
  ∃ n, received (sendLines lines cl).1 =
         received cl ++ (Data <$> take n lines) ∧
       ((sendLines lines cl).2 = true → take n lines = lines).
Proof.
  revert cl. induction lines as [|l lines IH]; intros cl; simpl.
  - exists 0%nat. by rewrite app_nil_r.
  - destruct (send (Data l) cl) as [cl1|] eqn:Hs.
    + destruct (IH cl1) as (n & Hrec & Hok). exists (S n). simpl. split.
      * rewrite Hrec, (send_spec _ _ _ Hs), <- app_assoc. done.
      * intros H. by rewrite (Hok H).
    + exists 0%nat. simpl. by rewrite app_nil_r.
Qed.

Lemma sendLines_unlimited lines cl :
  credit cl = None →
  sendLines lines cl = (mkClient (received cl ++ (Data <$> lines)) None, true).
Proof.
  revert cl. induction lines as [|l lines IH]; intros cl Hc; simpl.
  - rewrite app_nil_r. destruct cl as [fs cr]. simpl in *. by subst.
  - rewrite send_unlimited by done. rewrite IH by done. simpl.
    by rewrite <- app_assoc.
Qed.

Lemma sublist_drop_le {A} (l : list A) (k k' : nat) :
  (k ≤ k')%nat → drop k' l `sublist_of` drop k l.
Proof.
  intros Hle. replace k' with (k + (k' - k))%nat by lia.
  rewrite <- drop_drop. apply sublist_drop.
Qed.

(** The invariant of the poll loop.  [all] are the lines appended to the
    ring [r0] the session connected to, [r] is the ring now, and the
    cursor stands [k] lines after [next r0]: whatever the schedule, the
    lines delivered from here on are a sublist of the lines from position
    [k] on. *)
Lemma pollLoop_sublist evs r0 all (k : nat) r cl :
  ring_inv r0 → 1 <= cap r0 → base r0 <= next r0 →
  next r0 + Z.of_nat (length all) + Z.of_nat (length (appended evs))
    < u64_mod →
  appendAll all r0 = Some r → (k ≤ length all)%nat →
  ∃ r' cl' ret D,
    pollLoop evs r (next r0 + Z.of_nat k) cl = Some (r', cl', ret) ∧
    dataOf (received cl') = dataOf (received cl) ++ D ∧
    D `sublist_of` drop k (all ++ appended evs).
Proof.
  intros Hinv Hpos Hle. revert all k r cl.
  induction evs as [|ev evs IH]; intros all k r cl Hsmall Hall Hk.
  - exists r, cl, false, []. simpl. rewrite app_nil_r.
    split; [done|]. split; [done|]. apply sublist_nil_l.
  - destruct ev as [| | |line].
    + exists r, cl, true, []. simpl. rewrite app_nil_r.
      split; [done|]. split; [done|]. apply sublist_nil_l.
    + cbn [pollLoop]. destruct (send KeepAlive cl) as [cl1|] eqn:Hs.
      * destruct (IH all k r cl1) as (r' & cl' & ret & D & Hrun & Hd & Hsub);
          [done|done|done|].
        exists r', cl', ret, D. split; [done|]. split; [|done].
        rewrite Hd, (send_spec _ _ _ Hs), dataOf_app. simpl.
        by rewrite app_nil_r.
      * exists r, cl, true, []. rewrite app_nil_r.
        split; [done|]. split; [done|]. apply sublist_nil_l.
    + cbn [pollLoop].
      rewrite (GetFrom_cursor_after_appends all k r0 r) by (done || lia).
      cbn [mbind option_bind].
      set (k' := (k `max` (length all - Z.to_nat (cap r0)))%nat).
      destruct (sendLines_spec (drop k' all) cl) as (n & Hrec & Hok).
      destruct (sendLines (drop k' all) cl) as [cl1 ok]. simpl in Hrec, Hok.
      assert (drop k' all `sublist_of` drop k all) as Hkk'
        by (apply sublist_drop_le; lia).
      destruct ok.
      * rewrite (Hok eq_refl) in Hrec.
        destruct (IH all (length all) r cl1)
          as (r' & cl' & ret & D & Hrun & Hd & Hsub); [done|done|done|].
        exists r', cl', ret, (drop k' all ++ D). split; [done|]. split.
        -- rewrite Hd, Hrec, dataOf_app, dataOf_Data, <- app_assoc. done.
        -- change (appended (PPoll :: evs)) with (appended evs).
           rewrite drop_app_le by lia.
           rewrite drop_app_length in Hsub. by apply sublist_app.
      * exists r, cl1, true, (take n (drop k' all)). split; [done|]. split.
        -- by rewrite Hrec, dataOf_app, dataOf_Data.
        -- rewrite drop_app_le by lia.
           etrans; [apply sublist_take|]. etrans; [exact Hkk'|].
           apply sublist_inserts_r. done.
    + cbn [pollLoop].
      change (appended (PAppend line :: evs)) with (line :: appended evs)
        in *.
      simpl in Hsmall.
      destruct (appendAll_lastN (all ++ [line]) r0 Hinv Hpos Hle)
        as (r1 & Hall1 & _); [rewrite length_app; simpl; lia|].
      pose proof Hall1 as Happ. rewrite appendAll_app, Hall in Happ.
      cbn [mbind option_bind appendAll] in Happ.
      destruct (Append line r) as [r1'|]; [|done].
      cbn [mbind option_bind] in Happ. injection Happ as ->.
      cbn [mbind option_bind].
      destruct (IH (all ++ [line]) k r1 cl)
        as (r' & cl' & ret & D & Hrun & Hd & Hsub);
        [rewrite length_app; simpl; lia|done|rewrite length_app; lia|].
      exists r', cl', ret, D. split; [done|]. split; [done|].
      by rewrite <- app_assoc in Hsub.
Qed.

(** A poll-mode session never delivers a line twice, never delivers lines
    out of order and delivers no line from before it connected: whatever
    the schedule of polls, heartbeats, appends and failures, the lines of
    the data frames it writes are a sublist of the lines appended to the
    ring after it connected. *)
Theorem pollSession_delivers_sublist (evs : list pollEvent) (r : logRing)
    (cl : client) :
  ring_inv r → 1 <= cap r → base r <= next r →
  next r + Z.of_nat (length (appended evs)) < u64_mod →
  ∃ r' cl' ret D,
    pollSession evs r cl = Some (r', cl', ret) ∧
    dataOf (received cl') = dataOf (received cl) ++ D ∧
    D `sublist_of` appended evs.
Proof.
  intros Hinv Hpos Hle Hsmall. unfold pollSession, Head.
  destruct (pollLoop_sublist evs r [] 0 r (sendHello cl) Hinv Hpos Hle)
    as (r' & cl' & ret & D & Hrun & Hd & Hsub); [simpl; lia|done|simpl; lia|].
  exists r', cl', ret, D. rewrite Z.add_0_r in Hrun.
  split; [done|]. split; [by rewrite Hd, sendHello_data|done].
Qed.

(** A reader behind by more than the capacity: five lines are appended to
    a ring of capacity 3 between two polls, and the client takes four
    frames before its connection breaks. *)
Lemma pollSession_delivers_sublist_witness :
  let evs := [PAppend "A"; PAppend "B"; PAppend "C"; PAppend "D";
              PAppend "E"; PPoll; PAppend "F"; PPoll] in
  ∃ r' cl', pollSession evs (mkLogRing 3 ["old"] 0 1) (mkClient [] (Some 4%nat))
              = Some (r', cl', true) ∧
            dataOf (received cl') = ["C"; "D"; "E"] ∧
            ["C"; "D"; "E"] `sublist_of` appended evs.
Proof.
  intros evs.
  assert (ring_inv (mkLogRing 3 ["old"] 0 1)) as Hinv.
  { unfold ring_inv, is_u64, u64_mod; simpl. repeat split; try lia; done. }
  destruct (pollSession_delivers_sublist evs (mkLogRing 3 ["old"] 0 1)
              (mkClient [] (Some 4%nat)) Hinv)
    as (r' & cl' & ret & D & Hrun & Hd & Hsub);
    [simpl; lia|simpl; lia|unfold u64_mod; simpl; lia|].
  vm_compute in Hrun. injection Hrun as <- <- <-.
  eexists _, _. split; [vm_compute; reflexivity|].
  simpl in Hd. subst D. split; [reflexivity|exact Hsub].
Defined.

(** The poll loop on a paced schedule and a client that takes every
    frame: all lines from position [k] on are delivered. *)
Lemma pollLoop_complete evs r0 all (k : nat) r cl :
  ring_inv r0 → 1 <= cap r0 → base r0 <= next r0 →
  next r0 + Z.of_nat (length all) + Z.of_nat (length (appended evs))
    < u64_mod →
  appendAll all r0 = Some r → (k ≤ length all)%nat →
  credit cl = None →
  paced (Z.to_nat (cap r0)) (length all - k) evs = true →
  ∃ r' cl',
    pollLoop evs r (next r0 + Z.of_nat k) cl = Some (r', cl', false) ∧
    credit cl' = None ∧
    dataOf (received cl') =
      dataOf (received cl) ++ drop k (all ++ appended evs).
Proof.
  intros Hinv Hpos Hle. revert all k r cl.
  induction evs as [|ev evs IH]; intros all k r cl Hsmall Hall Hk Hcr Hpaced.
  - exists r, cl. simpl in *. apply bool_decide_eq_true in Hpaced.
    rewrite app_nil_r, drop_ge by lia. by rewrite app_nil_r.
  - destruct ev as [| | |line]; cbn [paced] in Hpaced.
    + done.
    + cbn [pollLoop]. rewrite send_unlimited by done.
      destruct (IH all k r (mkClient (received cl ++ [KeepAlive]) None))
        as (r' & cl' & Hrun & Hcr' & Hd); [done|done|done|done|done|].
      exists r', cl'. split; [done|]. split; [done|].
      rewrite Hd. simpl. rewrite dataOf_app. simpl. by rewrite app_nil_r.
    + apply andb_true_iff in Hpaced as [Hpend Hpaced].
      apply bool_decide_eq_true in Hpend.
      cbn [pollLoop].
      rewrite (GetFrom_cursor_after_appends all k r0 r) by (done || lia).
      cbn [mbind option_bind].
      replace (k `max` (length all - Z.to_nat (cap r0)))%nat with k by lia.
      rewrite sendLines_unlimited by done.
      destruct (IH all (length all) r
                  (mkClient (received cl ++ (Data <$> drop k all)) None))
        as (r' & cl' & Hrun & Hcr' & Hd);
        [done|done|done|done|by rewrite Nat.sub_diag|].
      exists r', cl'. split; [done|]. split; [done|].
      rewrite Hd. simpl. rewrite dataOf_app, dataOf_Data, <- app_assoc.
      change (appended (PPoll :: evs)) with (appended evs).
      by rewrite drop_app_length, drop_app_le by lia.
    + cbn [pollLoop].
      change (appended (PAppend line :: evs)) with (line :: appended evs)
        in *.
      simpl in Hsmall.
      destruct (appendAll_lastN (all ++ [line]) r0 Hinv Hpos Hle)
        as (r1 & Hall1 & _); [rewrite length_app; simpl; lia|].
      pose proof Hall1 as Happ. rewrite appendAll_app, Hall in Happ.
      cbn [mbind option_bind appendAll] in Happ.
      destruct (Append line r) as [r1'|]; [|done].
      cbn [mbind option_bind] in Happ. injection Happ as ->.
      cbn [mbind option_bind].
      destruct (IH (all ++ [line]) k r1 cl)
        as (r' & cl' & Hrun & Hcr' & Hd);
        [rewrite length_app; simpl; lia|done|rewrite length_app; lia|done| |].
      { rewrite length_app. simpl.
        by replace (length all + 1 - k)%nat with (S (length all - k)) by lia. }
      exists r', cl'. split; [done|]. split; [done|].
      by rewrite <- app_assoc in Hd.
Qed.

(** A poll-mode session loses nothing while it keeps up: when the client
    takes every frame and does not disconnect, every poll finds at most
    [C] lines appended since the poll before, and a poll follows the last
    append, the lines of the data frames written are exactly the lines
    appended after the session connected, in order. *)
Theorem pollSession_delivers_all (evs : list pollEvent) (r : logRing)
    (fs : list frame) :
  ring_inv r → 1 <= cap r → base r <= next r →
  next r + Z.of_nat (length (appended evs)) < u64_mod →
  paced (Z.to_nat (cap r)) 0 evs = true →
  ∃ r' cl',
    pollSession evs r (mkClient fs None) = Some (r', cl', false) ∧
    dataOf (received cl') = dataOf fs ++ appended evs.
Proof.
  intros Hinv Hpos Hle Hsmall Hpaced. unfold pollSession, Head.
  destruct (pollLoop_complete evs r [] 0 r (sendHello (mkClient fs None))
              Hinv Hpos Hle)
    as (r' & cl' & Hrun & _ & Hd);
    [simpl; lia|done|simpl; lia|by apply sendHello_credit|done|].
  exists r', cl'. rewrite Z.add_0_r in Hrun. split; [done|].
  by rewrite Hd, sendHello_data.
Qed.

(** Three lines in two bursts on a ring of capacity 2, polled in time. *)
Lemma pollSession_delivers_all_witness :
  let evs := [PAppend "A"; PAppend "B"; PPoll; PHeartbeat; PAppend "C";
              PPoll] in
  ∃ r' cl', pollSession evs (mkLogRing 2 ["old"] 0 1) (mkClient [] None)
              = Some (r', cl', false) ∧
            received cl' = [Hello; Data "A"; Data "B"; KeepAlive; Data "C"].
Proof.
  intros evs.
  assert (ring_inv (mkLogRing 2 ["old"] 0 1)) as Hinv.
  { unfold ring_inv, is_u64, u64_mod; simpl. repeat split; try lia; done. }
  destruct (pollSession_delivers_all evs (mkLogRing 2 ["old"] 0 1) [] Hinv)
    as (r' & cl' & Hrun & Hd);
    [simpl; lia|simpl; lia|unfold u64_mod; simpl; lia|reflexivity|].
  exists r', cl'. split; [exact Hrun|].
  vm_compute in Hrun. by injection Hrun as <- <-.
Defined.

(** *** Push mode *)

Lemma recv_spec ch h res h' :
  recv ch h = Some (res, h') →
  ∃ c, h !! ch = Some c ∧
       match res with
       | Some line =>
           ∃ rest, buf c = line :: rest ∧
                   h' = <[ch := mkChan rest (closed c)]> h
       | None => buf c = [] ∧ closed c = true ∧ h' = h
       end.
Proof.
  unfold recv. destruct (h !! ch) as [c|]; [|done].
  destruct (buf c) as [|line rest] eqn:Hbuf.
  - destruct (closed c) eqn:Hcl; [|done]. intros [= <- <-]. eauto.
  - intros [= <- <-]. exists c. eauto.
Qed.

(** A receive keeps the registered channels open. *)
Lemma recv_inv ch b line h :
  bc_inv b → recv ch (chans b) = Some (Some line, h) →
  bc_inv (mkBroadcaster h (subs b)).
Proof.
  intros Hinv Hrecv.
  apply recv_spec in Hrecv as (c & Hc & rest & Hbuf & ->).
  apply bc_inv_intro. simpl. intros ch' Hin.
  destruct (bc_inv_lookup b ch' Hinv Hin) as (c' & Hc' & Hopen).
  destruct (decide (ch' = ch)) as [->|Hne].
  - rewrite lookup_insert_eq. eexists. split; [done|]. simpl. congruence.
  - rewrite lookup_insert_ne by done. eauto.
Qed.

(** An operation of another goroutine leaves the queue of [ch] as it is or,
    for a broadcast, may add the broadcast line at its end. *)
Lemma bcStep_queue op b b' ch :
  bc_inv b → is_Some (chans b !! ch) → bcStep op b = Some b' →
  is_Some (chans b' !! ch) ∧
  (queueOf ch b' = queueOf ch b ∨
   ∃ m, op = OpBroadcast m ∧ queueOf ch b' = queueOf ch b ++ [m]).
Proof.
  intros Hinv [c Hc] Hstep. unfold queueOf. rewrite Hc. simpl.
  destruct op as [|ch1|m]; cbn [bcStep] in Hstep.
  - change (Some (Subscribe b).2 = Some b') in Hstep.
    injection Hstep as <-.
    destruct (Subscribe_spec b Hinv) as (_ & _ & Hfresh & _ & Hother & _).
    assert (ch ≠ (Subscribe b).1) as Hne.
    { intros ->. apply Hfresh. apply elem_of_dom. by eexists. }
    rewrite Hother, Hc by done. split; [by eexists|by left].
  - destruct (decide (ch1 ∈ subs b)) as [Hin|Hnotin].
    + destruct (unsubscribe_in ch1 b Hinv Hin)
        as (b1 & c1 & Hb1 & Hc1 & _ & Hchans & _).
      rewrite Hb1 in Hstep. injection Hstep as <-. rewrite Hchans.
      destruct (decide (ch = ch1)) as [->|Hne].
      * rewrite lookup_insert_eq. simpl. split; [by eexists|left].
        congruence.
      * rewrite lookup_insert_ne, Hc by done. split; [by eexists|by left].
    + rewrite unsubscribe_notin in Hstep by done. injection Hstep as <-.
      rewrite Hc. split; [by eexists|by left].
  - destruct (Broadcast_spec m b Hinv) as (b1 & Hb1 & _ & _ & Hlook).
    rewrite Hb1 in Hstep. injection Hstep as <-. rewrite Hlook, Hc.
    case_decide; simpl; [|split; [by eexists|by left]].
    split; [by eexists|]. unfold deliver.
    destruct (_ <? _); simpl; [right; eauto|by left].
Qed.

Lemma owned_is_Some ch b : bc_inv b → owned ch b → is_Some (chans b !! ch).
Proof.
  intros Hinv [Hin|(_ & c & Hc & _)]; [|by eexists].
  destruct (bc_inv_lookup b ch Hinv Hin) as (c & Hc & _). by eexists.
Qed.

Lemma bcStep_owned op b b' ch :
  bc_inv b → owned ch b → bcStep op b = Some b' → owned ch b'.
Proof.
  intros Hinv Hown Hstep.
  destruct (bcStep_inv op b Hinv) as (b1 & Hstep1 & _ & Hrel).
  rewrite Hstep in Hstep1. injection Hstep1 as <-.
  destruct Hown as [Hin|Hreleased]; [|right; by apply Hrel].
  destruct op as [|ch1|m]; cbn [bcStep] in Hstep.
  - injection Hstep as <-. left. simpl. registry_mem.
  - destruct (decide (ch1 ∈ subs b)) as [Hin1|Hnotin].
    + destruct (unsubscribe_in ch1 b Hinv Hin1)
        as (b1 & c1 & Hb1 & _ & Hsubs & _ & _ & Hrel1).
      rewrite Hb1 in Hstep. injection Hstep as <-.
      destruct (decide (ch = ch1)) as [->|Hne]; [by right|].
      left. rewrite Hsubs. registry_mem.
    + rewrite unsubscribe_notin in Hstep by done. injection Hstep as <-.
      by left.
  - destruct (Broadcast_spec m b Hinv) as (b1 & Hb1 & Hsubs & _).
    rewrite Hb1 in Hstep. injection Hstep as <-. left. by rewrite Hsubs.
Qed.

Lemma recv_owned ch b line h :
  owned ch b → recv ch (chans b) = Some (Some line, h) →
  owned ch (mkBroadcaster h (subs b)).
Proof.
  intros Hown Hrecv.
  apply recv_spec in Hrecv as (c & Hc & rest & Hbuf & ->).
  destruct Hown as [Hin|(Hnotin & c' & Hc' & Hcl)]; [by left|].
  right. split; [done|]. simpl. rewrite lookup_insert_eq.
  eexists. split; [done|]. simpl. congruence.
Qed.

(** The invariant of the push loop: the lines delivered from here on,
    after the lines already queued, are a sublist of the lines broadcast
    from here on. *)
Lemma pushLoop_sublist evs b ch cl :
  bc_inv b → owned ch b →
  ∃ b' cl' ret D,
    pushLoop evs b ch cl = Some (b', cl', ret) ∧ bc_inv b' ∧
    owned ch b' ∧
    dataOf (received cl') = dataOf (received cl) ++ D ∧
    D `sublist_of` queueOf ch b ++ broadcasted evs.
Proof.
  revert b cl. induction evs as [|ev evs IH]; intros b cl Hinv Hown.
  - exists b, cl, false, []. rewrite app_nil_r.
    repeat (split; [done|]). apply sublist_nil_l.
  - destruct ev as [| | |op]; cbn [pushLoop].
    + exists b, cl, true, []. rewrite app_nil_r.
      repeat (split; [done|]). apply sublist_nil_l.
    + destruct (send KeepAlive cl) as [cl1|] eqn:Hs.
      * destruct (IH b cl1 Hinv Hown)
          as (b' & cl' & ret & D & Hrun & Hinv' & Hown' & Hd & Hsub).
        exists b', cl', ret, D. repeat (split; [done|]). split; [|done].
        rewrite Hd, (send_spec _ _ _ Hs), dataOf_app. simpl.
        by rewrite app_nil_r.
      * exists b, cl, true, []. rewrite app_nil_r.
        repeat (split; [done|]). apply sublist_nil_l.
    + destruct (recv ch (chans b)) as [[[line|] h]|] eqn:Hrecv.
      * pose proof (recv_inv _ _ _ _ Hinv Hrecv) as Hinv1.
        pose proof (recv_owned _ _ _ _ Hown Hrecv) as Hown1.
        apply recv_spec in Hrecv as (c & Hc & rest & Hbuf & ->).
        set (b1 := mkBroadcaster _ (subs b)) in *.
        assert (queueOf ch b = line :: queueOf ch b1) as Hq.
        { unfold queueOf. simpl. by rewrite Hc, lookup_insert_eq. }
        destruct (send (Data line) cl) as [cl1|] eqn:Hs.
        -- destruct (IH b1 cl1 Hinv1 Hown1)
             as (b' & cl' & ret & D & Hrun & Hinv' & Hown' & Hd & Hsub).
           exists b', cl', ret, (line :: D). repeat (split; [done|]). split.
           ++ rewrite Hd, (send_spec _ _ _ Hs), dataOf_app, <- app_assoc.
              done.
           ++ rewrite Hq. simpl. by apply sublist_skip.
        -- exists b1, cl, true, []. rewrite app_nil_r.
           repeat (split; [done|]). apply sublist_nil_l.
      * exists b, cl, true, []. rewrite app_nil_r.
        repeat (split; [done|]). apply sublist_nil_l.
      * destruct (IH b cl Hinv Hown)
          as (b' & cl' & ret & D & Hrun & Hinv' & Hown' & Hd & Hsub).
        exists b', cl', ret, D. repeat (split; [done|]). done.
    + destruct (bcStep_inv op b Hinv) as (b1 & Hstep & Hinv1 & _).
      rewrite Hstep. cbn [mbind option_bind].
      pose proof (owned_is_Some ch b Hinv Hown) as Hch.
      pose proof (bcStep_owned op b b1 ch Hinv Hown Hstep) as Hown1.
      destruct (bcStep_queue op b b1 ch Hinv Hch Hstep) as [_ Hq].
      destruct (IH b1 cl Hinv1 Hown1)
        as (b' & cl' & ret & D & Hrun & Hinv' & Hown' & Hd & Hsub).
      exists b', cl', ret, D. repeat (split; [done|]).
      destruct Hq as [Hq|(m & -> & Hq)].
      * rewrite Hq in Hsub. etrans; [exact Hsub|].
        apply sublist_app; [done|].
        destruct op as [| |m]; simpl; try done. by apply sublist_cons.
      * rewrite Hq, <- app_assoc in Hsub. exact Hsub.
Qed.

(** A push-mode session, whatever its schedule: nothing panics; the lines
    of the data frames it writes are a sublist of the lines broadcast
    after it subscribed, so it delivers no line twice, none out of order
    and none from before; and once the handler has returned, for whatever
    reason, its channel is closed and out of the registry. *)
Theorem pushSession_cleanup_and_order (evs : list pushEvent)
    (b : sseBroadcaster) (cl : client) :
  bc_inv b →
  ∃ b' cl' ret D,
    pushSession evs b cl = Some (b', cl', ret) ∧ bc_inv b' ∧
    dataOf (received cl') = dataOf (received cl) ++ D ∧
    D `sublist_of` broadcasted evs ∧
    (ret = true → released (Subscribe b).1 b').
Proof.
  intros Hinv. unfold pushSession.
  destruct (Subscribe_spec b Hinv) as (Hinv1 & Hin & _ & Hnew & _).
  destruct (pushLoop_sublist evs (Subscribe b).2 (Subscribe b).1
              (sendHello cl) Hinv1)
    as (b2 & cl2 & ret & D & Hrun & Hinv2 & Hown2 & Hd & Hsub);
    [by left|].
  rewrite Hrun. cbn [mbind option_bind].
  assert (queueOf (Subscribe b).1 (Subscribe b).2 = []) as Hq
    by (unfold queueOf; by rewrite Hnew).
  rewrite Hq in Hsub. simpl in Hsub. rewrite sendHello_data in Hd.
  destruct ret.
  - destruct (decide ((Subscribe b).1 ∈ subs b2)) as [Hreg|Hnreg].
    + destruct (unsubscribe_in _ b2 Hinv2 Hreg)
        as (b3 & c & -> & _ & _ & _ & Hinv3 & Hrel).
      cbn [mbind option_bind]. exists b3, cl2, true, D.
      split; [done|]. split; [done|]. split; [done|]. split; [done|]. done.
    + rewrite unsubscribe_notin by done. cbn [mbind option_bind].
      exists b2, cl2, true, D.
      split; [done|]. split; [done|]. split; [done|]. split; [done|].
      intros _. by destruct Hown2.
  - exists b2, cl2, false, D.
    split; [done|]. split; [done|]. split; [done|]. split; [done|]. done.
Qed.

(** A session gets two of three broadcast lines before its client
    disconnects; another session unsubscribes meanwhile. *)
Lemma pushSession_cleanup_and_order_witness :
  let b := (Subscribe NewLogStreamBroadcaster).2 in
  let evs := [QBus (OpBroadcast "A"); QRecv; QBus (OpUnsubscribe 0%nat);
              QBus (OpBroadcast "B"); QBus (OpBroadcast "C"); QRecv;
              QDisconnect] in
  ∃ b' cl', pushSession evs b (mkClient [] None) = Some (b', cl', true) ∧
            dataOf (received cl') = ["A"; "B"] ∧
            released 1%nat b' ∧ subs b' = ∅.
Proof.
  intros b evs.
  assert (bc_inv b) as Hinv
    by (apply (bool_decide_unpack _); vm_compute; exact I).
  destruct (pushSession_cleanup_and_order evs b (mkClient [] None) Hinv)
    as (b' & cl' & ret & D & Hrun & _ & Hd & _ & Hrel).
  vm_compute in Hrun. injection Hrun as <- <- <-.
  eexists _, _. split; [vm_compute; reflexivity|].
  split; [reflexivity|]. split; [exact (Hrel eq_refl)|].
  vm_compute. reflexivity.
Defined.
